(** * playwright-trace-mcp: page snapshots, element references and the session

    A shallow embedding of [src/context.ts]: the [PageSnapshot] class (frame
    traversal, reference rewriting, reference resolution) and the [Context]
    class (tabs, modal states, the tool runner).

    Conventions.
    - A JavaScript string is a [string]; each character stands for one code
      unit, so the development covers the strings whose code units are below
      256.  Among those the line terminators of a regular expression's [.]
      are LF and CR.
    - A frame index is a position in the array [_frameLocators], a [nat].  For
      such numbers the template literal [`${frameIndex}`] is the plain decimal
      numeral and [parseInt(digits, 10)] is exact.
    - A rejected promise or a thrown [Error] is the [Err] case of [Result]. *)

From Stdlib Require Import String Ascii List Arith Lia.
From Stdlib Require Import Decimal DecimalNat DecimalString.
From stdpp Require Import base option list strings gmap.

Open Scope string_scope.
Open Scope list_scope.
Set Warnings "-register-all".

(** ** Results of fallible calls *)

Inductive Result (A : Type) : Type :=
| Ok (a : A)
| Err (message : string).
Arguments Ok {A} a.
Arguments Err {A} message.

(** ** JavaScript string primitives used by [PageSnapshot] *)

Module Js.

Definition isDigit (c : ascii) : bool :=
  Nat.leb 48 (nat_of_ascii c) && Nat.leb (nat_of_ascii c) 57.

(** What [.] refuses to match. *)
Definition isLineTerminator (c : ascii) : bool :=
  Nat.eqb (nat_of_ascii c) 10 || Nat.eqb (nat_of_ascii c) 13.

Definition digitValue (c : ascii) : nat := nat_of_ascii c - 48.

Fixpoint skip (n : nat) (s : string) : string :=
  match n, s with
  | S n', String _ s' => skip n' s'
  | _, _ => s
  end.

(** [s.startsWith(p)]. *)
Definition startsWith (s p : string) : bool := String.prefix p s.

(** [s.replace(pat, repl)] with a string pattern: only the first occurrence
    is replaced.  The replacement strings used here contain no [$], so no
    replacement pattern is expanded. *)
Fixpoint replace (s pat repl : string) : string :=
  if String.prefix pat s then repl +:+ skip (String.length pat) s
  else match s with
       | EmptyString => s
       | String c s' => String c (replace s' pat repl)
       end.

(** The longest prefix [.*] can consume. *)
Fixpoint lineOf (s : string) : string :=
  match s with
  | EmptyString => EmptyString
  | String c s' => if isLineTerminator c then EmptyString else String c (lineOf s')
  end.

(** The part of [s] before the last occurrence of [c]. *)
Fixpoint upToLast (c : ascii) (s : string) : option string :=
  match s with
  | EmptyString => None
  | String a s' =>
      match upToLast c s' with
      | Some p => Some (String a p)
      | None => if Ascii.eqb a c then Some EmptyString else None
      end
  end.

(** The leading decimal digits of [s] and what follows them. *)
Fixpoint spanDigits (s : string) : string * string :=
  match s with
  | EmptyString => (EmptyString, EmptyString)
  | String c s' =>
      if isDigit c
      then let (ds, rest) := spanDigits s' in (String c ds, rest)
      else (EmptyString, s)
  end.

Fixpoint parseDigits (acc : nat) (s : string) : nat :=
  match s with
  | EmptyString => acc
  | String c s' => parseDigits (10 * acc + digitValue c) s'
  end.

(** [parseInt(ds, 10)] on a string of decimal digits. *)
Definition parseInt (ds : string) : nat := parseDigits 0 ds.

(** The characters that cannot be written inside a literal here. *)
Definition doubleQuote : string := String (ascii_of_nat 34) EmptyString.

Definition newline : string := String (ascii_of_nat 10) EmptyString.

(** [lines.join('\n')]. *)
Definition joinLines (lines : list string) : string :=
  String.concat newline lines.

(** [`${n}`] for an array index. *)
Definition numberToString (n : nat) : string :=
  NilEmpty.string_of_uint (Nat.to_uint n).

End Js.

(** ** Reference codec *)

(** Line 536: the first group of the match of [value] against the pattern
    "[ref=", then a greedy run of any characters but line terminators, then
    "]".  The match starts at the leftmost "[ref=" that is followed, on the
    same line, by a closing bracket, and the group runs to the last closing
    bracket of that line. *)
Fixpoint matchRef (value : string) : option string :=
  match (if String.prefix "[ref=" value
         then Js.upToLast "]" (Js.lineOf (Js.skip 5 value))
         else None) with
  | Some ref => Some ref
  | None =>
      match value with
      | EmptyString => None
      | String _ rest => matchRef rest
      end
  end.

(** Lines 533-534: the rewriting of a scalar of the frame [frameIndex]. *)
Definition rewriteRef (frameIndex : nat) (value : string) : string :=
  if Nat.ltb 0 frameIndex
  then Js.replace value "[ref=" ("[ref=f" +:+ Js.numberToString frameIndex)
  else value.

(** The encoding of section 4.1 of the specification, in its words: the
    local id unchanged for frame 0, ["f" + frameIndex + localId] otherwise. *)
Definition encodeRef (frameIndex : nat) (localId : string) : string :=
  if Nat.eqb frameIndex 0 then localId
  else "f" +:+ Js.numberToString frameIndex +:+ localId.

(** Lines 557-562: the match of [ref] against the anchored pattern "f", one
    or more decimal digits (greedy), then any characters but line
    terminators; the frame index and the frame-local id [refLocator] goes on
    with.  Without a match the index is 0 and the id is [ref] itself. *)
Definition decodeRef (ref : string) : nat * string :=
  match ref with
  | String c rest =>
      if Ascii.eqb c "f" then
        match Js.spanDigits rest with
        | (EmptyString, _) => (0, ref)
        | (digits, tail) => (Js.parseInt digits, Js.lineOf tail)
        end
      else (0, ref)
  | EmptyString => (0, ref)
  end.

(** ** YAML documents and the driver's frames *)

(** The value of a [yaml] scalar: a string, or anything else (a number, a
    boolean, null), kept as its source text. *)
Inductive Value : Type :=
| VString (s : string)
| VOther (source : string).

(** The nodes [visit] tells apart with [isPair], [isSeq], [isMap] and
    [isScalar]; [YNone] is the absent node, [null]: the contents of an empty
    document, the value of a pair without one.  Aliases, which the driver
    does not write, are left out. *)
Inductive YNode : Type :=
| YScalar (value : Value)
| YPair (key value : YNode)
| YSeq (items : list YNode)
| YMap (items : list YNode)
| YNone.

(** What the driver knows of a page or frame locator: either
    [locator('body').ariaSnapshot(...)] rejects (a detached or cross-origin
    frame, a locator that matches no frame), or it resolves with a text that
    [yaml.parseDocument] turns into [body], and [frameLocator selector] leads
    to the frames nested in it.  The type is inductive: the frames of a page
    form a tree, without cycles. *)
Inductive Frame : Type :=
| Unreachable (message : string)
| Reachable (body : YNode) (frameLocator : string -> Frame).

Definition frameLocator (frame : Frame) (selector : string) : Frame :=
  match frame with
  | Unreachable message => Unreachable message
  | Reachable _ sub => sub selector
  end.

Definition ariaSnapshot (frame : Frame) : Result YNode :=
  match frame with
  | Unreachable message => Err message
  | Reachable body _ => Ok body
  end.

(** [createNode(value)] of the [yaml] library for a document, which stands
    for its contents: a node is taken as it is, absent contents become a null
    scalar. *)
Definition createNode (contents : YNode) : YNode :=
  match contents with
  | YNone => YScalar (VOther "null")
  | node => node
  end.

(** [snapshot.createPair(key, value)] for a string [key]. *)
Definition createPair (key : string) (value : YNode) : YNode :=
  YPair (YScalar (VString key)) (createNode value).

Definition unavailable : string := "<could not take iframe snapshot>".

(** Lines 535-537: the reference of an iframe placeholder, when the scalar
    starts with "iframe " and carries a non-empty reference. *)
Definition iframeRef (value : string) : option string :=
  if Js.startsWith value "iframe " then
    match matchRef value with
    | Some EmptyString => None
    | Some ref => Some ref
    | None => None
    end
  else None.

Definition ariaRef (ref : string) : string := "aria-ref=" +:+ ref.

(** ** The frame snapshot builder, [PageSnapshot._snapshotFrame]

    [visit] is an [async] function: a call runs synchronously up to its first
    [await].  [node.items.map(visit)] and the two calls under [Promise.all]
    for a pair therefore start the visit of every child before any awaited
    result arrives, and the only [await] that waits for the driver is the one
    on [ariaSnapshot] at the head of [_snapshotFrame], after the push onto
    [_frameLocators].  A [Task] is the promise a call of [visit] returns. *)
Inductive Task : Type :=
| Settled (node : YNode)
    (** fulfilled with the node [visit] returns *)
| PairAll (key value : Task)
    (** [Promise.all] over the visits of a pair's key and value *)
| SeqAll (items : list Task)
    (** [Promise.all(node.items.map(visit))] of a sequence *)
| MapAll (items : list Task)
    (** the same, of a map *)
| Request (key : string) (frameIndex : nat) (frame : Frame)
    (** in the [try] block, inside [_snapshotFrame(frame)]: the frame has been
        pushed at [frameIndex] and its [ariaSnapshot] is outstanding *)
| Nested (key : string) (kept : option YNode) (body : Task).
    (** in the [try] block, inside [_snapshotFrame]: the child's text has
        arrived and [visit(snapshot.contents)] is under way *)

(** The synchronous part of [visit(node)] for the frame [frame] of index
    [frameIndex]: the promise it returns and [_frameLocators] afterwards. *)
Fixpoint visit (frame : Frame) (frameIndex : nat) (node : YNode)
    (frameLocators : list Frame) : Task * list Frame :=
  let visitItems :=
    fix visitItems (items : list YNode) (frameLocators : list Frame)
        : list Task * list Frame :=
      match items with
      | [] => ([], frameLocators)
      | item :: rest =>
          let (t, frameLocators) := visit frame frameIndex item frameLocators in
          let (ts, frameLocators) := visitItems rest frameLocators in
          (t :: ts, frameLocators)
      end in
  match node with
  | YPair key value =>
      let (k, frameLocators) := visit frame frameIndex key frameLocators in
      let (v, frameLocators) := visit frame frameIndex value frameLocators in
      (PairAll k v, frameLocators)
  | YSeq items =>
      let (ts, frameLocators) := visitItems items frameLocators in
      (SeqAll ts, frameLocators)
  | YMap items =>
      let (ts, frameLocators) := visitItems items frameLocators in
      (MapAll ts, frameLocators)
  | YScalar (VString value) =>
      let value' := rewriteRef frameIndex value in
      match iframeRef value with
      | Some ref =>
          let child := frameLocator frame (ariaRef ref) in
          (Request value' (length frameLocators) child, frameLocators ++ [child])
      | None => (Settled (YScalar (VString value')), frameLocators)
      end
  | YScalar (VOther _) => (Settled node, frameLocators)
  | YNone => (Settled node, frameLocators)
  end.

(** [_snapshotFrame] ends with [await visit(snapshot.contents); return
    snapshot]: the node [visit] returns for the contents is dropped.  A
    scalar at the top is mutated in place and stays the contents; pairs and
    collections are mutated in place too, so the contents is what [visit]
    returns for them. *)
Definition keptContents (frameIndex : nat) (contents : YNode) : option YNode :=
  match contents with
  | YScalar (VString value) => Some (YScalar (VString (rewriteRef frameIndex value)))
  | _ => None
  end.

Definition contentsOf (kept : option YNode) (visited : YNode) : YNode :=
  match kept with
  | Some node => node
  | None => visited
  end.

(** The driver settles the [ariaSnapshot] of the frame pushed at [index]:
    the continuation of that [_snapshotFrame] call runs, up to the next
    awaits.  [None] when no such request is outstanding in [t]. *)
Fixpoint settle (index : nat) (t : Task) (frameLocators : list Frame)
    : option (Task * list Frame) :=
  let settleItems :=
    fix settleItems (items : list Task) : option (list Task * list Frame) :=
      match items with
      | [] => None
      | item :: rest =>
          match settle index item frameLocators with
          | Some (item', fl) => Some (item' :: rest, fl)
          | None =>
              match settleItems rest with
              | Some (rest', fl) => Some (item :: rest', fl)
              | None => None
              end
          end
      end in
  match t with
  | Settled _ => None
  | PairAll k v =>
      match settle index k frameLocators with
      | Some (k', fl) => Some (PairAll k' v, fl)
      | None =>
          match settle index v frameLocators with
          | Some (v', fl) => Some (PairAll k v', fl)
          | None => None
          end
      end
  | SeqAll items =>
      match settleItems items with
      | Some (items', fl) => Some (SeqAll items', fl)
      | None => None
      end
  | MapAll items =>
      match settleItems items with
      | Some (items', fl) => Some (MapAll items', fl)
      | None => None
      end
  | Request key frameIndex frame =>
      if Nat.eqb frameIndex index then
        match ariaSnapshot frame with
        | Err _ => Some (Settled (createPair key (YScalar (VString unavailable))), frameLocators)
        | Ok contents =>
            let (body, fl) := visit frame frameIndex contents frameLocators in
            Some (Nested key (keptContents frameIndex contents) body, fl)
        end
      else None
  | Nested key kept body =>
      match settle index body frameLocators with
      | Some (body', fl) => Some (Nested key kept body', fl)
      | None => None
      end
  end.

(** The node a promise is fulfilled with once nothing is outstanding under
    it. *)
Fixpoint fulfilled (t : Task) : option YNode :=
  let fulfilledItems :=
    fix fulfilledItems (items : list Task) : option (list YNode) :=
      match items with
      | [] => Some []
      | item :: rest =>
          match fulfilled item, fulfilledItems rest with
          | Some n, Some ns => Some (n :: ns)
          | _, _ => None
          end
      end in
  match t with
  | Settled node => Some node
  | PairAll k v =>
      match fulfilled k, fulfilled v with
      | Some k', Some v' => Some (YPair k' v')
      | _, _ => None
      end
  | SeqAll items => option_map YSeq (fulfilledItems items)
  | MapAll items => option_map YMap (fulfilledItems items)
  | Request _ _ _ => None
  | Nested key kept body =>
      option_map (fun n => createPair key (contentsOf kept n)) (fulfilled body)
  end.

(** One call [this._snapshotFrame(frame)] that is not under a [try]: the
    call [_build] makes for the page. *)
Inductive Call : Type :=
| Awaiting (frameIndex : nat) (frame : Frame)
| Visiting (kept : option YNode) (body : Task)
| Thrown (message : string).

Record Capture : Type := {
  frameLocators : list Frame;
  call : Call;
}.

(** Line 518 and the call of [ariaSnapshot] of line 519. *)
Definition enter (frameLocators0 : list Frame) (frame : Frame) : Capture :=
  {| frameLocators := frameLocators0 ++ [frame];
     call := Awaiting (length frameLocators0) frame |}.

Definition step (index : nat) (c : Capture) : option Capture :=
  match call c with
  | Awaiting frameIndex frame =>
      if Nat.eqb frameIndex index then
        match ariaSnapshot frame with
        | Err message =>
            Some {| frameLocators := frameLocators c; call := Thrown message |}
        | Ok contents =>
            let (body, fl) := visit frame frameIndex contents (frameLocators c) in
            Some {| frameLocators := fl;
                    call := Visiting (keptContents frameIndex contents) body |}
        end
      else None
  | Visiting kept body =>
      match settle index body (frameLocators c) with
      | Some (body', fl) =>
          Some {| frameLocators := fl; call := Visiting kept body' |}
      | None => None
      end
  | Thrown _ => None
  end.

(** [order] lists the frame indices in the order in which the driver settles
    their [ariaSnapshot] requests. *)
Fixpoint steps (order : list nat) (c : Capture) : option Capture :=
  match order with
  | [] => Some c
  | index :: rest =>
      match step index c with
      | Some c' => steps rest c'
      | None => None
      end
  end.

(** What the call has returned or thrown, once it has. *)
Definition outcome (c : Capture) : option (Result YNode) :=
  match call c with
  | Awaiting _ _ => None
  | Visiting kept body => option_map (fun n => Ok (contentsOf kept n)) (fulfilled body)
  | Thrown message => Some (Err message)
  end.

(** [_snapshotFrame(frame)] called with [_frameLocators = frameLocators0],
    the driver answering in the order [order]: the document returned (or the
    error thrown) and [_frameLocators] at that point.  [None] when [order] is
    not a complete run of the call. *)
Definition _snapshotFrame (frameLocators0 : list Frame) (frame : Frame)
    (order : list nat) : option (Result YNode * list Frame) :=
  match steps order (enter frameLocators0 frame) with
  | Some c =>
      match outcome c with
      | Some r => Some (r, frameLocators c)
      | None => None
      end
  | None => None
  end.

(** The snapshot a tab holds.  [_text] is the [yaml] rendering of
    [document] between fences; the rendering is the library's. *)
Record PageSnapshot : Type := {
  _frameLocators : list Frame;
  document : YNode;
}.

(** [PageSnapshot.create(page)]. *)
Definition create (page : Frame) (order : list nat)
    : option (Result PageSnapshot) :=
  match _snapshotFrame [] page order with
  | Some (Ok doc, fl) => Some (Ok {| _frameLocators := fl; document := doc |})
  | Some (Err message, _) => Some (Err message)
  | None => None
  end.

(** ** Refinement vocabulary for the builder *)

(** The iframe placeholders of a document, in the order [visit] meets them:
    a pair's key before its value, the items of a collection in order. *)
Fixpoint iframeRefs (node : YNode) : list string :=
  match node with
  | YScalar (VString value) =>
      match iframeRef value with
      | Some ref => [ref]
      | None => []
      end
  | YScalar (VOther _) => []
  | YPair key value => iframeRefs key ++ iframeRefs value
  | YSeq items => concat (map iframeRefs items)
  | YMap items => concat (map iframeRefs items)
  | YNone => []
  end.

Definition refsOf (frame : Frame) : list string :=
  match frame with
  | Unreachable _ => []
  | Reachable body _ => iframeRefs body
  end.

(** The frames a frame leads to, numbered from [base] on. *)
Fixpoint children (frame : Frame) (base : nat) (refs : list string)
    : list (nat * Frame) :=
  match refs with
  | [] => []
  | ref :: rest =>
      (base, frameLocator frame (ariaRef ref)) :: children frame (S base) rest
  end.

Definition discovered (frame : Frame) (base : nat) : list (nat * Frame) :=
  children frame base (refsOf frame).

(** The number of iframes nested in a frame, at any depth, that a capture
    comes across. *)
Fixpoint nestedCount (frame : Frame) : nat :=
  match frame with
  | Unreachable _ => 0
  | Reachable body sub =>
      list_sum (map (fun ref => S (nestedCount (sub (ariaRef ref)))) (iframeRefs body))
  end.

(** Every frame of the tree can be captured. *)
Fixpoint allReachable (frame : Frame) : Prop :=
  match frame with
  | Unreachable _ => False
  | Reachable body sub =>
      Forall (fun ref => allReachable (sub (ariaRef ref))) (iframeRefs body)
  end.

(** Depth-first discovery order, in the words of the specification: a frame,
    then for each of its iframes in turn that iframe's whole subtree. *)
Fixpoint depthFirst (frame : Frame) : list Frame :=
  frame ::
  match frame with
  | Unreachable _ => []
  | Reachable body sub =>
      concat (map (fun ref => depthFirst (sub (ariaRef ref))) (iframeRefs body))
  end.

(** The outstanding [ariaSnapshot] requests under a promise, left to right. *)
Fixpoint waiting (t : Task) : list (nat * Frame) :=
  match t with
  | Settled _ => []
  | PairAll k v => waiting k ++ waiting v
  | SeqAll items => concat (map waiting items)
  | MapAll items => concat (map waiting items)
  | Request _ frameIndex frame => [(frameIndex, frame)]
  | Nested _ _ body => waiting body
  end.

Definition pending (c : Capture) : list (nat * Frame) :=
  match call c with
  | Awaiting frameIndex frame => [(frameIndex, frame)]
  | Visiting _ body => waiting body
  | Thrown _ => []
  end.

(** Positions in a document. *)
Inductive Turn : Type :=
| ToKey
| ToValue
| ToItem (i : nat).

Fixpoint nodeAt (path : list Turn) (node : YNode) : option YNode :=
  match path with
  | [] => Some node
  | turn :: rest =>
      match turn, node with
      | ToKey, YPair key _ => nodeAt rest key
      | ToValue, YPair _ value => nodeAt rest value
      | ToItem i, YSeq items =>
          match nth_error items i with
          | Some item => nodeAt rest item
          | None => None
          end
      | ToItem i, YMap items =>
          match nth_error items i with
          | Some item => nodeAt rest item
          | None => None
          end
      | _, _ => None
      end
  end.

Fixpoint taskAt (path : list Turn) (t : Task) : option Task :=
  match path with
  | [] => Some t
  | turn :: rest =>
      match turn, t with
      | ToKey, PairAll key _ => taskAt rest key
      | ToValue, PairAll _ value => taskAt rest value
      | ToItem i, SeqAll items =>
          match nth_error items i with
          | Some item => taskAt rest item
          | None => None
          end
      | ToItem i, MapAll items =>
          match nth_error items i with
          | Some item => taskAt rest item
          | None => None
          end
      | _, _ => None
      end
  end.

(** Induction over documents and promises, through their lists. *)
Section Induction.

Variable P : YNode -> Prop.
Hypothesis onScalar : forall v, P (YScalar v).
Hypothesis onPair : forall k v, P k -> P v -> P (YPair k v).
Hypothesis onSeq : forall items, Forall P items -> P (YSeq items).
Hypothesis onMap : forall items, Forall P items -> P (YMap items).
Hypothesis onNone : P YNone.

Fixpoint YNode_induction (node : YNode) : P node :=
  match node with
  | YScalar v => onScalar v
  | YPair k v => onPair k v (YNode_induction k) (YNode_induction v)
  | YSeq items =>
      onSeq items
        ((fix all (l : list YNode) : Forall P l :=
            match l with
            | [] => ListDef.Forall_nil _
            | x :: l' => ListDef.Forall_cons _ x l' (YNode_induction x) (all l')
            end) items)
  | YMap items =>
      onMap items
        ((fix all (l : list YNode) : Forall P l :=
            match l with
            | [] => ListDef.Forall_nil _
            | x :: l' => ListDef.Forall_cons _ x l' (YNode_induction x) (all l')
            end) items)
  | YNone => onNone
  end.

Variable Q : Task -> Prop.
Hypothesis onSettled : forall n, Q (Settled n).
Hypothesis onPairAll : forall k v, Q k -> Q v -> Q (PairAll k v).
Hypothesis onSeqAll : forall items, Forall Q items -> Q (SeqAll items).
Hypothesis onMapAll : forall items, Forall Q items -> Q (MapAll items).
Hypothesis onRequest : forall key i frame, Q (Request key i frame).
Hypothesis onNested : forall key kept body, Q body -> Q (Nested key kept body).

Fixpoint Task_induction (t : Task) : Q t :=
  match t with
  | Settled n => onSettled n
  | PairAll k v => onPairAll k v (Task_induction k) (Task_induction v)
  | SeqAll items =>
      onSeqAll items
        ((fix all (l : list Task) : Forall Q l :=
            match l with
            | [] => ListDef.Forall_nil _
            | x :: l' => ListDef.Forall_cons _ x l' (Task_induction x) (all l')
            end) items)
  | MapAll items =>
      onMapAll items
        ((fix all (l : list Task) : Forall Q l :=
            match l with
            | [] => ListDef.Forall_nil _
            | x :: l' => ListDef.Forall_cons _ x l' (Task_induction x) (all l')
            end) items)
  | Request key i frame => onRequest key i frame
  | Nested key kept body => onNested key kept body (Task_induction body)
  end.

End Induction.

(** The item loops of [visit], [settle] and [fulfilled] by name. *)
Definition visitItems (frame : Frame) (frameIndex : nat) :=
  fix visitItems (items : list YNode) (frameLocators : list Frame)
      : list Task * list Frame :=
    match items with
    | [] => ([], frameLocators)
    | item :: rest =>
        let (t, frameLocators) := visit frame frameIndex item frameLocators in
        let (ts, frameLocators) := visitItems rest frameLocators in
        (t :: ts, frameLocators)
    end.

Definition settleItems (index : nat) (frameLocators : list Frame) :=
  fix settleItems (items : list Task) : option (list Task * list Frame) :=
    match items with
    | [] => None
    | item :: rest =>
        match settle index item frameLocators with
        | Some (item', fl) => Some (item' :: rest, fl)
        | None =>
            match settleItems rest with
            | Some (rest', fl) => Some (item :: rest', fl)
            | None => None
            end
        end
    end.

Definition fulfilledItems :=
  fix fulfilledItems (items : list Task) : option (list YNode) :=
    match items with
    | [] => Some []
    | item :: rest =>
        match fulfilled item, fulfilledItems rest with
        | Some n, Some ns => Some (n :: ns)
        | _, _ => None
        end
    end.

(** ** Reference resolution, [PageSnapshot.refLocator] *)

(** A locator: the frame it searches and its selector. *)
Record Locator : Type := {
  locatorFrame : Frame;
  selector : string;
}.

Definition frameDoesNotExist : string :=
  "Frame does not exist. Provide ref from the most current snapshot.".

(** Lines 555-568.  The frames of [_frameLocators] are objects, so [!frame]
    holds exactly when the index is past the end of the array. *)
Definition refLocator (snapshot : PageSnapshot) (ref : string) : Result Locator :=
  let (frameIndex, ref) := decodeRef ref in
  match _frameLocators snapshot !! frameIndex with
  | None => Err frameDoesNotExist
  | Some frame => Ok {| locatorFrame := frame; selector := ariaRef ref |}
  end.

(** ** Measures and invariants of a capture *)

(** The iframes still to be discovered under the outstanding requests. *)
Definition load (l : list (nat * Frame)) : nat :=
  list_sum (map (fun p => nestedCount (snd p)) l).

Definition rank (l : list (nat * Frame)) : nat := length l + load l.

(** The iframes of the frame at [index] sit together in [frameLocators], in
    document order, after the frame itself. *)
Definition Placed (frameLocators : list Frame) (index : nat) (frame : Frame)
    : Prop :=
  exists base,
    index < base /\
    forall k ref,
      refsOf frame !! k = Some ref ->
      frameLocators !! (base + k) = Some (frameLocator frame (ariaRef ref)).

Definition Tracked (first : nat) (c : Capture) : Prop :=
  (forall i f, In (i, f) (pending c) -> frameLocators c !! i = Some f) /\
  (forall i f,
     first <= i -> frameLocators c !! i = Some f ->
     In (i, f) (pending c) \/ Placed (frameLocators c) i f).

(** What stands for an iframe whose snapshot cannot be taken: its request
    while outstanding, the pair of the [catch] block afterwards. *)
Definition Placeholder (key : string) (t : Task) : Prop :=
  (exists index message, t = Request key index (Unreachable message)) \/
  t = Settled (createPair key (YScalar (VString unavailable))).

(** The frames still to come from a frame: those nested in it, depth-first. *)
Definition below (frame : Frame) : list Frame :=
  match frame with
  | Unreachable _ => []
  | Reachable body sub =>
      concat (map (fun ref => depthFirst (sub (ariaRef ref))) (iframeRefs body))
  end.

Definition owed (l : list (nat * Frame)) : list Frame :=
  concat (map (fun p => below (snd p)) l).

(** ** Conditions on frame-local ids *)

Definition startsWithDigit (s : string) : bool :=
  match s with
  | String c _ => Js.isDigit c
  | EmptyString => false
  end.

(** The string reads as "f", a digit, and the rest. *)
Definition looksPrefixed (s : string) : bool :=
  match s with
  | String c rest => Ascii.eqb c "f" && startsWithDigit rest
  | EmptyString => false
  end.

(** ** Sample pages *)

Module Pages.

Definition noFrame : string -> Frame :=
  fun _ => Unreachable "frame not found".

Definition leaf (label : string) : Frame :=
  Reachable (YSeq [YScalar (VString label)]) noFrame.

Definition inner : Frame := leaf "heading [ref=e1]".

Definition second : Frame := leaf "button [ref=e1]".

Definition first : Frame :=
  Reachable (YSeq [YScalar (VString "iframe [ref=e1]")])
    (fun selector =>
       if String.eqb selector "aria-ref=e1" then inner
       else Unreachable "frame not found").

(** Two sibling iframes, the first of which holds a third. *)
Definition page : Frame :=
  Reachable
    (YSeq [YScalar (VString "iframe [ref=e1]");
           YScalar (VString "iframe [ref=e2]")])
    (fun selector =>
       if String.eqb selector "aria-ref=e1" then first
       else if String.eqb selector "aria-ref=e2" then second
       else Unreachable "frame not found").

(** An iframe that cannot be captured next to one that can. *)
Definition broken : Frame :=
  Reachable
    (YSeq [YScalar (VString "iframe [ref=e1]");
           YScalar (VString "iframe [ref=e2]")])
    (fun selector =>
       if String.eqb selector "aria-ref=e1" then Unreachable "frame was detached"
       else if String.eqb selector "aria-ref=e2" then second
       else Unreachable "frame not found").

(** A link whose accessible name itself reads as a reference marker, as the
    driver prints it: the name between quotes, then the node's reference. *)
Definition spoofedLink : string :=
  "link " +:+ Js.doubleQuote +:+ "[ref=home]" +:+ Js.doubleQuote +:+ " [ref=e2]".

Definition spoofed : Frame :=
  Reachable (YSeq [YScalar (VString "iframe [ref=e1]")])
    (fun selector =>
       if String.eqb selector "aria-ref=e1" then leaf spoofedLink
       else Unreachable "frame not found").

End Pages.

(** ** The session: [Context] and its tabs

    A [Tab] object is known by its identity, a number; the fields of the
    object that matter here ([_snapshot]) are kept per identity in the
    session state.  The members of [_modalStates] are objects made by
    [setModalState]; a caller that holds one holds the object at some
    position of the array. *)

Definition Tab : Type := nat.

Inductive ModalType : Type :=
| dialog
| fileChooser.

Definition ModalType_eqb (a b : ModalType) : bool :=
  match a, b with
  | dialog, dialog => true
  | fileChooser, fileChooser => true
  | _, _ => false
  end.

(** [ModalState & { tab: Tab }]. *)
Record ModalState : Type := {
  type : ModalType;
  description : string;
  tab : Tab;
}.

Record Tool : Type := {
  schemaName : string;
  clearsModalState : option ModalType;
}.

Inductive Content : Type :=
| TextContent (text : string)
| ImageContent (data mimeType : string).

Record Response : Type := {
  content : list Content;
}.

(** [_pendingAction] is [Some resolved], [resolved] telling whether its
    [dialogShown] promise has been resolved. *)
Record Context : Type := {
  _tabs : list Tab;
  _currentTab : option Tab;
  _modalStates : list ModalState;
  _pendingAction : option bool;
  _browserContext : bool;
  _snapshot : gmap Tab PageSnapshot;
}.

Definition withModalStates (states : list ModalState) (c : Context) : Context :=
  {| _tabs := _tabs c; _currentTab := _currentTab c; _modalStates := states;
     _pendingAction := _pendingAction c; _browserContext := _browserContext c;
     _snapshot := _snapshot c |}.

Definition withPendingAction (pendingAction : option bool) (c : Context) : Context :=
  {| _tabs := _tabs c; _currentTab := _currentTab c;
     _modalStates := _modalStates c; _pendingAction := pendingAction;
     _browserContext := _browserContext c; _snapshot := _snapshot c |}.

Definition withSnapshot (snapshots : gmap Tab PageSnapshot) (c : Context) : Context :=
  {| _tabs := _tabs c; _currentTab := _currentTab c;
     _modalStates := _modalStates c; _pendingAction := _pendingAction c;
     _browserContext := _browserContext c; _snapshot := snapshots |}.

(** [array[i]] for an integer [i]. *)
Definition at_ {A : Type} (l : list A) (i : Z) : option A :=
  if Z.ltb i 0 then None else l !! Z.to_nat i.

(** [array.indexOf(x)]. *)
Fixpoint indexOf (x : Tab) (l : list Tab) : option nat :=
  match l with
  | [] => None
  | y :: rest =>
      if Nat.eqb y x then Some 0 else option_map S (indexOf x rest)
  end.

(** Lines 65-75. *)
Definition modalStates (c : Context) : list ModalState := _modalStates c.

Definition setModalState (modalType : ModalType) (text : string) (inTab : Tab)
    (c : Context) : Context :=
  withModalStates
    (_modalStates c ++ [{| type := modalType; description := text; tab := inTab |}])
    c.

Definition clearModalState (position : nat) (c : Context) : Context :=
  withModalStates (delete position (_modalStates c)) c.

(** Lines 77-84. *)
Definition toolFor (tools : list Tool) (state : ModalState) : string :=
  match List.find
          (fun tool =>
             match clearsModalState tool with
             | Some t => ModalType_eqb t (type state)
             | None => false
             end) tools with
  | Some tool => schemaName tool
  | None => "undefined"
  end.

Definition modalStatesMarkdown (tools : list Tool) (c : Context) : list string :=
  "### Modal state" ::
  List.map
    (fun state =>
       "- [" +:+ description state +:+ "]: can be handled by the " +:+
       Js.doubleQuote +:+ toolFor tools state +:+ Js.doubleQuote +:+ " tool")
    (_modalStates c).

(** Lines 90-94. *)
Definition currentTabOrDie (c : Context) : Result Tab :=
  match _currentTab c with
  | Some t => Ok t
  | None =>
      Err "No current snapshot available. Capture a snapshot of navigate to a new location first."
  end.

(** Lines 234-236. *)
Definition _javaScriptBlocked (c : Context) : bool :=
  existsb (fun state => ModalType_eqb (type state) dialog) (_modalStates c).

(** Lines 238-245. *)
Definition dialogShown (t : Tab) (dialogType message : string) (c : Context)
    : Context :=
  let c :=
    setModalState dialog
      (Js.doubleQuote +:+ dialogType +:+ Js.doubleQuote +:+
       " dialog with message " +:+ Js.doubleQuote +:+ message +:+ Js.doubleQuote)
      t c in
  withPendingAction (option_map (fun _ => true) (_pendingAction c)) c.

(** Lines 247-252. *)
Definition _onPageCreated (t : Tab) (c : Context) : Context :=
  {| _tabs := _tabs c ++ [t];
     _currentTab := match _currentTab c with
                    | Some current => Some current
                    | None => Some t
                    end;
     _modalStates := _modalStates c; _pendingAction := _pendingAction c;
     _browserContext := _browserContext c; _snapshot := _snapshot c |}.

(** Lines 254-265; [close] of lines 267-278 drops the browser context. *)
Definition _onPageClosed (t : Tab) (c : Context) : Context :=
  let states :=
    List.filter (fun state => negb (Nat.eqb (tab state) t)) (_modalStates c) in
  match indexOf t (_tabs c) with
  | None => withModalStates states c
  | Some index =>
      let tabs := delete index (_tabs c) in
      {| _tabs := tabs;
         _currentTab :=
           match _currentTab c with
           | Some current =>
               if Nat.eqb current t
               then at_ tabs (Z.min (Z.of_nat index) (Z.of_nat (length tabs) - 1))
               else Some current
           | None => None
           end;
         _modalStates := states;
         _pendingAction := _pendingAction c;
         _browserContext :=
           if _browserContext c && Nat.eqb (length tabs) 0 then false
           else _browserContext c;
         _snapshot := _snapshot c |}
  end.

(** Lines 412-420. *)
Definition hasSnapshot (c : Context) (t : Tab) : bool :=
  match _snapshot c !! t with
  | Some _ => true
  | None => false
  end.

Definition snapshotOrDie (c : Context) (t : Tab) : Result PageSnapshot :=
  match _snapshot c !! t with
  | Some snapshot => Ok snapshot
  | None => Err "No snapshot available"
  end.

(** Modelled from the spec: the [resolve] operation of section 4.3, which the
    tools (they are not under src/) perform as
    [tab.snapshotOrDie().refLocator(ref)]. *)
Definition resolve (c : Context) (t : Tab) (ref : string) : Result Locator :=
  match snapshotOrDie c t with
  | Ok snapshot => refLocator snapshot ref
  | Err message => Err message
  end.

(** Lines 210-215: the wait [waitForTimeout] performs. *)
Inductive Wait : Type :=
| InPage (t : Tab) (milliseconds : Z)
    (** [page.evaluate] of a promise on [setTimeout] in the page *)
| Timer (milliseconds : Z).
    (** a promise on [setTimeout] in the server *)

Definition waitForTimeout (c : Context) (time : Z) : Wait :=
  match _currentTab c with
  | Some t => if negb (_javaScriptBlocked c) then InPage t 1000 else Timer time
  | None => Timer time
  end.

(** *** What happens between two awaits

    The handlers of page events, and the calls an action makes on the
    session. *)
Inductive Event : Type :=
| DialogOpened (t : Tab) (dialogType message : string)
    (** [page.on('dialog')] of the tab: [context.dialogShown] *)
| FileChooserOpened (t : Tab)
    (** [page.on('filechooser')] of the tab: [context.setModalState] *)
| PageClosed (t : Tab)
    (** [page.on('close')] of the tab: [_onClose], then [_onPageClosed] *)
| PageCreated (t : Tab)
    (** [browserContext.on('page')]: [_onPageCreated] with the new tab *)
| ModalCleared (position : nat).
    (** [context.clearModalState] with the state held at [position] *)

Definition handle (e : Event) (c : Context) : Context :=
  match e with
  | DialogOpened t dialogType message => dialogShown t dialogType message c
  | FileChooserOpened t => setModalState fileChooser "File chooser" t c
  | PageClosed t => _onPageClosed t c
  | PageCreated t => _onPageCreated t c
  | ModalCleared position => clearModalState position c
  end.

Definition deliver (events : list Event) (c : Context) : Context :=
  fold_left (fun c e => handle e c) events c.
Arguments deliver : simpl never.

(** *** The tool runner, [Context.run] *)

(** The action of a tool result as it unfolds in one run: what happens in the
    session while it is in flight, and how it settles if nothing cuts it
    short.  [None] for a result without content. *)
Record Action : Type := {
  during : list Event;
  settles : Result (option (list Content));
}.

Record ToolResult : Type := {
  code : list string;
  action : option Action;
  waitForNetwork : bool;
  captureSnapshot : bool;
  resultOverride : option Response;
}.

(** What the driver and the page do around one run. *)
Record Surroundings : Type := {
  network : list Event;
    (** while [waitForCompletion] waits after its callback *)
  capturing : list Event;
    (** while [captureSnapshot] awaits [PageSnapshot.create] *)
  created : Result PageSnapshot;
    (** what [PageSnapshot.create(tab.page)] settles with *)
  listing : list Event;
    (** while [listTabsMarkdown] awaits the titles of the tabs; handled here
        once the list has been put together *)
  titling : list Event;
    (** while the runner awaits the title of its tab *)
  title : Tab -> string;
  url : Tab -> string;
  snapshotText : PageSnapshot -> string;
    (** [PageSnapshot.text], the rendering of the [yaml] library *)
}.

(** The order of the runner's dealings with the action and the snapshot. *)
Inductive Moment : Type :=
| ActionCalled
| ActionSettled (fulfilled : bool)
| DialogWon
| SnapshotCaptured (t : Tab).

Definition isOk {A : Type} (r : Result A) : bool :=
  match r with
  | Ok _ => true
  | Err _ => false
  end.

Definition dialogSignalled (c : Context) : bool :=
  match _pendingAction c with
  | Some resolved => resolved
  | None => false
  end.

(** [Promise.race] of lines 224-227: the events of the action are handled
    one by one; the first that resolves [dialogShown] ends the race with
    [result] still undefined, otherwise the action settles. *)
Fixpoint race (events : list Event) (settled : Result (option (list Content)))
    (c : Context) : Context * Result (option (list Content)) * Moment :=
  match events with
  | [] => (c, settled, ActionSettled (isOk settled))
  | e :: rest =>
      let c := handle e c in
      if dialogSignalled c then (c, Ok None, DialogWon)
      else race rest settled c
  end.

(** Lines 217-232. *)
Definition _raceAgainstModalDialogs (a : Action) (c : Context)
    : Context * Result (option (list Content)) * list Moment :=
  let c := withPendingAction (Some false) c in
  let '(c, result, moment) := race (during a) (settles a) c in
  (withPendingAction None c, result, [ActionCalled; moment]).

(** [racingAction?.()]. *)
Definition racingAction (tr : ToolResult) (c : Context)
    : Context * Result (option (list Content)) * list Moment :=
  match action tr with
  | Some a => _raceAgainstModalDialogs a c
  | None => (c, Ok None, [])
  end.

(** Modelled from the spec: [waitForCompletion] of [tools/utils] is not under
    src/.  By section 4.5 it wraps the action so that completion also waits
    for the page's network to go quiet: the callback runs, and once it has
    returned the wait goes on while the session keeps handling events. *)
Definition waitForCompletion (env : Surroundings)
    (callback : Context -> Context * Result (option (list Content)) * list Moment)
    (c : Context) : Context * Result (option (list Content)) * list Moment :=
  let '(c, result, moments) := callback c in
  match result with
  | Ok _ => (deliver (network env) c, result, moments)
  | Err _ => (c, result, moments)
  end.

(** Lines 430-432, [Tab.captureSnapshot]. *)
Definition Tab_captureSnapshot (env : Surroundings) (t : Tab) (c : Context)
    : Context * Result unit :=
  let c := deliver (capturing env) c in
  match created env with
  | Ok snapshot => (withSnapshot (<[t := snapshot]> (_snapshot c)) c, Ok tt)
  | Err message => (c, Err message)
  end.

(** Lines 115-127. *)
Definition listTabsMarkdown (env : Surroundings) (c : Context) : string :=
  match _tabs c with
  | [] => "### No tabs open"
  | _ =>
      Js.joinLines
        ("### Open tabs" ::
         imap
           (fun i t =>
              "- " +:+ Js.numberToString (i + 1) +:+ ":" +:+
              (if match _currentTab c with
                  | Some current => Nat.eqb t current
                  | None => false
                  end
               then " (current)" else "") +:+
              " [" +:+ title env t +:+ "] (" +:+ url env t +:+ ")")
           (_tabs c))
  end.

Definition noOpenPages : Response :=
  {| content :=
       [TextContent
          ("No open pages available. Use the " +:+ Js.doubleQuote +:+
           "browser_navigate" +:+ Js.doubleQuote +:+
           " tool to navigate to a page first.")] |}.

Definition transcript (lines : list string) : string :=
  "- Ran Playwright code:" +:+ Js.newline +:+ "```js" +:+ Js.newline +:+
  Js.joinLines lines +:+ Js.newline +:+ "```" +:+ Js.newline.

(** Lines 153-164: the action, then the [finally] block. *)
Definition runAction (env : Surroundings) (tr : ToolResult) (c : Context)
    : Context * Result (option (list Content)) * list Moment :=
  if waitForNetwork tr then waitForCompletion env (racingAction tr) c
  else racingAction tr c.

Definition runFinally (env : Surroundings) (tr : ToolResult) (t : Tab)
    (c : Context) : Context * Result unit * list Moment :=
  if captureSnapshot tr && negb (_javaScriptBlocked c) then
    let (c, captured) := Tab_captureSnapshot env t c in
    (c, captured, [SnapshotCaptured t])
  else (c, Ok tt, []).

(** Lines 166-207: the response. *)
Definition respond (tools : list Tool) (env : Surroundings) (tr : ToolResult)
    (t : Tab) (actionResult : option (list Content)) (c : Context)
    : Context * Response :=
  let result := [transcript (code tr)] in
  match modalStates c with
  | _ :: _ =>
      (c, {| content :=
               [TextContent (Js.joinLines (result ++ modalStatesMarkdown tools c))] |})
  | [] =>
      let '(c, result) :=
        if Nat.ltb 1 (length (_tabs c))
        then (deliver (listing env) c, result ++ [listTabsMarkdown env c; ""])
        else (c, result) in
      let result :=
        if Nat.ltb 1 (length (_tabs c)) then result ++ ["### Current tab"]
        else result in
      let result :=
        result ++ ["- Page URL: " +:+ url env t; "- Page Title: " +:+ title env t] in
      let c := deliver (titling env) c in
      let result :=
        if captureSnapshot tr then
          match _snapshot c !! t with
          | Some snapshot => result ++ [snapshotText env snapshot]
          | None => result
          end
        else result in
      (c, {| content :=
               match actionResult with
               | Some items => items
               | None => []
               end ++ [TextContent (Js.joinLines result)] |})
  end.

(** Lines 135-208, from the result of the tool's handler on. *)
Definition run (tools : list Tool) (env : Surroundings) (tr : ToolResult)
    (c : Context) : Context * Result Response * list Moment :=
  match resultOverride tr with
  | Some response => (c, Ok response, [])
  | None =>
      match _currentTab c with
      | None => (c, Ok noOpenPages, [])
      | Some t =>
          let '(c, actionResult, before) := runAction env tr c in
          let '(c, captured, after) := runFinally env tr t c in
          match captured, actionResult with
          | Err message, _ => (c, Err message, before ++ after)
          | Ok _, Err message => (c, Err message, before ++ after)
          | Ok _, Ok items =>
              let (c, response) := respond tools env tr t items c in
              (c, Ok response, before ++ after)
          end
      end
  end.

(** ** Vocabulary for the claims about the session *)

(** Every active modal state belongs to an open tab. *)
Definition ModalStatesOwned (c : Context) : Prop :=
  forall state, In state (_modalStates c) -> In (tab state) (_tabs c).

(** Page events come from pages that are open: a [Tab] listens to its page
    from [_onPageCreated], which lists it, until the page closes. *)
Definition fromOpenTab (e : Event) (c : Context) : Prop :=
  match e with
  | DialogOpened t _ _ => In t (_tabs c)
  | FileChooserOpened t => In t (_tabs c)
  | _ => True
  end.

Fixpoint allFromOpenTabs (events : list Event) (c : Context) : Prop :=
  match events with
  | [] => True
  | e :: rest => fromOpenTab e c /\ allFromOpenTabs rest (handle e c)
  end.

Definition isDialogOpened (e : Event) : bool :=
  match e with
  | DialogOpened _ _ _ => true
  | _ => false
  end.

(** Events that take no modal state away. *)
Definition keepsModalStates (e : Event) : bool :=
  match e with
  | PageClosed _ => false
  | ModalCleared _ => false
  | _ => true
  end.

Definition withoutDialogs (events : list Event) : list Event :=
  List.filter (fun e => negb (isDialogOpened e)) events.

(** The same surroundings but for what happens after the runner has looked
    at the modal states. *)
Definition withLate (listing' titling' : list Event) (env : Surroundings)
    : Surroundings :=
  {| network := network env; capturing := capturing env;
     created := created env; listing := listing'; titling := titling';
     title := title env; url := url env; snapshotText := snapshotText env |}.

(** The parts of what a run yields: the session afterwards, the response
    (or the error thrown), and the order of events. *)
Definition after {A B C : Type} (r : A * B * C) : A := fst (fst r).

Definition response {A B C : Type} (r : A * B * C) : B := snd (fst r).

Definition moments {A B C : Type} (r : A * B * C) : C := snd r.

(** What the tabs, the selection and the snapshots of two sessions share. *)
Definition sameTabs (c c' : Context) : Prop :=
  _tabs c = _tabs c' /\ _currentTab c = _currentTab c' /\
  _snapshot c = _snapshot c' /\ _browserContext c = _browserContext c'.

(** *** Sample sessions *)

Module Sessions.

Definition tools : list Tool :=
  [{| schemaName := "browser_handle_dialog"; clearsModalState := Some dialog |};
   {| schemaName := "browser_file_upload"; clearsModalState := Some fileChooser |}].

Definition snapshot : PageSnapshot :=
  {| _frameLocators := [Pages.inner];
     document := YSeq [YScalar (VString "heading [ref=e1]")] |}.

Definition quiet : Surroundings :=
  {| network := []; capturing := []; created := Ok snapshot;
     listing := []; titling := [];
     title := fun _ => "Example"; url := fun _ => "https://example.com/";
     snapshotText := fun _ => "- Page Snapshot" |}.

(** The second tab shows a dialog while the snapshot of the first is being
    captured. *)
Definition dialogWhileCapturing : Surroundings :=
  {| network := []; capturing := [DialogOpened 2 "alert" "hello"];
     created := Ok snapshot; listing := []; titling := [];
     title := fun _ => "Example"; url := fun _ => "https://example.com/";
     snapshotText := fun _ => "- Page Snapshot" |}.

(** The page shows a dialog while the runner waits for the network. *)
Definition dialogWhileWaiting : Surroundings :=
  {| network := [DialogOpened 1 "alert" "hello"]; capturing := [];
     created := Ok snapshot; listing := []; titling := [];
     title := fun _ => "Example"; url := fun _ => "https://example.com/";
     snapshotText := fun _ => "- Page Snapshot" |}.

(** The tab of the dialog closes while the runner waits for the network. *)
Definition closedWhileWaiting : Surroundings :=
  {| network := [PageClosed 2]; capturing := []; created := Ok snapshot;
     listing := []; titling := [];
     title := fun _ => "Example"; url := fun _ => "https://example.com/";
     snapshotText := fun _ => "- Page Snapshot" |}.

Definition oneTab : Context :=
  {| _tabs := [1]; _currentTab := Some 1; _modalStates := [];
     _pendingAction := None; _browserContext := true; _snapshot := ∅ |}.

Definition twoTabs : Context :=
  {| _tabs := [1; 2]; _currentTab := Some 1; _modalStates := [];
     _pendingAction := None; _browserContext := true; _snapshot := ∅ |}.

Definition threeTabs : Context :=
  {| _tabs := [1; 2; 3]; _currentTab := Some 3; _modalStates := [];
     _pendingAction := None; _browserContext := true; _snapshot := ∅ |}.

Definition blocked : Context :=
  {| _tabs := [1]; _currentTab := Some 1;
     _modalStates := [{| type := dialog; description := "alert"; tab := 1 |}];
     _pendingAction := None; _browserContext := true; _snapshot := ∅ |}.

Definition done : list Content := [TextContent "done"].

(** A click that completes undisturbed. *)
Definition click : ToolResult :=
  {| code := ["await page.click()"];
     action := Some {| during := []; settles := Ok (Some done) |};
     waitForNetwork := false; captureSnapshot := true;
     resultOverride := None |}.

(** The same click in a run that waits for the network. *)
Definition clickAndWait : ToolResult :=
  {| code := ["await page.click()"];
     action := Some {| during := []; settles := Ok (Some done) |};
     waitForNetwork := true; captureSnapshot := true;
     resultOverride := None |}.

(** A click that opens a dialog before it completes. *)
Definition clickOpensDialog : ToolResult :=
  {| code := ["await page.click()"];
     action := Some {| during := [DialogOpened 1 "alert" "hello"];
                       settles := Ok (Some done) |};
     waitForNetwork := false; captureSnapshot := true;
     resultOverride := None |}.

(** A click in the first tab during which the second tab shows a dialog,
    in a run that waits for the network. *)
Definition clickOtherTabDialog : ToolResult :=
  {| code := ["await page.click()"];
     action := Some {| during := [DialogOpened 2 "alert" "hello"];
                       settles := Ok (Some done) |};
     waitForNetwork := true; captureSnapshot := true;
     resultOverride := None |}.

(** A click that throws. *)
Definition clickThrows : ToolResult :=
  {| code := ["await page.click()"];
     action := Some {| during := []; settles := Err "Timeout 5000ms exceeded." |};
     waitForNetwork := false; captureSnapshot := true;
     resultOverride := None |}.

(** A handler that answers by itself and still asks for a snapshot. *)
Definition overridden : ToolResult :=
  {| code := []; action := None; waitForNetwork := false;
     captureSnapshot := true;
     resultOverride := Some {| content := [TextContent "answer"] |} |}.

End Sessions.

(** ** More vocabulary for the builder *)

(** [s.includes(pat)]. *)
Fixpoint includes (s pat : string) : bool :=
  if String.prefix pat s then true
  else match s with
       | EmptyString => false
       | String _ s' => includes s' pat
       end.

(** A document whose string scalars have all gone through lines 533-534 for
    the frame [frameIndex]. *)
Fixpoint prefixed (frameIndex : nat) (node : YNode) : YNode :=
  match node with
  | YScalar (VString value) => YScalar (VString (rewriteRef frameIndex value))
  | YScalar (VOther source) => YScalar (VOther source)
  | YPair key value => YPair (prefixed frameIndex key) (prefixed frameIndex value)
  | YSeq items => YSeq (map (prefixed frameIndex) items)
  | YMap items => YMap (map (prefixed frameIndex) items)
  | YNone => YNone
  end.

(** What stands for an iframe whose nested snapshot comes to [contents]: its
    request while outstanding, afterwards the nested call, which has nothing
    left to wait for. *)
Definition Spliced (key : string) (index : nat) (child : Frame)
    (contents : YNode) (x : Task) : Prop :=
  x = Request key index child \/
  exists kept body node,
    x = Nested key kept body /\ fulfilled body = Some node /\
    contentsOf kept node = contents.

(** The frames answered so far and those still outstanding are the frames
    pushed since [first]. *)
Definition Answered (first : nat) (answered : list nat) (c : Capture) : Prop :=
  first <= length (frameLocators c) /\
  Permutation (answered ++ map fst (pending c))
    (seq first (length (frameLocators c) - first)).

(** ** More of the session: tab management *)

Definition withCurrentTab (current : option Tab) (c : Context) : Context :=
  {| _tabs := _tabs c; _currentTab := current;
     _modalStates := _modalStates c; _pendingAction := _pendingAction c;
     _browserContext := _browserContext c; _snapshot := _snapshot c |}.

Definition withBrowserContext (alive : bool) (c : Context) : Context :=
  {| _tabs := _tabs c; _currentTab := _currentTab c;
     _modalStates := _modalStates c; _pendingAction := _pendingAction c;
     _browserContext := alive; _snapshot := _snapshot c |}.

(** What reading [page] off [undefined] throws. *)
Definition cannotReadPage : string :=
  "Cannot read properties of undefined (reading 'page')".

(** Lines 103-106.  [broughtToFront] is what [page.bringToFront()] of the
    selected tab settles with. *)
Definition selectTab (broughtToFront : Tab -> Result unit) (index : Z)
    (c : Context) : Context * Result unit :=
  let c := withCurrentTab (at_ (_tabs c) (index - 1)) c in
  match _currentTab c with
  | Some t => (c, broughtToFront t)
  | None => (c, Err cannotReadPage)
  end.

(** Lines 129-133.  [page.close()] fires the page's [close] event, which the
    tab hands to [_onPageClosed]; nothing else happens in the session while
    the call and the titles of the list are awaited. *)
Definition closeTab (env : Surroundings) (index : option Z) (c : Context)
    : Context * string :=
  let target :=
    match index with
    | None => _currentTab c
    | Some i => at_ (_tabs c) (i - 1)
    end in
  let c :=
    match target with
    | Some t => handle (PageClosed t) c
    | None => c
    end in
  (c, listTabsMarkdown env c).

(** Lines 267-278: the session lets go of the browser at once; the pages
    report their closing afterwards, one [PageClosed] each. *)
Definition close (c : Context) : Context :=
  if _browserContext c then withBrowserContext false c else c.

(** Lines 280-290.  [launched] is what [_createBrowserContext] settles with:
    the pages the new browser context already shows. *)
Definition _ensureBrowserContext (launched : Result (list Tab)) (c : Context)
    : Context * Result unit :=
  if _browserContext c then (c, Ok tt)
  else
    match launched with
    | Err message => (c, Err message)
    | Ok pages =>
        (deliver (map PageCreated pages) (withBrowserContext true c), Ok tt)
    end.

(** Lines 96-101.  [opened] is what [browserContext.newPage()] settles with;
    the [page] event of the new page is handled before it does. *)
Definition newTab (launched : Result (list Tab)) (opened : Result Tab)
    (c : Context) : Context * Result (option Tab) :=
  match _ensureBrowserContext launched c with
  | (c, Err message) => (c, Err message)
  | (c, Ok _) =>
      match opened with
      | Err message => (c, Err message)
      | Ok page =>
          let c := handle (PageCreated page) c in
          let c := withCurrentTab (List.find (Nat.eqb page) (_tabs c)) c in
          (c, Ok (_currentTab c))
      end
  end.

(** Lines 108-113. *)
Definition ensureTab (launched : Result (list Tab)) (opened : Result Tab)
    (c : Context) : Context * Result (option Tab) :=
  match _ensureBrowserContext launched c with
  | (c, Err message) => (c, Err message)
  | (c, Ok _) =>
      match _currentTab c with
      | Some t => (c, Ok (Some t))
      | None =>
          match opened with
          | Err message => (c, Err message)
          | Ok page =>
              let c := handle (PageCreated page) c in
              (c, Ok (_currentTab c))
          end
      end
  end.

(** The current tab is one of the listed tabs, and there is a current tab
    whenever a tab is listed. *)
Definition CurrentListed (c : Context) : Prop :=
  match _currentTab c with
  | Some t => In t (_tabs c)
  | None => _tabs c = []
  end.

(** [array.filter(x => x !== t)]. *)
Definition without (t : Tab) (tabs : list Tab) : list Tab :=
  List.filter (fun x => negb (Nat.eqb x t)) tabs.

(** ** The tools: scrolling, tracing, video

    The handlers of [tools/video.ts] and of the scroll and trace modules, and
    the methods of [Tab] and [Context] they lean on.  A text outside Latin-1
    is kept as the bytes of its UTF-8 encoding: such texts are only ever put
    together here, never taken apart.  Numbers are whole numbers, which
    print as plain decimal numerals.  The parsing of the parameters against
    a tool's schema is left out: a tool is given parameters of its types.
    So is the file system: the handlers create their directory when it is
    missing, which changes nothing of what is modelled. *)

(** The fields of [ContextOptions] the tools write and
    [_launchPersistentContext] reads; an optional field is [None] while
    undefined. *)
Record ContextOptions : Type := {
  recordVideo : option bool;
  videoDir : option string;
  traceEnabled : option bool;
  traceDir : option string;
  traceName : option string;
  traceScreenshots : option bool;
  traceSnapshots : option bool;
}.

(** [process.cwd()] and [path.join]. *)
Record Host : Type := {
  cwd : string;
  join : string -> string -> string;
}.

(** What the driver does for the action of one tool.  Where a call is made
    under a [try] whose [catch] prints the error, [Err] holds that print,
    the text [`${error}`]. *)
Record Driver : Type := {
  happening : list Event;
    (** what the session handles while the action is in flight *)
  evaluate : Result unit;
    (** [page.evaluate] of a scroll *)
  scrollIntoViewIfNeeded : Locator -> Result unit;
  video : bool;
    (** whether [page.video()] is an object *)
  videoPath : Result string;
    (** [video.path()] *)
  videoSaveAs : string -> Result unit;
  tracingStart : bool -> bool -> Result unit;
    (** [context.tracing.start] with its [screenshots] and [snapshots] *)
  tracingStop : string -> Result unit;
}.

(** [value || fallback] for an optional string: undefined and the empty
    string are falsy. *)
Definition orElse (value : option string) (fallback : string) : string :=
  match value with
  | Some (String c s) => String c s
  | _ => fallback
  end.

(** [value || fallback] for an optional number. *)
Definition orElseZ (value : option Z) (fallback : Z) : Z :=
  match value with
  | Some z => if Z.eqb z 0 then fallback else z
  | None => fallback
  end.

(** The truthiness of an optional boolean, and [value !== false]. *)
Definition truthy (value : option bool) : bool :=
  match value with
  | Some b => b
  | None => false
  end.

Definition notFalse (value : option bool) : bool :=
  match value with
  | Some b => b
  | None => true
  end.

Definition boolToString (b : bool) : string :=
  if b then "true" else "false".

(** [`${z}`] for a whole number. *)
Definition zToString (z : Z) : string :=
  if Z.ltb z 0 then "-" +:+ Js.numberToString (Z.abs_nat z)
  else Js.numberToString (Z.to_nat z).

(** [`${error}`] for an [Error] made with [new Error(message)]. *)
Definition errorToString (message : string) : string := "Error: " +:+ message.

Inductive Behavior : Type :=
| auto_
| smooth.

Definition behaviorToString (b : Behavior) : string :=
  match b with
  | auto_ => "auto"
  | smooth => "smooth"
  end.

Definition orAuto (behavior : option Behavior) : Behavior :=
  match behavior with
  | Some b => b
  | None => auto_
  end.

(** *** Recording and tracing on a tab, lines 434-487 of [context.ts] *)

Definition Tab_getVideoPath (driver : Driver) : Result (option string) :=
  if video driver then
    match videoPath driver with
    | Ok path => Ok (Some path)
    | Err _ => Ok None
    end
  else Ok None.

Definition Tab_saveVideo (driver : Driver) (filePath : string) : Result bool :=
  if video driver then
    match videoSaveAs driver filePath with
    | Ok _ => Ok true
    | Err _ => Ok false
    end
  else Ok false.

Definition Tab_startTracing (driver : Driver) (screenshots snapshots : option bool)
    : Result bool :=
  match tracingStart driver
          (match screenshots with Some b => b | None => true end)
          (match snapshots with Some b => b | None => true end) with
  | Ok _ => Ok true
  | Err _ => Ok false
  end.

Definition Tab_stopTracing (driver : Driver) (path : string) : Result bool :=
  match tracingStop driver path with
  | Ok _ => Ok true
  | Err _ => Ok false
  end.

(** *** Launching, lines 314-360 of [context.ts] *)

Record Tracing : Type := {
  screenshots : bool;
  snapshots : bool;
  dir : string;
}.

(** What [_launchPersistentContext] adds to the launch options it passes to
    the driver: the directory of [recordVideo] (its size is 800 by 600) and
    [tracing] (its mode is on). *)
Record LaunchRequest : Type := {
  recordVideoDir : option string;
  tracing : option Tracing;
}.

Definition contextOptions (host : Host) (options : ContextOptions)
    : LaunchRequest :=
  {| recordVideoDir :=
       if truthy (recordVideo options)
       then Some (orElse (videoDir options) (join host (cwd host) "mcp_videos"))
       else None;
     tracing :=
       if truthy (traceEnabled options)
       then Some {| screenshots := notFalse (traceScreenshots options);
                    snapshots := notFalse (traceSnapshots options);
                    dir := orElse (traceDir options)
                             (join host (cwd host) "mcp_traces") |}
       else None |}.

Definition notInstalled : string :=
  "Browser specified in your config is not installed. Either install it (likely) or change the config.".

(** [launched] is what [browserType.launchPersistentContext] settles with
    for the request. *)
Definition _launchPersistentContext (host : Host) (options : ContextOptions)
    (launched : LaunchRequest -> Result (list Tab)) : Result (list Tab) :=
  match launched (contextOptions host options) with
  | Ok pages => Ok pages
  | Err message =>
      if includes message "Executable doesn't exist" then Err notInstalled
      else Err message
  end.

(** *** The handlers *)

(** A handler as [Context.run] calls it: it sees the session and its
    options, may rewrite the options, and returns the tool result or
    throws. *)
Definition Handler : Type :=
  Context -> ContextOptions -> Result (ContextOptions * ToolResult).

(** Lines 135-138 of [context.ts] and on: the handler, then the runner.  No
    page event is handled between the return of a handler that awaits
    nothing and the call of the action, so the action of such a tool starts
    in the session its handler has seen. *)
Definition Context_run (tools : list Tool) (env : Surroundings)
    (handler : Handler) (c : Context) (options : ContextOptions)
    : ContextOptions * (Context * Result Response * list Moment) :=
  match handler c options with
  | Err message => (options, (c, Err message, []))
  | Ok (options', tr) => (options', run tools env tr c)
  end.

Definition text (s : string) : option (list Content) := Some [TextContent s].

(** [browser_scroll]. *)
Definition scroll (driver : Driver) (x : option Z) (y : Z)
    (behavior : option Behavior) : Handler := fun c options =>
  let x := orElseZ x 0 in
  let behavior := orAuto behavior in
  Ok (options,
      {| code :=
           ["// 페이지 스크롤";
            "await page.evaluate((x, y, behavior) => {";
            "  window.scrollBy({";
            "    left: x,";
            "    top: y,";
            "    behavior: behavior";
            "  });";
            "}, " +:+ zToString x +:+ ", " +:+ zToString y +:+ ", '" +:+
            behaviorToString behavior +:+ "');"];
         action :=
           Some {| during := happening driver;
                   settles :=
                     match currentTabOrDie c with
                     | Err message => Err message
                     | Ok _ =>
                         match evaluate driver with
                         | Ok _ =>
                             Ok (text ((if Z.ltb 0 y then "아래" else "위") +:+
                                       "로 " +:+ zToString (Z.abs y) +:+
                                       " 픽셀 스크롤했습니다."))
                         | Err error =>
                             Ok (text ("스크롤 중 오류 발생: " +:+ error))
                         end
                     end |};
         waitForNetwork := false;
         captureSnapshot := true;
         resultOverride := None |}).

(** [browser_scroll_to_position]. *)
Definition scrollToPosition (driver : Driver) (x y : Z)
    (behavior : option Behavior) : Handler := fun c options =>
  let behavior := orAuto behavior in
  Ok (options,
      {| code :=
           ["// 특정 위치로 스크롤";
            "await page.evaluate((x, y, behavior) => {";
            "  window.scrollTo({";
            "    left: x,";
            "    top: y,";
            "    behavior: behavior";
            "  });";
            "}, " +:+ zToString x +:+ ", " +:+ zToString y +:+ ", '" +:+
            behaviorToString behavior +:+ "');"];
         action :=
           Some {| during := happening driver;
                   settles :=
                     match currentTabOrDie c with
                     | Err message => Err message
                     | Ok _ =>
                         match evaluate driver with
                         | Ok _ =>
                             Ok (text ("(" +:+ zToString x +:+ ", " +:+
                                       zToString y +:+
                                       ") 위치로 스크롤했습니다."))
                         | Err error =>
                             Ok (text ("위치로 스크롤 중 오류 발생: " +:+ error))
                         end
                     end |};
         waitForNetwork := false;
         captureSnapshot := true;
         resultOverride := None |}).

(** [browser_scroll_to_element]: the reference is resolved against the
    snapshot of the current tab, [tab.snapshotOrDie().refLocator(ref)], and
    whatever that throws is caught with the driver's errors. *)
Definition scrollToElement (driver : Driver) (element ref : string)
    (behavior : option Behavior) : Handler := fun c options =>
  let behavior := orAuto behavior in
  Ok (options,
      {| code :=
           ["// 요소로 스크롤";
            "const elementHandle = await page.locator('aria-ref=" +:+ ref +:+ "');";
            "await elementHandle.scrollIntoViewIfNeeded({";
            "  behavior: '" +:+ behaviorToString behavior +:+ "',";
            "});"];
         action :=
           Some {| during := happening driver;
                   settles :=
                     match currentTabOrDie c with
                     | Err message => Err message
                     | Ok tab =>
                         match resolve c tab ref with
                         | Err message =>
                             Ok (text ("요소로 스크롤 중 오류 발생: " +:+
                                       errorToString message))
                         | Ok locator =>
                             match scrollIntoViewIfNeeded driver locator with
                             | Ok _ =>
                                 Ok (text (Js.doubleQuote +:+ element +:+
                                           Js.doubleQuote +:+
                                           " 요소로 스크롤했습니다."))
                             | Err error =>
                                 Ok (text ("요소로 스크롤 중 오류 발생: " +:+ error))
                             end
                         end
                     end |};
         waitForNetwork := false;
         captureSnapshot := true;
         resultOverride := None |}).

(** [browser_trace_start]. *)
Definition traceStart (host : Host) (driver : Driver)
    (directory name : option string) (screenshots snapshots : option bool)
    : Handler := fun c options =>
  let traceDir := orElse directory (join host (cwd host) "mcp_traces") in
  let traceName := orElse name "trace" in
  let screenshots := notFalse screenshots in
  let snapshots := notFalse snapshots in
  Ok ({| recordVideo := recordVideo options;
         videoDir := videoDir options;
         traceEnabled := Some true;
         traceDir := Some traceDir;
         traceName := Some traceName;
         traceScreenshots := Some screenshots;
         traceSnapshots := Some snapshots |},
      {| code :=
           ["// 브라우저 세션의 트레이스 기록 시작";
            "await context.tracing.start({ screenshots: " +:+
            boolToString screenshots +:+ ", snapshots: " +:+
            boolToString snapshots +:+ " });"];
         action :=
           Some {| during := happening driver;
                   settles :=
                     match currentTabOrDie c with
                     | Err message => Err message
                     | Ok _ =>
                         match Tab_startTracing driver
                                 (Some screenshots) (Some snapshots) with
                         | Ok _ =>
                             Ok (text ("트레이스 기록이 시작되었습니다. 디렉토리: " +:+
                                       traceDir +:+ ", 파일명: " +:+ traceName))
                         | Err message =>
                             Ok (text ("트레이스 기록 시작 중 오류 발생: " +:+
                                       errorToString message))
                         end
                     end |};
         waitForNetwork := false;
         captureSnapshot := false;
         resultOverride := None |}).

(** The path [browser_trace_stop] saves to. *)
Definition tracePath (host : Host) (path : option string)
    (options : ContextOptions) : string :=
  let traceDir := orElse (traceDir options) (join host (cwd host) "mcp_traces") in
  let traceName := orElse (traceName options) "trace" in
  orElse path (join host traceDir (traceName +:+ ".zip")).

(** [browser_trace_stop]. *)
Definition traceStop (host : Host) (driver : Driver) (path : option string)
    : Handler := fun c options =>
  let tracePath := tracePath host path options in
  Ok (options,
      {| code :=
           ["// 브라우저 세션의 트레이스 기록 중지 및 저장";
            "await context.tracing.stop({ path: " +:+ Js.doubleQuote +:+
            tracePath +:+ Js.doubleQuote +:+ " });"];
         action :=
           Some {| during := happening driver;
                   settles :=
                     match currentTabOrDie c with
                     | Err message => Err message
                     | Ok _ =>
                         match Tab_stopTracing driver tracePath with
                         | Ok _ =>
                             Ok (text ("트레이스 기록이 중지되었고 파일이 저장되었습니다: " +:+
                                       tracePath))
                         | Err message =>
                             Ok (text ("트레이스 기록 중지 중 오류 발생: " +:+
                                       errorToString message))
                         end
                     end |};
         waitForNetwork := false;
         captureSnapshot := false;
         resultOverride := None |}).

(** [browser_video_enable]. *)
Definition videoEnable (host : Host) (directory : option string) : Handler :=
  fun c options =>
  let videoDir := orElse directory (join host (cwd host) "mcp_videos") in
  Ok ({| recordVideo := Some true;
         videoDir := Some videoDir;
         traceEnabled := traceEnabled options;
         traceDir := traceDir options;
         traceName := traceName options;
         traceScreenshots := traceScreenshots options;
         traceSnapshots := traceSnapshots options |},
      {| code :=
           ["// 브라우저 세션의 비디오 녹화 활성화";
            "// 비디오 디렉토리: " +:+ videoDir;
            "// 참고: 이 설정은 다음 브라우저 컨텍스트 생성 시 적용됩니다."];
         action := None;
         waitForNetwork := false;
         captureSnapshot := false;
         resultOverride :=
           Some {| content :=
                     [TextContent
                        ("비디오 녹화가 활성화되었습니다. 저장 위치: " +:+ videoDir +:+
                         Js.newline +:+ "다음 브라우저 시작 시 적용됩니다.")] |} |}).

(** [browser_video_get_path]: the handler itself asks for the current
    tab. *)
Definition videoGetPath (driver : Driver) : Handler := fun c options =>
  match currentTabOrDie c with
  | Err message => Err message
  | Ok _ =>
      Ok (options,
          {| code :=
               ["// 현재 탭의 비디오 파일 경로 가져오기";
                "const videoPath = await page.video().path();"];
             action :=
               Some {| during := happening driver;
                       settles :=
                         match Tab_getVideoPath driver with
                         | Err message => Err message
                         | Ok (Some (String a path)) =>
                             Ok (text ("비디오 경로: " +:+ String a path))
                         | Ok _ =>
                             Ok (text "비디오가 활성화되지 않았거나 아직 사용할 수 없습니다.")
                         end |};
             waitForNetwork := false;
             captureSnapshot := false;
             resultOverride := None |})
  end.

(** The path [browser_video_save] saves to. *)
Definition videoFilePath (host : Host) (filename : string)
    (options : ContextOptions) : string :=
  join host (orElse (videoDir options) (join host (cwd host) "mcp_videos"))
    filename.

(** [browser_video_save]. *)
Definition videoSave (host : Host) (driver : Driver) (filename : string)
    : Handler := fun c options =>
  match currentTabOrDie c with
  | Err message => Err message
  | Ok _ =>
      let filePath := videoFilePath host filename options in
      Ok (options,
          {| code :=
               ["// 현재 탭의 비디오 저장";
                "await page.video().saveAs(" +:+ Js.doubleQuote +:+ filePath +:+
                Js.doubleQuote +:+ ");"];
             action :=
               Some {| during := happening driver;
                       settles :=
                         match Tab_saveVideo driver filePath with
                         | Err message => Err message
                         | Ok true =>
                             Ok (text ("비디오가 성공적으로, " +:+ filePath +:+
                                       "에 저장되었습니다."))
                         | Ok false =>
                             Ok (text "비디오를 저장하는 데 실패했습니다. 비디오 녹화가 활성화되어 있는지 확인하세요.")
                         end |};
             waitForNetwork := false;
             captureSnapshot := false;
             resultOverride := None |})
  end.

(** *** Sample host and driver *)

Module Hosts.

Definition posix : Host :=
  {| cwd := "/srv/mcp";
     join := fun a b => a +:+ "/" +:+ b |}.

(** A driver that does all it is asked. *)
Definition willing : Driver :=
  {| happening := [];
     evaluate := Ok tt;
     scrollIntoViewIfNeeded := fun _ => Ok tt;
     video := true;
     videoPath := Ok "/srv/mcp/mcp_videos/page.webm";
     videoSaveAs := fun _ => Ok tt;
     tracingStart := fun _ _ => Ok tt;
     tracingStop := fun _ => Ok tt |}.

(** A driver that fails at every call. *)
Definition failing : Driver :=
  {| happening := [];
     evaluate := Err "Error: page crashed";
     scrollIntoViewIfNeeded := fun _ => Err "TimeoutError: Timeout 5000ms exceeded.";
     video := false;
     videoPath := Err "no video";
     videoSaveAs := fun _ => Err "no video";
     tracingStart := fun _ _ => Err "Tracing has been already started";
     tracingStop := fun _ => Err "Must start tracing before stopping" |}.

Definition plain : ContextOptions :=
  {| recordVideo := None; videoDir := None; traceEnabled := None;
     traceDir := None; traceName := None; traceScreenshots := None;
     traceSnapshots := None |}.

End Hosts.

(** ** The artifacts a tab collects, lines 366-404 of [context.ts]

    The handlers the constructor of [Tab] puts on its page for console
    messages, requests, responses and navigations.  A console message is
    known by its text, a request and a response by a number;
    [_requests] is a [Map], kept here as its entries in insertion order. *)

Inductive PageEvent : Type :=
| ConsoleMessage (message : string)
| RequestMade (request : nat)
| ResponseReceived (request response : nat)
| FrameNavigated (hasParentFrame : bool)
| Closed.

Record Artifacts : Type := {
  _console : list string;
  _requests : list (nat * option nat);
}.

(** [map.set(key, value)]: the value of a present key is replaced where it
    stands, a new key is added at the end. *)
Fixpoint mapSet (key : nat) (value : option nat)
    (entries : list (nat * option nat)) : list (nat * option nat) :=
  match entries with
  | [] => [(key, value)]
  | (k, v) :: rest =>
      if Nat.eqb k key then (k, value) :: rest
      else (k, v) :: mapSet key value rest
  end.

(** [map.get(key)]. *)
Fixpoint mapGet (key : nat) (entries : list (nat * option nat))
    : option (option nat) :=
  match entries with
  | [] => None
  | (k, v) :: rest => if Nat.eqb k key then Some v else mapGet key rest
  end.

Definition _clearCollectedArtifacts (a : Artifacts) : Artifacts :=
  {| _console := []; _requests := [] |}.

Definition onPageEvent (e : PageEvent) (a : Artifacts) : Artifacts :=
  match e with
  | ConsoleMessage message =>
      {| _console := _console a ++ [message]; _requests := _requests a |}
  | RequestMade request =>
      {| _console := _console a; _requests := mapSet request None (_requests a) |}
  | ResponseReceived request response =>
      {| _console := _console a;
         _requests := mapSet request (Some response) (_requests a) |}
  | FrameNavigated hasParentFrame =>
      if hasParentFrame then a else _clearCollectedArtifacts a
  | Closed => _clearCollectedArtifacts a
  end.

Definition collect (events : list PageEvent) (a : Artifacts) : Artifacts :=
  fold_left (fun a e => onPageEvent e a) events a.

(** The events that empty the collections: a navigation of the main frame
    and the closing of the page. *)
Definition clears (e : PageEvent) : bool :=
  match e with
  | FrameNavigated hasParentFrame => negb hasParentFrame
  | Closed => true
  | _ => false
  end.

(** The events after the last one that clears. *)
Fixpoint sinceCleared (events : list PageEvent) : list PageEvent :=
  match events with
  | [] => []
  | e :: rest =>
      if existsb clears rest then sinceCleared rest
      else if clears e then rest
      else e :: rest
  end.

Fixpoint messages (events : list PageEvent) : list string :=
  match events with
  | [] => []
  | ConsoleMessage message :: rest => message :: messages rest
  | _ :: rest => messages rest
  end.

(** ** The page's side of [browser_auto_scroll]

    The function the action evaluates in the page (lines 248-263 of the
    scroll module): every [delay] milliseconds a tick reads the height of
    the document, scrolls by [distance], adds [distance] to the total and
    counts; the promise resolves with the count at the first tick whose
    total has reached the height read.  [scrollHeight tick] is the height
    the page has at a tick; [None] after [fuel] ticks means that the promise
    is still pending then. *)
Fixpoint autoScrollLoop (distance : Z) (scrollHeight : nat -> Z)
    (fuel tick : nat) (totalHeight : Z) (count : nat) : option nat :=
  match fuel with
  | 0 => None
  | S fuel' =>
      let height := scrollHeight tick in
      let totalHeight := (totalHeight + distance)%Z in
      let count := S count in
      if Z.leb height totalHeight then Some count
      else autoScrollLoop distance scrollHeight fuel' (S tick) totalHeight count
  end.

(** With the handler's [params.distance || 100] (line 219). *)
Definition autoScrollTicks (distance : option Z) (scrollHeight : nat -> Z)
    (fuel : nat) : option nat :=
  autoScrollLoop (orElseZ distance 100) scrollHeight fuel 0 0 0.

(** ** Properties of the reference codec *)

Example decodeRef_top : decodeRef "e12" = (0, "e12").
Proof. reflexivity. Qed.

Example decodeRef_nested : decodeRef "f3e12" = (3, "e12").
Proof. reflexivity. Qed.

Example rewriteRef_nested :
  rewriteRef 2 "button [ref=e7]" = "button [ref=f2e7]".
Proof. reflexivity. Qed.

Example matchRef_iframe : matchRef "iframe [ref=e4]" = Some "e4".
Proof. reflexivity. Qed.

Lemma append_cons c (a b : string) : String c a +:+ b = String c (a +:+ b).
Proof. reflexivity. Qed.

Lemma append_nil (b : string) : EmptyString +:+ b = b.
Proof. reflexivity. Qed.

Lemma append_assoc (a b c : string) : (a +:+ b) +:+ c = a +:+ (b +:+ c).
Proof.
  induction a as [|x a IH]; [reflexivity|].
  rewrite !append_cons, IH. reflexivity.
Qed.

Lemma spanDigits_none s :
  startsWithDigit s = false -> Js.spanDigits s = (EmptyString, s).
Proof.
  destruct s as [|c s]; simpl; [reflexivity|]. intros ->. reflexivity.
Qed.

Lemma spanDigits_uint d s :
  startsWithDigit s = false ->
  Js.spanDigits (NilEmpty.string_of_uint d +:+ s) = (NilEmpty.string_of_uint d, s).
Proof.
  intros H. induction d; simpl; rewrite ?append_cons, ?append_nil; simpl;
    try (rewrite IHd; reflexivity).
  apply spanDigits_none; exact H.
Qed.

Lemma parseDigits_uint d :
  forall acc, Js.parseDigits acc (NilEmpty.string_of_uint d) = Nat.of_uint_acc d acc.
Proof.
  induction d; intros acc; simpl; try reflexivity;
    rewrite IHd, Nat.tail_mul_spec; f_equal; unfold Js.digitValue; simpl; lia.
Qed.

Lemma parseInt_numberToString n : Js.parseInt (Js.numberToString n) = n.
Proof.
  unfold Js.parseInt, Js.numberToString. rewrite parseDigits_uint.
  apply Unsigned.of_to.
Qed.

Lemma numberToString_nonempty n : Js.numberToString n <> EmptyString.
Proof.
  unfold Js.numberToString.
  assert (H : Nat.to_uint n <> Nil).
  { rewrite <- (Unsigned.of_to n) at 1. rewrite Unsigned.to_of.
    apply DecimalFacts.unorm_nonnil. }
  destruct (Nat.to_uint n); simpl; congruence.
Qed.

(** A prefixed reference decodes to its index and to its remainder, up to
    the first line terminator. *)
Lemma decodeRef_prefixed n s :
  startsWithDigit s = false ->
  decodeRef ("f" +:+ Js.numberToString n +:+ s) = (n, Js.lineOf s).
Proof.
  intros Hd. rewrite append_cons, append_nil. simpl.
  unfold Js.numberToString. rewrite spanDigits_uint by exact Hd.
  pose proof (numberToString_nonempty n) as Hne. unfold Js.numberToString in Hne.
  destruct (NilEmpty.string_of_uint (Nat.to_uint n)) as [|c ds] eqn:E;
    [congruence|].
  rewrite <- E. f_equal. apply parseInt_numberToString.
Qed.

(** A reference without prefix decodes to frame 0 and itself. *)
Lemma decodeRef_plain s : looksPrefixed s = false -> decodeRef s = (0, s).
Proof.
  destruct s as [|c rest]; simpl; [reflexivity|].
  destruct (Ascii.eqb c "f"); simpl; [|reflexivity].
  intros H. rewrite spanDigits_none by exact H. reflexivity.
Qed.

(** The rewriting of line 534 turns a marker of the local id into the marker
    of its encoding. *)
Lemma rewriteRef_encodes n s :
  rewriteRef n ("[ref=" +:+ s) = "[ref=" +:+ encodeRef n s.
Proof.
  unfold rewriteRef, encodeRef. destruct n as [|n]; simpl; [reflexivity|].
  rewrite !append_nil.
  replace (String.prefix EmptyString s) with true by (destruct s; reflexivity).
  rewrite append_assoc. reflexivity.
Qed.

(** C2, amended: the round trip holds for the local ids that cannot be
    mistaken for part of the prefix.  For frame 0 the id must not itself
    read as "f" and a digit; for a nested frame it must not begin with a
    decimal digit, which the greedy digit group would swallow, and must hold
    no line terminator, at which the remainder group stops.  In general a
    prefix "f" and digits decodes to that frame index, with what follows up
    to the first line terminator as local id, and a reference that does not
    read as prefixed decodes to frame 0 and itself. *)
Theorem C2_roundtrip_of_unambiguous_ids (n : nat) (s : string) :
  (n = 0 -> looksPrefixed s = false) ->
  (0 < n -> startsWithDigit s = false /\ Js.lineOf s = s) ->
  decodeRef (encodeRef n s) = (n, s) /\
  (forall m rest,
     startsWithDigit rest = false ->
     decodeRef ("f" +:+ Js.numberToString m +:+ rest) = (m, Js.lineOf rest)) /\
  (forall ref, looksPrefixed ref = false -> decodeRef ref = (0, ref)).
Proof.
  intros H0 Hn. split; [|split].
  - unfold encodeRef. destruct n as [|n]; simpl Nat.eqb; cbv iota.
    + apply decodeRef_plain. auto.
    + destruct Hn as [Hd Hl]; [lia|].
      rewrite decodeRef_prefixed by exact Hd. rewrite Hl. reflexivity.
  - intros m rest. apply decodeRef_prefixed.
  - intros ref. apply decodeRef_plain.
Qed.

Lemma C2_roundtrip_witness : decodeRef (encodeRef 3 "e12") = (3, "e12").
Proof.
  refine (proj1 (C2_roundtrip_of_unambiguous_ids 3 "e12" _ _)).
  - intros H. discriminate H.
  - intros _. split; reflexivity.
Defined.

(** C2 as stated fails: a local id that begins with a digit is absorbed into
    the frame index, an id of frame 0 that reads as a prefix is taken for
    one, and an id with a line break is cut at it. *)
Lemma C2_roundtrip_counterexample :
  decodeRef (encodeRef 1 "2") = (12, "") /\
  decodeRef (encodeRef 0 "f1e2") = (1, "e2") /\
  decodeRef (encodeRef 1 (String (ascii_of_nat 10) "e2")) = (1, "") /\
  ~ (forall n s, decodeRef (encodeRef n s) = (n, s)).
Proof.
  repeat split; try reflexivity.
  intros H. specialize (H 1 "2"). discriminate H.
Qed.

(** ** Properties of the builder *)

Lemma visit_seq frame frameIndex items fl :
  visit frame frameIndex (YSeq items) fl =
  let (ts, fl') := visitItems frame frameIndex items fl in (SeqAll ts, fl').
Proof. reflexivity. Qed.

Lemma visit_map frame frameIndex items fl :
  visit frame frameIndex (YMap items) fl =
  let (ts, fl') := visitItems frame frameIndex items fl in (MapAll ts, fl').
Proof. reflexivity. Qed.

Lemma settle_seq index items fl :
  settle index (SeqAll items) fl =
  match settleItems index fl items with
  | Some (items', fl') => Some (SeqAll items', fl')
  | None => None
  end.
Proof. reflexivity. Qed.

Lemma settle_map index items fl :
  settle index (MapAll items) fl =
  match settleItems index fl items with
  | Some (items', fl') => Some (MapAll items', fl')
  | None => None
  end.
Proof. reflexivity. Qed.

Lemma fulfilled_seq items :
  fulfilled (SeqAll items) = option_map YSeq (fulfilledItems items).
Proof. reflexivity. Qed.

Lemma fulfilled_map items :
  fulfilled (MapAll items) = option_map YMap (fulfilledItems items).
Proof. reflexivity. Qed.

Lemma children_app frame base l1 l2 :
  children frame base (l1 ++ l2) =
  children frame base l1 ++ children frame (base + length l1) l2.
Proof.
  revert base. induction l1 as [|r l1 IH]; intros base; simpl.
  - f_equal. lia.
  - f_equal. rewrite IH. do 2 f_equal. lia.
Qed.

Lemma children_length frame base refs :
  length (children frame base refs) = length refs.
Proof. revert base. induction refs; intros; simpl; auto. Qed.

Lemma children_lookup frame base refs k ref :
  refs !! k = Some ref ->
  children frame base refs !! k = Some (base + k, frameLocator frame (ariaRef ref)).
Proof.
  revert base k. induction refs as [|r refs IH]; intros base [|k] H; simpl in *;
    try discriminate.
  - inversion H; subst. do 2 f_equal. lia.
  - rewrite (IH (S base) k H). do 2 f_equal. lia.
Qed.

Lemma children_fst frame base refs i f :
  In (i, f) (children frame base refs) -> base <= i < base + length refs.
Proof.
  revert base. induction refs as [|r refs IH]; intros base; simpl; [tauto|].
  intros [H|H].
  - inversion H; subst. lia.
  - apply IH in H. lia.
Qed.

(** What the synchronous part of a visit leaves behind: one request per
    iframe placeholder, numbered from the length of [_frameLocators] on, and
    the frames pushed in that order. *)
Lemma visit_spec frame frameIndex node :
  forall fl t fl',
    visit frame frameIndex node fl = (t, fl') ->
    waiting t = children frame (length fl) (iframeRefs node) /\
    fl' = fl ++ map snd (waiting t).
Proof.
  assert (Items : forall items,
    Forall (fun node => forall fl t fl',
      visit frame frameIndex node fl = (t, fl') ->
      waiting t = children frame (length fl) (iframeRefs node) /\
      fl' = fl ++ map snd (waiting t)) items ->
    forall fl ts fl',
      visitItems frame frameIndex items fl = (ts, fl') ->
      concat (map waiting ts) =
        children frame (length fl) (concat (map iframeRefs items)) /\
      fl' = fl ++ map snd (concat (map waiting ts))).
  { induction 1 as [|x items Hx _ IH]; intros fl ts fl' E; simpl in E.
    - inversion E; subst. simpl. rewrite app_nil_r. auto.
    - destruct (visit frame frameIndex x fl) as [t fl1] eqn:E1.
      destruct (visitItems frame frameIndex items fl1) as [ts' fl2] eqn:E2.
      inversion E; subst. simpl.
      destruct (Hx _ _ _ E1) as [W1 F1]. destruct (IH _ _ _ E2) as [W2 F2].
      assert (L : length fl1 = length fl + length (iframeRefs x))
        by (rewrite F1, length_app, length_map, W1, children_length; reflexivity).
      rewrite L in W2. split.
      + rewrite children_app, W1, W2. reflexivity.
      + rewrite map_app, F2, F1, <- app_assoc. reflexivity. }
  induction node as [v|k v IHk IHv|items IH|items IH|] using YNode_induction;
    intros fl t fl' E.
  - destruct v as [value|src]; simpl in E.
    + destruct (iframeRef value) as [ref|] eqn:R; inversion E; subst; simpl.
      * rewrite R. auto.
      * rewrite R, app_nil_r. auto.
    + inversion E; subst; simpl. rewrite app_nil_r. auto.
  - simpl in E.
    destruct (visit frame frameIndex k fl) as [tk fl1] eqn:E1.
    destruct (visit frame frameIndex v fl1) as [tv fl2] eqn:E2.
    inversion E; subst. simpl.
    destruct (IHk _ _ _ E1) as [W1 F1]. destruct (IHv _ _ _ E2) as [W2 F2].
    assert (L : length fl1 = length fl + length (iframeRefs k))
      by (rewrite F1, length_app, length_map, W1, children_length; reflexivity).
    rewrite L in W2. split.
    + rewrite children_app, W1, W2. reflexivity.
    + rewrite map_app, F2, F1, <- app_assoc. reflexivity.
  - rewrite visit_seq in E.
    destruct (visitItems frame frameIndex items fl) as [ts fl1] eqn:E1.
    inversion E; subst. simpl. eapply Items; eauto.
  - rewrite visit_map in E.
    destruct (visitItems frame frameIndex items fl) as [ts fl1] eqn:E1.
    inversion E; subst. simpl. eapply Items; eauto.
  - inversion E; subst. simpl. rewrite app_nil_r. auto.
Qed.

(** What settling one request does to the outstanding requests and to
    [_frameLocators]: the request is replaced, in place, by the requests for
    the frames nested in the answering frame, all pushed at once. *)
Lemma settle_spec index t :
  forall fl t' fl',
    settle index t fl = Some (t', fl') ->
    exists before frame after,
      waiting t = before ++ (index, frame) :: after /\
      waiting t' = before ++ discovered frame (length fl) ++ after /\
      fl' = fl ++ map snd (discovered frame (length fl)).
Proof.
  assert (Items : forall items,
    Forall (fun t => forall fl t' fl',
      settle index t fl = Some (t', fl') ->
      exists before frame after,
        waiting t = before ++ (index, frame) :: after /\
        waiting t' = before ++ discovered frame (length fl) ++ after /\
        fl' = fl ++ map snd (discovered frame (length fl))) items ->
    forall fl items' fl',
      settleItems index fl items = Some (items', fl') ->
      exists before frame after,
        concat (map waiting items) = before ++ (index, frame) :: after /\
        concat (map waiting items') =
          before ++ discovered frame (length fl) ++ after /\
        fl' = fl ++ map snd (discovered frame (length fl))).
  { induction 1 as [|x items Hx _ IH]; intros fl items' fl' E; simpl in E.
    - discriminate.
    - destruct (settle index x fl) as [[x' fl1]|] eqn:E1.
      + inversion E; subst. destruct (Hx _ _ _ E1) as (b & f & a & W & W' & F).
        exists b, f, (a ++ concat (map waiting items)). simpl.
        rewrite W, W', <- !app_assoc. simpl. auto.
      + destruct (settleItems index fl items) as [[rest' fl1]|] eqn:E2;
          [|discriminate].
        inversion E; subst. destruct (IH _ _ _ E2) as (b & f & a & W & W' & F).
        exists (waiting x ++ b), f, a. simpl.
        rewrite W, W', <- !app_assoc. auto. }
  induction t as [n|k v IHk IHv|items IH|items IH|key i frame|key kept body IH]
    using Task_induction; intros fl t' fl' E.
  - discriminate.
  - simpl in E. destruct (settle index k fl) as [[k' fl1]|] eqn:E1.
    + inversion E; subst. destruct (IHk _ _ _ E1) as (b & f & a & W & W' & F).
      exists b, f, (a ++ waiting v). simpl.
      rewrite W, W', <- !app_assoc. simpl. auto.
    + destruct (settle index v fl) as [[v' fl1]|] eqn:E2; [|discriminate].
      inversion E; subst. destruct (IHv _ _ _ E2) as (b & f & a & W & W' & F).
      exists (waiting k ++ b), f, a. simpl.
      rewrite W, W', <- !app_assoc. auto.
  - rewrite settle_seq in E.
    destruct (settleItems index fl items) as [[items' fl1]|] eqn:E1;
      [|discriminate].
    inversion E; subst. simpl. eapply Items; eauto.
  - rewrite settle_map in E.
    destruct (settleItems index fl items) as [[items' fl1]|] eqn:E1;
      [|discriminate].
    inversion E; subst. simpl. eapply Items; eauto.
  - simpl in E. destruct (Nat.eqb i index) eqn:Ei; [|discriminate].
    apply Nat.eqb_eq in Ei; subst i.
    exists [], frame, []. destruct frame as [message|body sub]; simpl in E.
    + inversion E; subst. simpl. rewrite app_nil_r. auto.
    + destruct (visit (Reachable body sub) index body fl) as [b fl1] eqn:E1.
      inversion E; subst. destruct (visit_spec _ _ _ _ _ _ E1) as [W F].
      simpl. unfold discovered. simpl. rewrite app_nil_r, <- W. auto.
  - simpl in E. destruct (settle index body fl) as [[body' fl1]|] eqn:E1;
      [|discriminate].
    inversion E; subst. simpl. eauto.
Qed.

(** A request that is outstanding can be settled. *)
Lemma settle_waiting index t :
  forall fl,
    In index (map fst (waiting t)) ->
    exists t' fl', settle index t fl = Some (t', fl').
Proof.
  assert (Items : forall items,
    Forall (fun t => forall fl,
      In index (map fst (waiting t)) ->
      exists t' fl', settle index t fl = Some (t', fl')) items ->
    forall fl,
      In index (map fst (concat (map waiting items))) ->
      exists items' fl', settleItems index fl items = Some (items', fl')).
  { induction 1 as [|x items Hx _ IH]; intros fl H; simpl in *; [tauto|].
    rewrite map_app, in_app_iff in H.
    destruct (settle index x fl) as [[x' fl1]|] eqn:E1; eauto.
    destruct H as [H|H].
    - destruct (Hx fl H) as (? & ? & ?). congruence.
    - destruct (IH fl H) as (items' & fl' & ->). eauto. }
  induction t as [n|k v IHk IHv|items IH|items IH|key i frame|key kept body IH]
    using Task_induction; intros fl H; simpl in H.
  - tauto.
  - rewrite map_app, in_app_iff in H. simpl.
    destruct (settle index k fl) as [[k' fl1]|] eqn:E1; eauto.
    destruct H as [H|H].
    + destruct (IHk fl H) as (? & ? & ?). congruence.
    + destruct (IHv fl H) as (v' & fl' & ->). eauto.
  - rewrite settle_seq. destruct (Items items IH fl H) as (? & ? & ->). eauto.
  - rewrite settle_map. destruct (Items items IH fl H) as (? & ? & ->). eauto.
  - destruct H as [H|[]]. simpl in H. subst i. simpl. rewrite Nat.eqb_refl.
    destruct (ariaSnapshot frame); eauto.
    destruct (visit frame index a fl); eauto.
  - simpl. destruct (IH fl H) as (? & ? & ->). eauto.
Qed.

(** A promise is fulfilled exactly when nothing is outstanding under it. *)
Lemma fulfilled_waiting t :
  waiting t = [] <-> exists node, fulfilled t = Some node.
Proof.
  assert (Items : forall items,
    Forall (fun t => waiting t = [] <-> exists node, fulfilled t = Some node)
      items ->
    concat (map waiting items) = [] <->
    exists nodes, fulfilledItems items = Some nodes).
  { induction 1 as [|x items Hx _ IH]; simpl.
    - split; eauto.
    - split.
      + intros H. apply app_eq_nil in H as [H1 H2].
        apply Hx in H1 as [n ->]. apply IH in H2 as [ns ->]. eauto.
      + intros [ns H]. destruct (fulfilled x) eqn:E1; [|discriminate].
        destruct (fulfilledItems items) eqn:E2; [|discriminate].
        rewrite (proj2 Hx), (proj2 IH); eauto. }
  induction t as [n|k v IHk IHv|items IH|items IH|key i frame|key kept body IH]
    using Task_induction; simpl.
  - split; eauto.
  - split.
    + intros H. apply app_eq_nil in H as [H1 H2].
      apply IHk in H1 as [n1 ->]. apply IHv in H2 as [n2 ->]. eauto.
    + intros [n H]. destruct (fulfilled k) eqn:E1; [|discriminate].
      destruct (fulfilled v) eqn:E2; [|discriminate].
      rewrite (proj2 IHk), (proj2 IHv); eauto.
  - change (concat (map waiting items) = [] <->
            exists node, option_map YSeq (fulfilledItems items) = Some node).
    rewrite (Items items IH). split.
    + intros [ns ->]. simpl. eauto.
    + intros [n H]. destruct (fulfilledItems items); [eauto|discriminate].
  - change (concat (map waiting items) = [] <->
            exists node, option_map YMap (fulfilledItems items) = Some node).
    rewrite (Items items IH). split.
    + intros [ns ->]. simpl. eauto.
    + intros [n H]. destruct (fulfilledItems items); [eauto|discriminate].
  - split; [discriminate|]. intros [n H]. discriminate.
  - rewrite IH. split.
    + intros [n ->]. simpl. eauto.
    + intros [n H]. destruct (fulfilled body); [eauto|discriminate].
Qed.

(** *** One step of a capture *)

Lemma step_spec index c c' :
  step index c = Some c' ->
  exists before frame after,
    pending c = before ++ (index, frame) :: after /\
    pending c' = before ++ discovered frame (length (frameLocators c)) ++ after /\
    frameLocators c' =
      frameLocators c ++ map snd (discovered frame (length (frameLocators c))).
Proof.
  unfold step, pending. destruct c as [fl [i frame|kept body|message]]; simpl.
  - destruct (Nat.eqb i index) eqn:Ei; [|discriminate].
    apply Nat.eqb_eq in Ei; subst i. exists [], frame, [].
    destruct frame as [message|contents sub]; simpl in *.
    + inversion H; subst; simpl. rewrite app_nil_r. auto.
    + destruct (visit (Reachable contents sub) index contents fl) as [b fl1] eqn:E1.
      inversion H; subst; simpl. destruct (visit_spec _ _ _ _ _ _ E1) as [W F].
      unfold discovered; simpl. rewrite app_nil_r, <- W. auto.
  - destruct (settle index body fl) as [[body' fl1]|] eqn:E1; [|discriminate].
    intros H; inversion H; subst; simpl. eapply settle_spec; eauto.
  - discriminate.
Qed.

Lemma step_pending index c :
  In index (map fst (pending c)) -> exists c', step index c = Some c'.
Proof.
  unfold step, pending. destruct c as [fl [i frame|kept body|message]]; simpl.
  - intros [->|[]]. rewrite Nat.eqb_refl.
    destruct (ariaSnapshot frame) as [contents|message]; eauto.
    destruct (visit frame index contents fl); eauto.
  - intros H. destruct (settle_waiting index body fl H) as (? & ? & ->). eauto.
  - tauto.
Qed.

Lemma outcome_pending c :
  pending c = [] <-> exists r, outcome c = Some r.
Proof.
  unfold outcome, pending. destruct (call c) as [i frame|kept body|message].
  - split; [discriminate|]. intros [r H]; discriminate.
  - rewrite fulfilled_waiting. split.
    + intros [n ->]. simpl. eauto.
    + intros [r H]. destruct (fulfilled body); [eauto|discriminate].
  - split; eauto.
Qed.

(** *** Counting the frames *)


Lemma load_app l1 l2 : load (l1 ++ l2) = load l1 + load l2.
Proof. unfold load. rewrite map_app, list_sum_app. reflexivity. Qed.

Lemma nestedCount_discovered frame base :
  nestedCount frame =
  length (discovered frame base) + load (discovered frame base).
Proof.
  unfold discovered, load. destruct frame as [message|body sub]; simpl; auto.
  generalize (iframeRefs body). intros refs. revert base.
  induction refs as [|r refs IH]; intros base; simpl; auto.
  rewrite (IH (S base)). lia.
Qed.

Lemma step_weight index c c' :
  step index c = Some c' ->
  length (frameLocators c') + load (pending c') =
  length (frameLocators c) + load (pending c).
Proof.
  intros H. destruct (step_spec _ _ _ H) as (b & f & a & P & P' & F).
  rewrite P, P', F, length_app, length_map, !load_app. simpl.
  unfold load at 5. simpl. fold (load a).
  rewrite (nestedCount_discovered f (length (frameLocators c))). lia.
Qed.

Lemma steps_weight order :
  forall c c',
    steps order c = Some c' ->
    length (frameLocators c') + load (pending c') =
    length (frameLocators c) + load (pending c).
Proof.
  induction order as [|i order IH]; intros c c' H; simpl in H.
  - inversion H; reflexivity.
  - destruct (step i c) as [c1|] eqn:E; [|discriminate].
    rewrite (IH _ _ H). eapply step_weight; eauto.
Qed.

(** A finished call has pushed itself and each iframe it came across. *)
Lemma snapshotFrame_length frameLocators0 frame order r fl :
  _snapshotFrame frameLocators0 frame order = Some (r, fl) ->
  length fl = length frameLocators0 + 1 + nestedCount frame.
Proof.
  unfold _snapshotFrame.
  destruct (steps order (enter frameLocators0 frame)) as [c|] eqn:E; [|discriminate].
  destruct (outcome c) as [r'|] eqn:O; [|discriminate].
  intros H; inversion H; subst.
  apply steps_weight in E.
  assert (P : pending c = []) by (apply outcome_pending; eauto).
  rewrite P in E. unfold enter, pending, load in E. simpl in E.
  rewrite length_app in E. simpl in E. lia.
Qed.

(** *** Every run can be completed *)


Lemma rank_app l1 l2 : rank (l1 ++ l2) = rank l1 + rank l2.
Proof. unfold rank. rewrite length_app, load_app. lia. Qed.

Lemma steps_app order1 order2 c :
  steps (order1 ++ order2) c =
  match steps order1 c with
  | Some c' => steps order2 c'
  | None => None
  end.
Proof.
  revert c. induction order1 as [|i order1 IH]; intros c; simpl; auto.
  destruct (step i c); auto.
Qed.

Lemma steps_complete n :
  forall c,
    rank (pending c) <= n ->
    exists order c', steps order c = Some c' /\ pending c' = [].
Proof.
  induction n as [|n IH]; intros c Hn.
  - exists [], c. split; auto.
    destruct (pending c); auto. unfold rank in Hn; simpl in Hn; lia.
  - destruct (pending c) as [|[i f] rest] eqn:P.
    + exists [], c. auto.
    + destruct (step_pending i c) as [c1 S1]; [rewrite P; simpl; auto|].
      destruct (step_spec _ _ _ S1) as (b & f' & a & Pc & Pc1 & F).
      destruct (IH c1) as (order & c' & S2 & P').
      { rewrite <- P, Pc, rank_app in Hn. rewrite Pc1, !rank_app.
        unfold rank at 2. rewrite <- nestedCount_discovered.
        replace (rank ((i, f') :: a)) with (S (nestedCount f') + rank a) in Hn
          by (unfold rank, load; simpl; lia).
        lia. }
      exists (i :: order), c'. simpl. rewrite S1. auto.
Qed.

Lemma snapshotFrame_total frameLocators0 frame :
  exists order r fl, _snapshotFrame frameLocators0 frame order = Some (r, fl).
Proof.
  destruct (steps_complete _ (enter frameLocators0 frame) (Nat.le_refl _))
    as (order & c & S & P).
  apply outcome_pending in P as [r O].
  exists order, r, (frameLocators c). unfold _snapshotFrame. rewrite S, O.
  reflexivity.
Qed.

(** A call throws exactly when its own [ariaSnapshot] does. *)
Lemma steps_visiting order :
  forall c kept body c',
    call c = Visiting kept body ->
    steps order c = Some c' ->
    exists body', call c' = Visiting kept body'.
Proof.
  induction order as [|i order IH]; intros c kept body c' Hc H; simpl in H.
  - inversion H; subst; eauto.
  - unfold step in H. rewrite Hc in H.
    destruct (settle i body (frameLocators c)) as [[body1 fl1]|]; [|discriminate].
    eapply IH; [|exact H]. reflexivity.
Qed.

Lemma snapshotFrame_reachable frameLocators0 body sub order r fl :
  _snapshotFrame frameLocators0 (Reachable body sub) order = Some (r, fl) ->
  exists doc, r = Ok doc.
Proof.
  unfold _snapshotFrame.
  destruct (steps order (enter frameLocators0 (Reachable body sub)))
    as [c|] eqn:E; [|discriminate].
  destruct (outcome c) as [r'|] eqn:O; [|discriminate].
  intros H; inversion H; subst.
  destruct order as [|i order]; simpl in E.
  - inversion E; subst. unfold outcome in O; simpl in O. discriminate.
  - unfold step in E. simpl in E.
    destruct (Nat.eqb (length frameLocators0) i); [|discriminate].
    destruct (visit (Reachable body sub) (length frameLocators0) body
                (frameLocators0 ++ [Reachable body sub])) as [b fl1].
    eapply steps_visiting in E as [body' Hc]; [|reflexivity].
    unfold outcome in O. rewrite Hc in O.
    destruct (fulfilled body'); inversion O; eauto.
Qed.

Lemma snapshotFrame_unreachable frameLocators0 message order r fl :
  _snapshotFrame frameLocators0 (Unreachable message) order = Some (r, fl) ->
  r = Err message.
Proof.
  unfold _snapshotFrame.
  destruct (steps order (enter frameLocators0 (Unreachable message)))
    as [c|] eqn:E; [|discriminate].
  destruct (outcome c) as [r'|] eqn:O; [|discriminate].
  intros H; inversion H; subst.
  destruct order as [|i order]; simpl in E.
  - inversion E; subst. unfold outcome in O; simpl in O. discriminate.
  - unfold step in E. simpl in E.
    destruct (Nat.eqb (length frameLocators0) i); [|discriminate].
    destruct order as [|j order]; simpl in E.
    + inversion E; subst. unfold outcome in O; simpl in O. congruence.
    + discriminate.
Qed.

(** *** Where the frames land *)


Lemma Placed_app fl extra i f : Placed fl i f -> Placed (fl ++ extra) i f.
Proof.
  intros (base & Hlt & H). exists base. split; auto.
  intros k ref Hk. apply lookup_app_l_Some. auto.
Qed.

Lemma discovered_lookup fl frame i f :
  In (i, f) (discovered frame (length fl)) ->
  (fl ++ map snd (discovered frame (length fl))) !! i = Some f.
Proof.
  unfold discovered. intros H.
  apply list_elem_of_In, list_elem_of_lookup in H as [k Hk].
  assert (Hlt : k < length (refsOf frame)).
  { apply lookup_lt_Some in Hk. rewrite children_length in Hk. exact Hk. }
  destruct (lookup_lt_is_Some_2 (refsOf frame) k Hlt) as [ref Hr].
  rewrite (children_lookup _ _ _ _ _ Hr) in Hk. inversion Hk; subst.
  rewrite lookup_app_r by lia.
  replace (length fl + k - length fl) with k by lia.
  rewrite list_lookup_fmap, (children_lookup _ _ _ _ _ Hr). reflexivity.
Qed.

Lemma discovered_In fl frame i f :
  length fl <= i ->
  (fl ++ map snd (discovered frame (length fl))) !! i = Some f ->
  In (i, f) (discovered frame (length fl)).
Proof.
  unfold discovered. intros Hle H. rewrite lookup_app_r in H by lia.
  rewrite list_lookup_fmap in H.
  destruct (children frame (length fl) (refsOf frame) !! (i - length fl))
    as [[j g]|] eqn:E; [|discriminate].
  simpl in H. inversion H; subst.
  assert (Hlt : i - length fl < length (refsOf frame)).
  { apply lookup_lt_Some in E. rewrite children_length in E. exact E. }
  destruct (lookup_lt_is_Some_2 (refsOf frame) _ Hlt) as [ref Hr].
  pose proof E as E'. rewrite (children_lookup _ _ _ _ _ Hr) in E'.
  inversion E'; subst.
  apply list_elem_of_In, list_elem_of_lookup. exists (i - length fl).
  rewrite E. do 2 f_equal. lia.
Qed.

Lemma Tracked_enter frameLocators0 frame :
  Tracked (length frameLocators0) (enter frameLocators0 frame).
Proof.
  unfold Tracked, enter, pending; simpl. split.
  - intros i f [H|[]]. inversion H; subst.
    rewrite lookup_app_r by lia. rewrite Nat.sub_diag. reflexivity.
  - intros i f Hle H. left. left.
    assert (i < length (frameLocators0 ++ [frame]))
      by (eapply lookup_lt_Some; eauto).
    rewrite length_app in H0; simpl in H0.
    assert (i = length frameLocators0) by lia. subst i.
    rewrite lookup_app_r in H by lia. rewrite Nat.sub_diag in H.
    inversion H; reflexivity.
Qed.

Lemma Tracked_step first index c c' :
  Tracked first c -> step index c = Some c' -> Tracked first c'.
Proof.
  intros [Ha Hb] S.
  destruct (step_spec _ _ _ S) as (b & fr & a & P & P' & F).
  split.
  - intros i f Hin. rewrite P' in Hin. rewrite F.
    rewrite !in_app_iff in Hin. destruct Hin as [Hin|[Hin|Hin]].
    + apply lookup_app_l_Some, Ha. rewrite P, in_app_iff. auto.
    + apply discovered_lookup; auto.
    + apply lookup_app_l_Some, Ha. rewrite P, in_app_iff. simpl. auto.
  - intros i f Hle Hi. rewrite F in Hi. rewrite P', F.
    destruct (Nat.lt_ge_cases i (length (frameLocators c))) as [Hlt|Hge].
    + rewrite lookup_app_l in Hi by lia.
      destruct (Hb i f Hle Hi) as [Hin|Hp].
      * rewrite P, in_app_iff in Hin. simpl in Hin.
        destruct Hin as [Hin|[Heq|Hin]].
        -- left. rewrite !in_app_iff. auto.
        -- inversion Heq; subst. right.
           exists (length (frameLocators c)). split; auto.
           intros k ref Hk. apply discovered_lookup.
           unfold discovered. apply list_elem_of_In, list_elem_of_lookup.
           exists k. apply children_lookup; auto.
        -- left. rewrite !in_app_iff. auto.
      * right. apply Placed_app; auto.
    + left. rewrite !in_app_iff. right; left. apply discovered_In; auto.
Qed.

Lemma Tracked_steps first order :
  forall c c', Tracked first c -> steps order c = Some c' -> Tracked first c'.
Proof.
  induction order as [|i order IH]; intros c c' T H; simpl in H.
  - inversion H; subst; auto.
  - destruct (step i c) as [c1|] eqn:E; [|discriminate].
    eapply IH; [|exact H]. eapply Tracked_step; eauto.
Qed.

Lemma steps_prefix order :
  forall c c',
    steps order c = Some c' ->
    exists extra, frameLocators c' = frameLocators c ++ extra.
Proof.
  induction order as [|i order IH]; intros c c' H; simpl in H.
  - inversion H; subst. exists []. rewrite app_nil_r. reflexivity.
  - destruct (step i c) as [c1|] eqn:E; [|discriminate].
    destruct (IH _ _ H) as [extra Hx].
    destruct (step_spec _ _ _ E) as (b & fr & a & _ & _ & F).
    rewrite Hx, F, <- app_assoc. eauto.
Qed.

(** In a finished call every frame pushed by it has its iframes placed, and
    the frame the call was made for comes first. *)
Lemma snapshotFrame_placed frameLocators0 frame order r fl :
  _snapshotFrame frameLocators0 frame order = Some (r, fl) ->
  fl !! length frameLocators0 = Some frame /\
  forall i f,
    length frameLocators0 <= i -> fl !! i = Some f -> Placed fl i f.
Proof.
  unfold _snapshotFrame.
  destruct (steps order (enter frameLocators0 frame)) as [c|] eqn:E; [|discriminate].
  destruct (outcome c) as [r'|] eqn:O; [|discriminate].
  intros H; inversion H; subst. split.
  - destruct (steps_prefix _ _ _ E) as [extra ->]. simpl.
    rewrite <- app_assoc. rewrite lookup_app_r by lia.
    rewrite Nat.sub_diag. reflexivity.
  - intros i f Hle Hi.
    destruct (Tracked_steps _ _ _ _ (Tracked_enter frameLocators0 frame) E)
      as [_ Hb].
    destruct (Hb i f Hle Hi) as [Hin|Hp]; auto.
    assert (P : pending c = []) by (apply outcome_pending; eauto).
    rewrite P in Hin. destruct Hin.
Qed.

(** *** Following one placeholder through a capture *)


Lemma visitItems_nth frame frameIndex items :
  forall fl ts fl' n item,
    visitItems frame frameIndex items fl = (ts, fl') ->
    nth_error items n = Some item ->
    exists t fl1 fl2,
      nth_error ts n = Some t /\ visit frame frameIndex item fl1 = (t, fl2).
Proof.
  induction items as [|x items IH]; intros fl ts fl' n item E Hn.
  - destruct n; discriminate.
  - simpl in E.
    destruct (visit frame frameIndex x fl) as [t fl1] eqn:E1.
    destruct (visitItems frame frameIndex items fl1) as [ts' fl2] eqn:E2.
    inversion E; subst. destruct n as [|n]; simpl in *.
    + inversion Hn; subst. eauto.
    + eapply IH; eauto.
Qed.

Lemma visit_at frame frameIndex node :
  forall path fl t fl' value ref,
    visit frame frameIndex node fl = (t, fl') ->
    nodeAt path node = Some (YScalar (VString value)) ->
    iframeRef value = Some ref ->
    exists index,
      taskAt path t =
      Some (Request (rewriteRef frameIndex value) index
              (frameLocator frame (ariaRef ref))).
Proof.
  induction node as [v|k v IHk IHv|items IH|items IH|] using YNode_induction;
    intros path fl t fl' value ref E Hp Hr.
  - destruct path as [|turn rest]; [|destruct turn; discriminate].
    simpl in Hp. inversion Hp; subst. simpl in E. rewrite Hr in E.
    inversion E; subst. simpl. eauto.
  - simpl in E.
    destruct (visit frame frameIndex k fl) as [tk fl1] eqn:E1.
    destruct (visit frame frameIndex v fl1) as [tv fl2] eqn:E2.
    inversion E; subst.
    destruct path as [|[| |i] rest]; simpl in *; try discriminate; eauto.
  - rewrite visit_seq in E.
    destruct (visitItems frame frameIndex items fl) as [ts fl1] eqn:E1.
    inversion E; subst.
    destruct path as [|[| |i] rest]; simpl in *; try discriminate.
    destruct (nth_error items i) as [item|] eqn:Hi; [|discriminate].
    destruct (visitItems_nth _ _ _ _ _ _ _ _ E1 Hi) as (t & fa & fb & Ht & Ev).
    rewrite Ht. rewrite Forall_forall in IH.
    eapply IH; eauto. apply list_elem_of_In. eapply nth_error_In; eauto.
  - rewrite visit_map in E.
    destruct (visitItems frame frameIndex items fl) as [ts fl1] eqn:E1.
    inversion E; subst.
    destruct path as [|[| |i] rest]; simpl in *; try discriminate.
    destruct (nth_error items i) as [item|] eqn:Hi; [|discriminate].
    destruct (visitItems_nth _ _ _ _ _ _ _ _ E1 Hi) as (t & fa & fb & Ht & Ev).
    rewrite Ht. rewrite Forall_forall in IH.
    eapply IH; eauto. apply list_elem_of_In. eapply nth_error_In; eauto.
  - destruct path as [|turn rest]; [|destruct turn; discriminate].
    discriminate.
Qed.

Lemma settleItems_nth index fl items :
  forall items' fl' n item,
    settleItems index fl items = Some (items', fl') ->
    nth_error items n = Some item ->
    exists item',
      nth_error items' n = Some item' /\
      (item' = item \/ settle index item fl = Some (item', fl')).
Proof.
  induction items as [|x items IH]; intros items' fl' n item E Hn.
  - discriminate.
  - simpl in E. destruct (settle index x fl) as [[x' fl1]|] eqn:E1.
    + inversion E; subst. destruct n as [|n]; simpl in *.
      * inversion Hn; subst. eauto.
      * eauto.
    + destruct (settleItems index fl items) as [[rest' fl1]|] eqn:E2;
        [|discriminate].
      inversion E; subst. destruct n as [|n]; simpl in *.
      * inversion Hn; subst. eauto.
      * eapply IH; eauto.
Qed.

Lemma settle_at index key t :
  forall path x fl t' fl',
    settle index t fl = Some (t', fl') ->
    taskAt path t = Some x ->
    Placeholder key x ->
    exists x', taskAt path t' = Some x' /\ Placeholder key x'.
Proof.
  induction t as [n|k v IHk IHv|items IH|items IH|key' i frame|key' kept body IH]
    using Task_induction; intros path x fl t' fl' E Hp Hx.
  - discriminate.
  - simpl in E. destruct (settle index k fl) as [[k' fl1]|] eqn:E1.
    + inversion E; subst.
      destruct path as [|[| |i] rest]; simpl in *; try discriminate; eauto.
      inversion Hp; subst. destruct Hx as [(? & ? & ?)|?]; discriminate.
    + destruct (settle index v fl) as [[v' fl1]|] eqn:E2; [|discriminate].
      inversion E; subst.
      destruct path as [|[| |i] rest]; simpl in *; try discriminate; eauto.
      inversion Hp; subst. destruct Hx as [(? & ? & ?)|?]; discriminate.
  - rewrite settle_seq in E.
    destruct (settleItems index fl items) as [[items' fl1]|] eqn:E1;
      [|discriminate].
    inversion E; subst.
    destruct path as [|[| |i] rest]; simpl in *; try discriminate.
    + inversion Hp; subst. destruct Hx as [(? & ? & ?)|?]; discriminate.
    + destruct (nth_error items i) as [item|] eqn:Hi; [|discriminate].
      destruct (settleItems_nth _ _ _ _ _ _ _ E1 Hi) as (item' & Hi' & [->|Es]).
      * rewrite Hi'. eauto.
      * rewrite Hi'. rewrite Forall_forall in IH.
        eapply IH; eauto. apply list_elem_of_In. eapply nth_error_In; eauto.
  - rewrite settle_map in E.
    destruct (settleItems index fl items) as [[items' fl1]|] eqn:E1;
      [|discriminate].
    inversion E; subst.
    destruct path as [|[| |i] rest]; simpl in *; try discriminate.
    + inversion Hp; subst. destruct Hx as [(? & ? & ?)|?]; discriminate.
    + destruct (nth_error items i) as [item|] eqn:Hi; [|discriminate].
      destruct (settleItems_nth _ _ _ _ _ _ _ E1 Hi) as (item' & Hi' & [->|Es]).
      * rewrite Hi'. eauto.
      * rewrite Hi'. rewrite Forall_forall in IH.
        eapply IH; eauto. apply list_elem_of_In. eapply nth_error_In; eauto.
  - destruct path as [|turn rest]; [|destruct turn; discriminate].
    simpl in Hp. inversion Hp; subst.
    destruct Hx as [(j & message & Hx)|Hx]; [|discriminate].
    inversion Hx; subst. simpl in E.
    destruct (Nat.eqb j index); [|discriminate].
    inversion E; subst. exists (Settled (createPair key (YScalar (VString unavailable)))).
    split; [reflexivity|]. right; reflexivity.
  - destruct path as [|turn rest]; [|destruct turn; discriminate].
    simpl in Hp. inversion Hp; subst.
    destruct Hx as [(? & ? & ?)|?]; discriminate.
Qed.

Lemma fulfilledItems_nth items :
  forall nodes n t,
    fulfilledItems items = Some nodes ->
    nth_error items n = Some t ->
    exists node, nth_error nodes n = Some node /\ fulfilled t = Some node.
Proof.
  induction items as [|x items IH]; intros nodes n t E Hn.
  - destruct n; discriminate.
  - simpl in E. destruct (fulfilled x) as [d|] eqn:E1; [|discriminate].
    destruct (fulfilledItems items) as [ds|] eqn:E2; [|discriminate].
    inversion E; subst. destruct n as [|n]; simpl in *.
    + inversion Hn; subst. eauto.
    + eapply IH; eauto.
Qed.

Lemma fulfilled_at key t :
  forall path x doc,
    fulfilled t = Some doc ->
    taskAt path t = Some x ->
    Placeholder key x ->
    nodeAt path doc = Some (createPair key (YScalar (VString unavailable))).
Proof.
  induction t as [n|k v IHk IHv|items IH|items IH|key' i frame|key' kept body IH]
    using Task_induction; intros path x doc E Hp Hx.
  - destruct path as [|turn rest]; [|destruct turn; discriminate].
    simpl in *. inversion Hp; subst. inversion E; subst.
    destruct Hx as [(? & ? & ?)|Hx]; [discriminate|]. inversion Hx; reflexivity.
  - simpl in E. destruct (fulfilled k) as [dk|] eqn:E1; [|discriminate].
    destruct (fulfilled v) as [dv|] eqn:E2; [|discriminate].
    inversion E; subst.
    destruct path as [|[| |i] rest]; simpl in *; try discriminate; eauto.
    inversion Hp; subst. destruct Hx as [(? & ? & ?)|?]; discriminate.
  - rewrite fulfilled_seq in E.
    destruct (fulfilledItems items) as [ds|] eqn:E1; [|discriminate].
    inversion E; subst.
    destruct path as [|[| |i] rest]; simpl in *; try discriminate.
    + inversion Hp; subst. destruct Hx as [(? & ? & ?)|?]; discriminate.
    + destruct (nth_error items i) as [item|] eqn:Hi; [|discriminate].
      destruct (fulfilledItems_nth _ _ _ _ E1 Hi) as (d & Hd & Ed).
      rewrite Hd. rewrite Forall_forall in IH.
      eapply IH; eauto. apply list_elem_of_In. eapply nth_error_In; eauto.
  - rewrite fulfilled_map in E.
    destruct (fulfilledItems items) as [ds|] eqn:E1; [|discriminate].
    inversion E; subst.
    destruct path as [|[| |i] rest]; simpl in *; try discriminate.
    + inversion Hp; subst. destruct Hx as [(? & ? & ?)|?]; discriminate.
    + destruct (nth_error items i) as [item|] eqn:Hi; [|discriminate].
      destruct (fulfilledItems_nth _ _ _ _ E1 Hi) as (d & Hd & Ed).
      rewrite Hd. rewrite Forall_forall in IH.
      eapply IH; eauto. apply list_elem_of_In. eapply nth_error_In; eauto.
  - discriminate.
  - destruct path as [|turn rest]; [|destruct turn; discriminate].
    simpl in Hp. inversion Hp; subst.
    destruct Hx as [(? & ? & ?)|?]; discriminate.
Qed.

Lemma steps_at key order :
  forall c kept body c' path x,
    call c = Visiting kept body ->
    steps order c = Some c' ->
    taskAt path body = Some x ->
    Placeholder key x ->
    exists body' x',
      call c' = Visiting kept body' /\
      taskAt path body' = Some x' /\ Placeholder key x'.
Proof.
  induction order as [|i order IH]; intros c kept body c' path x Hc H Hp Hx;
    simpl in H.
  - inversion H; subst. eauto.
  - unfold step in H. rewrite Hc in H.
    destruct (settle i body (frameLocators c)) as [[body1 fl1]|] eqn:E;
      [|discriminate].
    destruct (settle_at _ _ _ _ _ _ _ _ E Hp Hx) as (x1 & Hp1 & Hx1).
    eapply IH; [|exact H|exact Hp1|exact Hx1]. reflexivity.
Qed.

(** A finished call hands back, at each iframe placeholder below the root of
    its document whose nested snapshot threw, the pair of the [catch]
    block. *)
Lemma snapshotFrame_unavailable frameLocators0 body sub order doc fl
    path value ref message :
  _snapshotFrame frameLocators0 (Reachable body sub) order = Some (Ok doc, fl) ->
  path <> [] ->
  nodeAt path body = Some (YScalar (VString value)) ->
  iframeRef value = Some ref ->
  ariaSnapshot (sub (ariaRef ref)) = Err message ->
  nodeAt path doc =
  Some (createPair (rewriteRef (length frameLocators0) value)
          (YScalar (VString unavailable))).
Proof.
  unfold _snapshotFrame. intros H Hne Hp Hr Ha.
  destruct (steps order (enter frameLocators0 (Reachable body sub)))
    as [c|] eqn:E; [|discriminate].
  destruct (outcome c) as [r'|] eqn:O; [|discriminate].
  inversion H; subst. clear H.
  destruct order as [|i order]; simpl in E.
  - inversion E; subst. unfold outcome in O; simpl in O. discriminate.
  - unfold step in E. simpl in E.
    destruct (Nat.eqb (length frameLocators0) i); [|discriminate].
    destruct (visit (Reachable body sub) (length frameLocators0) body
                (frameLocators0 ++ [Reachable body sub])) as [b fl1] eqn:Ev.
    destruct (visit_at _ _ _ _ _ _ _ _ _ Ev Hp Hr) as [j Hj].
    simpl in Hj.
    destruct (sub (ariaRef ref)) as [m|? ?] eqn:Es; simpl in Ha; [|discriminate].
    assert (Hx : Placeholder (rewriteRef (length frameLocators0) value)
                   (Request (rewriteRef (length frameLocators0) value) j
                      (Unreachable m))) by (left; eauto).
    destruct (steps_at _ order
                {| frameLocators := fl1;
                   call := Visiting (keptContents (length frameLocators0) body) b |}
                _ _ _ path _ eq_refl E Hj Hx)
      as (body' & x' & Hc & Hp' & Hx').
    unfold outcome in O. rewrite Hc in O.
    destruct (fulfilled body') as [n|] eqn:Ef; [|discriminate].
    simpl in O. inversion O; subst.
    assert (K : keptContents (length frameLocators0) body = None).
    { destruct body as [[v|s]| | | |]; simpl; auto.
      destruct path as [|turn rest]; [congruence|].
      destruct turn; discriminate. }
    rewrite K. simpl. eapply fulfilled_at; eauto.
Qed.

(** *** The frames of a capture are the frames of the tree *)

Lemma depthFirst_below frame : depthFirst frame = frame :: below frame.
Proof. destruct frame; reflexivity. Qed.

Lemma owed_app l1 l2 : owed (l1 ++ l2) = owed l1 ++ owed l2.
Proof. unfold owed. rewrite map_app, concat_app. reflexivity. Qed.

Lemma below_discovered frame base :
  Permutation (below frame)
    (map snd (discovered frame base) ++ owed (discovered frame base)).
Proof.
  unfold discovered, owed. destruct frame as [message|body sub]; simpl;
    [constructor|].
  generalize (iframeRefs body). intros refs. revert base.
  induction refs as [|r refs IH]; intros base; simpl; [constructor|].
  rewrite depthFirst_below. simpl. apply perm_skip.
  rewrite (IH (S base)) at 1. apply Permutation_app_swap_app.
Qed.

Lemma owed_cons p l : owed (p :: l) = below (snd p) ++ owed l.
Proof. reflexivity. Qed.

Lemma step_frames index c c' :
  step index c = Some c' ->
  Permutation (frameLocators c' ++ owed (pending c'))
    (frameLocators c ++ owed (pending c)).
Proof.
  intros H. destruct (step_spec _ _ _ H) as (b & f & a & P & P' & F).
  rewrite P, P', F, !owed_app, owed_cons. simpl snd. rewrite (below_discovered f (length (frameLocators c))).
  rewrite <- !app_assoc. apply Permutation_app_head.
  apply Permutation_app_swap_app.
Qed.

Lemma steps_frames order :
  forall c c',
    steps order c = Some c' ->
    Permutation (frameLocators c' ++ owed (pending c'))
      (frameLocators c ++ owed (pending c)).
Proof.
  induction order as [|i order IH]; intros c c' H; simpl in H.
  - inversion H; reflexivity.
  - destruct (step i c) as [c1|] eqn:E; [|discriminate].
    rewrite (IH _ _ H). eapply step_frames; eauto.
Qed.

Lemma snapshotFrame_frames frameLocators0 frame order r fl :
  _snapshotFrame frameLocators0 frame order = Some (r, fl) ->
  Permutation fl (frameLocators0 ++ depthFirst frame).
Proof.
  unfold _snapshotFrame.
  destruct (steps order (enter frameLocators0 frame)) as [c|] eqn:E; [|discriminate].
  destruct (outcome c) as [r'|] eqn:O; [|discriminate].
  intros H; inversion H; subst.
  apply steps_frames in E.
  assert (P : pending c = []) by (apply outcome_pending; eauto).
  rewrite P in E. unfold owed at 1 in E. simpl in E. rewrite app_nil_r in E.
  rewrite E. unfold enter, pending, owed. simpl.
  rewrite app_nil_r, depthFirst_below, <- app_assoc. reflexivity.
Qed.

(** ** Properties of the session *)

Lemma indexOf_lookup x l index : indexOf x l = Some index -> l !! index = Some x.
Proof.
  revert index. induction l as [|y l IH]; intros index H; simpl in H;
    [discriminate|].
  destruct (Nat.eqb y x) eqn:E.
  - inversion H; subst. apply Nat.eqb_eq in E. subst. reflexivity.
  - destruct (indexOf x l) as [i|]; [|discriminate]. inversion H; subst.
    simpl. apply IH. reflexivity.
Qed.

Lemma indexOf_In x l : In x l -> exists index, indexOf x l = Some index.
Proof.
  induction l as [|y l IH]; intros H; simpl in *; [destruct H|].
  destruct (Nat.eqb y x) eqn:E; [eauto|].
  destruct H as [H|H]; [subst; rewrite Nat.eqb_refl in E; discriminate|].
  destruct (IH H) as [i ->]. simpl. eauto.
Qed.

Lemma In_delete_other (l : list Tab) index x y :
  l !! index = Some x -> y <> x -> In y l -> In y (delete index l).
Proof.
  revert index. induction l as [|z l IH]; intros index Hx Hne Hy;
    [destruct Hy|].
  destruct index as [|index]; simpl in *.
  - inversion Hx; subst. destruct Hy as [Hy|Hy]; [congruence|exact Hy].
  - destruct Hy as [Hy|Hy]; [left; exact Hy|right; eapply IH; eauto].
Qed.

Lemma In_delete {A : Type} (l : list A) index x :
  In x (delete index l) -> In x l.
Proof.
  revert index. induction l as [|z l IH]; intros index H; [destruct index; exact H|].
  destruct index as [|index]; simpl in *.
  - right; exact H.
  - destruct H as [H|H]; [left; exact H|right; eapply IH; eauto].
Qed.

Lemma snapshot_handle e c : _snapshot (handle e c) = _snapshot c.
Proof.
  destruct e; simpl; try reflexivity.
  unfold _onPageClosed. destruct (indexOf t (_tabs c)); reflexivity.
Qed.

Lemma deliver_cons e events c :
  deliver (e :: events) c = deliver events (handle e c).
Proof. reflexivity. Qed.

Lemma snapshot_deliver events :
  forall c, _snapshot (deliver events c) = _snapshot c.
Proof.
  induction events as [|e events IH]; intros c; [reflexivity|].
  rewrite deliver_cons, IH. apply snapshot_handle.
Qed.

(** The modal states do not bear on the tabs, the selection and the
    snapshots. *)
Lemma sameTabs_refl c : sameTabs c c.
Proof. repeat split. Qed.

Lemma sameTabs_trans c1 c2 c3 : sameTabs c1 c2 -> sameTabs c2 c3 -> sameTabs c1 c3.
Proof.
  intros (A1 & A2 & A3 & A4) (B1 & B2 & B3 & B4).
  repeat split; congruence.
Qed.

Lemma sameTabs_sym c1 c2 : sameTabs c1 c2 -> sameTabs c2 c1.
Proof. intros (A1 & A2 & A3 & A4). repeat split; congruence. Qed.

Lemma sameTabs_handle e c c' :
  sameTabs c c' -> sameTabs (handle e c) (handle e c').
Proof.
  intros (A1 & A2 & A3 & A4). destruct e; simpl; try (repeat split; assumption).
  - unfold _onPageClosed. rewrite <- A1.
    destruct (indexOf t (_tabs c)); repeat split; simpl;
      rewrite <- ?A2, <- ?A4; congruence.
  - repeat split; simpl; rewrite <- ?A1, <- ?A2, <- ?A3, <- ?A4; reflexivity.
Qed.

Lemma sameTabs_dialog t dialogType message c :
  sameTabs (handle (DialogOpened t dialogType message) c) c.
Proof. repeat split. Qed.

Lemma withoutDialogs_cons e events :
  withoutDialogs (e :: events) =
  if isDialogOpened e then withoutDialogs events else e :: withoutDialogs events.
Proof. unfold withoutDialogs. simpl. destruct (isDialogOpened e); reflexivity. Qed.

Lemma sameTabs_withoutDialogs events :
  forall c c',
    sameTabs c c' ->
    sameTabs (deliver events c) (deliver (withoutDialogs events) c').
Proof.
  induction events as [|e events IH]; intros c c' H; [exact H|].
  rewrite deliver_cons, withoutDialogs_cons.
  destruct (isDialogOpened e) eqn:E.
  - apply IH. destruct e; try discriminate.
    eapply sameTabs_trans; [apply sameTabs_dialog|exact H].
  - rewrite deliver_cons. apply IH. apply sameTabs_handle. exact H.
Qed.

Lemma sameTabs_late events events' c :
  withoutDialogs events = withoutDialogs events' ->
  sameTabs (deliver events c) (deliver events' c).
Proof.
  intros H. eapply sameTabs_trans.
  - apply sameTabs_withoutDialogs, sameTabs_refl.
  - rewrite H. apply sameTabs_sym, sameTabs_withoutDialogs, sameTabs_refl.
Qed.

(** *** The race *)

Lemma blocked_app states state :
  type state = dialog ->
  existsb (fun s => ModalType_eqb (type s) dialog) (states ++ [state]) = true.
Proof.
  intros H. rewrite existsb_app. simpl. rewrite H. simpl.
  apply orb_true_r.
Qed.

Lemma blocked_kept e c :
  keepsModalStates e = true ->
  _javaScriptBlocked c = true ->
  _javaScriptBlocked (handle e c) = true.
Proof.
  unfold _javaScriptBlocked.
  destruct e; simpl; intros K H; try discriminate; try assumption;
    rewrite existsb_app, H; reflexivity.
Qed.

Lemma blocked_deliver events :
  forall c,
    forallb keepsModalStates events = true ->
    _javaScriptBlocked c = true ->
    _javaScriptBlocked (deliver events c) = true.
Proof.
  induction events as [|e events IH]; intros c K H; [exact H|].
  simpl in K. apply andb_prop in K as [K1 K2].
  rewrite deliver_cons. apply IH; [exact K2|]. apply blocked_kept; assumption.
Qed.

Lemma pending_handle e c :
  isDialogOpened e = false -> _pendingAction (handle e c) = _pendingAction c.
Proof.
  destruct e; simpl; intros H; try discriminate; try reflexivity.
  unfold _onPageClosed. destruct (indexOf t (_tabs c)); reflexivity.
Qed.

(** A dialog that opens while the action is in flight wins the race: the
    action's result is dropped and scripts are blocked. *)
Lemma race_dialog events settled :
  forall c,
    existsb isDialogOpened events = true ->
    _pendingAction c = Some false ->
    exists c',
      race events settled c = (c', Ok None, DialogWon) /\
      _javaScriptBlocked c' = true.
Proof.
  induction events as [|e events IH]; intros c Hd Hp; simpl in Hd;
    [discriminate|].
  simpl. destruct (isDialogOpened e) eqn:E.
  - destruct e; try discriminate. simpl.
    unfold dialogSignalled, dialogShown. simpl. rewrite Hp. simpl.
    eexists. split; [reflexivity|].
    unfold _javaScriptBlocked. simpl. apply blocked_app. reflexivity.
  - simpl in Hd. unfold dialogSignalled.
    rewrite (pending_handle e c E), Hp.
    apply IH; [exact Hd|]. rewrite (pending_handle e c E). exact Hp.
Qed.

(** Without a dialog the action settles, after all its events. *)
Lemma race_settles events settled :
  forall c,
    existsb isDialogOpened events = false ->
    _pendingAction c = Some false ->
    race events settled c =
    (deliver events c, settled, ActionSettled (isOk settled)).
Proof.
  induction events as [|e events IH]; intros c Hd Hp; simpl in Hd;
    [reflexivity|].
  apply orb_false_elim in Hd as [E Hd]. simpl. unfold dialogSignalled.
  rewrite (pending_handle e c E), Hp. rewrite deliver_cons.
  apply IH; [exact Hd|]. rewrite (pending_handle e c E). exact Hp.
Qed.

Lemma race_moment events settled :
  forall c c' result moment,
    race events settled c = (c', result, moment) ->
    moment = DialogWon \/ moment = ActionSettled (isOk settled).
Proof.
  induction events as [|e events IH]; intros c c' result moment H; simpl in H.
  - inversion H; auto.
  - destruct (dialogSignalled (handle e c)); [inversion H; auto|eauto].
Qed.

Lemma racingAction_moments tr c :
  match action tr with
  | Some a =>
      exists m,
        moments (racingAction tr c) = [ActionCalled; m] /\
        (m = DialogWon \/ m = ActionSettled (isOk (settles a)))
  | None => moments (racingAction tr c) = []
  end.
Proof.
  unfold racingAction. destruct (action tr) as [a|]; [|reflexivity].
  unfold _raceAgainstModalDialogs.
  destruct (race (during a) (settles a) (withPendingAction (Some false) c))
    as [[c' result] moment] eqn:E.
  exists moment. split; [reflexivity|]. eapply race_moment; eauto.
Qed.

Lemma runAction_moments env tr c :
  moments (runAction env tr c) = moments (racingAction tr c).
Proof.
  unfold runAction, waitForCompletion. destruct (waitForNetwork tr); [|reflexivity].
  destruct (racingAction tr c) as [[c' [items|message]] ms]; reflexivity.
Qed.

(** ** The claims about the builder *)

Lemma allReachable_page : allReachable Pages.page.
Proof.
  simpl. repeat constructor.
Qed.

Lemma create_spec page order snapshot :
  create page order = Some (Ok snapshot) ->
  _snapshotFrame [] page order =
  Some (Ok (document snapshot), _frameLocators snapshot).
Proof.
  unfold create. destruct (_snapshotFrame [] page order) as [[[doc|m] fl]|];
    intros H; inversion H; subst; reflexivity.
Qed.

Lemma create_total page :
  allReachable page -> exists order snapshot, create page order = Some (Ok snapshot).
Proof.
  intros Hr. destruct (snapshotFrame_total [] page) as (order & r & fl & H).
  destruct page as [message|body sub]; [destruct Hr|].
  destruct (snapshotFrame_reachable _ _ _ _ _ _ H) as [doc ->].
  exists order, {| _frameLocators := fl; document := doc |}.
  unfold create. rewrite H. reflexivity.
Qed.

(** C1, amended: a capture of a page with N nested iframes, all of which can
    be captured, ends and leaves exactly N+1 frames in the frame list: the
    frames of the tree, the page at index 0.  Each frame is appended before
    the frames nested in it, and the iframes found in one frame's tree are
    appended together, in document order, when that tree arrives: they take
    consecutive indices before any of them is descended into.  This holds in
    whatever order the driver answers. *)
Theorem C1_frames_counted_and_placed (page : Frame) :
  allReachable page ->
  (exists order snapshot, create page order = Some (Ok snapshot)) /\
  forall order snapshot,
    create page order = Some (Ok snapshot) ->
    length (_frameLocators snapshot) = nestedCount page + 1 /\
    Permutation (_frameLocators snapshot) (depthFirst page) /\
    _frameLocators snapshot !! 0 = Some page /\
    forall index body sub,
      _frameLocators snapshot !! index = Some (Reachable body sub) ->
      exists base,
        index < base /\
        forall k ref,
          iframeRefs body !! k = Some ref ->
          _frameLocators snapshot !! (base + k) = Some (sub (ariaRef ref)).
Proof.
  intros Hr. split; [apply create_total; exact Hr|].
  intros order snapshot H. apply create_spec in H.
  pose proof (snapshotFrame_length _ _ _ _ _ H) as Hlen.
  destruct (snapshotFrame_placed _ _ _ _ _ H) as [H0 Hp].
  pose proof (snapshotFrame_frames _ _ _ _ _ H) as Hperm.
  simpl in Hlen, H0, Hperm. repeat split.
  - lia.
  - exact Hperm.
  - exact H0.
  - intros index body sub Hi.
    destruct (Hp index _ (Nat.le_0_l _) Hi) as (base & Hlt & Hk).
    exists base. split; [exact Hlt|]. exact Hk.
Qed.

Lemma C1_frames_witness :
  exists snapshot,
    create Pages.page [0; 1; 2; 3] = Some (Ok snapshot) /\
    length (_frameLocators snapshot) = nestedCount Pages.page + 1.
Proof.
  eexists. split; [reflexivity|].
  apply (proj2 (C1_frames_counted_and_placed Pages.page allReachable_page)
           [0; 1; 2; 3]).
  reflexivity.
Defined.

(** C1 as stated fails: on a page with two sibling iframes, the first of
    which holds a third, every capture lists the second sibling before the
    frame nested in the first, where depth-first order has it after.  The
    visit of the page's sequence calls [visit] on both placeholders in one
    turn, so both frames are pushed, at 1 and 2, before the text of the first
    arrives; the frame nested in the first is pushed, at 3, when that text is
    visited. *)
Lemma C1_depth_first_counterexample :
  allReachable Pages.page /\
  depthFirst Pages.page = [Pages.page; Pages.first; Pages.inner; Pages.second] /\
  (exists snapshot,
     create Pages.page [0; 1; 2; 3] = Some (Ok snapshot) /\
     _frameLocators snapshot =
       [Pages.page; Pages.first; Pages.second; Pages.inner]) /\
  forall order snapshot,
    create Pages.page order = Some (Ok snapshot) ->
    _frameLocators snapshot <> depthFirst Pages.page.
Proof.
  split; [exact allReachable_page|]. split; [reflexivity|]. split.
  - eexists. split; reflexivity.
  - intros order snapshot H Heq. apply create_spec in H.
    destruct (snapshotFrame_placed _ _ _ _ _ H) as [H0 Hp].
    destruct (Hp 0 _ (Nat.le_0_l _) H0) as (base & Hlt & Hk).
    pose proof (Hk 0 "e1" eq_refl) as H1. pose proof (Hk 1 "e2" eq_refl) as H2.
    rewrite Heq in H1, H2. change (depthFirst Pages.page) with
      [Pages.page; Pages.first; Pages.inner; Pages.second] in H1, H2.
    destruct base as [|[|[|[|base]]]]; simpl in H1, H2; try lia;
      try discriminate; inversion H2; inversion H1.
Qed.

(** C3: a call of [_snapshotFrame] whose own snapshot text arrives returns a
    document, whatever happens in the frames nested in it and in whatever
    order the driver answers; and wherever that text has an iframe
    placeholder whose nested snapshot attempt throws, the returned document
    has, in its place, the pair of the placeholder (with the call's own
    frame prefix) and the literal "<could not take iframe snapshot>".  The
    driver's text is a list of entries, so a placeholder lies below the root
    of the document, [path <> []]. *)
Theorem C3_failed_iframe_becomes_placeholder
    (frameLocators0 : list Frame) (body : YNode) (sub : string -> Frame) :
  (exists order doc fl,
     _snapshotFrame frameLocators0 (Reachable body sub) order = Some (Ok doc, fl)) /\
  forall order r fl,
    _snapshotFrame frameLocators0 (Reachable body sub) order = Some (r, fl) ->
    exists doc,
      r = Ok doc /\
      forall path value ref message,
        path <> [] ->
        nodeAt path body = Some (YScalar (VString value)) ->
        iframeRef value = Some ref ->
        ariaSnapshot (sub (ariaRef ref)) = Err message ->
        nodeAt path doc =
        Some (YPair
                (YScalar (VString (rewriteRef (length frameLocators0) value)))
                (YScalar (VString "<could not take iframe snapshot>"))).
Proof.
  split.
  - destruct (snapshotFrame_total frameLocators0 (Reachable body sub))
      as (order & r & fl & H).
    destruct (snapshotFrame_reachable _ _ _ _ _ _ H) as [doc ->]. eauto.
  - intros order r fl H.
    destruct (snapshotFrame_reachable _ _ _ _ _ _ H) as [doc ->].
    exists doc. split; [reflexivity|].
    intros path value ref message Hne Hp Hr Ha.
    exact (snapshotFrame_unavailable _ _ _ _ _ _ _ _ _ _ H Hne Hp Hr Ha).
Qed.

Lemma C3_failed_iframe_witness :
  exists doc fl,
    _snapshotFrame [] Pages.broken [0; 2; 1] = Some (Ok doc, fl) /\
    nodeAt [ToItem 0] doc =
    Some (YPair (YScalar (VString "iframe [ref=e1]"))
            (YScalar (VString "<could not take iframe snapshot>"))).
Proof.
  eexists. eexists. split; [reflexivity|].
  destruct (proj2 (C3_failed_iframe_becomes_placeholder [] _ _)
              [0; 2; 1] _ _ (eq_refl : _snapshotFrame [] Pages.broken [0; 2; 1] = _))
    as (doc & E & H).
  inversion E; subst doc.
  apply (H [ToItem 0] "iframe [ref=e1]" "e1" "frame was detached").
  - discriminate.
  - reflexivity.
  - reflexivity.
  - reflexivity.
Defined.

(** C5 fails on the code: in the frame of index 1 the scalar of a link whose
    name reads "[ref=home]" leaves the capture with the marker inside the
    name rewritten and the node's own marker "[ref=e2]" untouched, because
    the string replacement stops at the first occurrence.  The reference
    "e2" the snapshot shows for that link then resolves in the page, frame 0,
    not in the iframe. *)
Theorem C5_only_first_marker_rewritten :
  rewriteRef 1 Pages.spoofedLink =
    "link " +:+ Js.doubleQuote +:+ "[ref=f1home]" +:+ Js.doubleQuote +:+ " [ref=e2]" /\
  exists snapshot,
    create Pages.spoofed [0; 1] = Some (Ok snapshot) /\
    nodeAt [ToItem 0; ToValue; ToItem 0] (document snapshot) =
    Some (YScalar (VString
      ("link " +:+ Js.doubleQuote +:+ "[ref=f1home]" +:+ Js.doubleQuote +:+ " [ref=e2]"))) /\
    refLocator snapshot "e2" =
    Ok {| locatorFrame := Pages.spoofed; selector := "aria-ref=e2" |}.
Proof.
  split; [reflexivity|]. eexists. repeat split; reflexivity.
Qed.

(** ** The claims about references and the session *)

(** C4: a reference whose decoded frame index lies past the end of the
    snapshot's frame list does not resolve: [refLocator] throws "Frame does
    not exist. ..."; and on a tab without snapshot [snapshotOrDie], through
    which every resolution goes, throws, so no reference resolves there. *)
Theorem C4_unknown_frame_or_no_snapshot_fails :
  (forall snapshot ref,
     length (_frameLocators snapshot) <= fst (decodeRef ref) ->
     refLocator snapshot ref =
     Err "Frame does not exist. Provide ref from the most current snapshot.") /\
  (forall c t ref,
     hasSnapshot c t = false ->
     snapshotOrDie c t = Err "No snapshot available" /\
     resolve c t ref = Err "No snapshot available").
Proof.
  split.
  - intros snapshot ref H. unfold refLocator.
    destruct (decodeRef ref) as [frameIndex local]. simpl in H.
    rewrite (lookup_ge_None_2 _ _ H). reflexivity.
  - intros c t ref H. unfold resolve, snapshotOrDie, hasSnapshot in *.
    destruct (_snapshot c !! t); [discriminate|]. split; reflexivity.
Qed.

Lemma C4_unknown_frame_witness :
  refLocator Sessions.snapshot "f7e1" =
    Err "Frame does not exist. Provide ref from the most current snapshot." /\
  resolve Sessions.oneTab 1 "e1" = Err "No snapshot available".
Proof.
  split.
  - apply (proj1 C4_unknown_frame_or_no_snapshot_fails). vm_compute. lia.
  - apply (proj2 C4_unknown_frame_or_no_snapshot_fails). reflexivity.
Defined.

(** C8: when the page of the current tab closes and another tab is open, the
    tab is taken off the list and the tab at index min(closedIndex,
    tabCount-1) of the updated list, one of the remaining tabs, becomes
    current; when the page of another tab closes, the current tab stays. *)
Theorem C8_closing_promotes_neighbour :
  (forall c t index,
     _currentTab c = Some t ->
     indexOf t (_tabs c) = Some index ->
     2 <= length (_tabs c) ->
     _tabs (_onPageClosed t c) = delete index (_tabs c) /\
     exists neighbour,
       _currentTab (_onPageClosed t c) = Some neighbour /\
       _tabs (_onPageClosed t c)
         !! Nat.min index (length (_tabs (_onPageClosed t c)) - 1) =
       Some neighbour /\
       In neighbour (_tabs (_onPageClosed t c))) /\
  (forall c t current,
     _currentTab c = Some current ->
     current <> t ->
     _currentTab (_onPageClosed t c) = Some current).
Proof.
  split.
  - intros c t index Hc Hi Hlen. unfold _onPageClosed. rewrite Hi, Hc. simpl.
    rewrite Nat.eqb_refl. split; [reflexivity|].
    pose proof (indexOf_lookup _ _ _ Hi) as Hl.
    assert (Hd : length (delete index (_tabs c)) = length (_tabs c) - 1).
    { apply length_delete. eauto. }
    set (tabs := delete index (_tabs c)) in *.
    assert (Hz : Z.min (Z.of_nat index) (Z.of_nat (length tabs) - 1) =
                 Z.of_nat (Nat.min index (length tabs - 1))) by lia.
    rewrite Hz. unfold at_.
    destruct (Z.ltb_spec (Z.of_nat (Nat.min index (length tabs - 1))) 0);
      [lia|].
    rewrite Nat2Z.id.
    destruct (lookup_lt_is_Some_2 tabs (Nat.min index (length tabs - 1)))
      as [neighbour Hn]; [lia|].
    exists neighbour. rewrite Hn. repeat split.
    apply list_elem_of_In. eapply list_elem_of_lookup_2. exact Hn.
  - intros c t current Hc Hne. unfold _onPageClosed.
    destruct (indexOf t (_tabs c)); simpl; rewrite Hc; [|reflexivity].
    destruct (Nat.eqb_spec current t); [contradiction|reflexivity].
Qed.

Lemma C8_closing_witness :
  _currentTab (_onPageClosed 3 Sessions.threeTabs) = Some 2 /\
  _currentTab (_onPageClosed 2 Sessions.threeTabs) = Some 3.
Proof.
  split.
  - destruct (proj1 C8_closing_promotes_neighbour Sessions.threeTabs 3 2)
      as (_ & neighbour & Hc & Hn & _);
      [reflexivity|reflexivity|simpl; lia|].
    rewrite Hc. rewrite <- Hn. reflexivity.
  - apply (proj2 C8_closing_promotes_neighbour Sessions.threeTabs 2 3).
    + reflexivity.
    + discriminate.
Defined.

(** C9: with a current tab and no dialog-type modal state the wait is a
    timer of a fixed 1000 milliseconds inside the page, whatever [time] is;
    in every other case it is a timer of [time] milliseconds in the
    server. *)
Theorem C9_waitForTimeout :
  (forall c time t,
     _currentTab c = Some t ->
     _javaScriptBlocked c = false ->
     waitForTimeout c time = InPage t 1000) /\
  (forall c time,
     _currentTab c = None \/ _javaScriptBlocked c = true ->
     waitForTimeout c time = Timer time).
Proof.
  split.
  - intros c time t Hc Hb. unfold waitForTimeout. rewrite Hc, Hb. reflexivity.
  - intros c time [Hc|Hb]; unfold waitForTimeout.
    + rewrite Hc. reflexivity.
    + rewrite Hb. destruct (_currentTab c); reflexivity.
Qed.

Lemma C9_waitForTimeout_witness :
  waitForTimeout Sessions.oneTab 250 = InPage 1 1000 /\
  waitForTimeout Sessions.blocked 250 = Timer 250.
Proof.
  split.
  - apply (proj1 C9_waitForTimeout); reflexivity.
  - apply (proj2 C9_waitForTimeout). right. reflexivity.
Defined.

(** C10: once the page of a tab has closed, no modal state of that tab is
    left; and each handler of the session keeps every active modal state
    owned by an open tab, page events coming from pages that are open. *)
Theorem C10_modal_states_owned_by_open_tabs :
  (forall c t state,
     In state (_modalStates (_onPageClosed t c)) -> tab state <> t) /\
  (forall e c,
     ModalStatesOwned c -> fromOpenTab e c -> ModalStatesOwned (handle e c)) /\
  (forall events c,
     ModalStatesOwned c -> allFromOpenTabs events c ->
     ModalStatesOwned (deliver events c)).
Proof.
  assert (Closed : forall c t state,
    In state (_modalStates (_onPageClosed t c)) ->
    In state (_modalStates c) /\ tab state <> t).
  { intros c t state H. unfold _onPageClosed in H.
    destruct (indexOf t (_tabs c)); simpl in H;
      apply filter_In in H as [H1 H2]; (split; [exact H1|]);
      apply negb_true_iff, Nat.eqb_neq in H2; exact H2. }
  assert (One : forall e c,
    ModalStatesOwned c -> fromOpenTab e c -> ModalStatesOwned (handle e c)).
  { intros e c Inv Hs state H. destruct e; simpl in *.
    - apply in_app_iff in H as [H|[H|[]]]; [apply Inv, H|subst; exact Hs].
    - apply in_app_iff in H as [H|[H|[]]]; [apply Inv, H|subst; exact Hs].
    - destruct (Closed _ _ _ H) as [H1 H2]. apply Inv in H1.
      unfold _onPageClosed. destruct (indexOf t (_tabs c)) as [index|] eqn:E;
        simpl; [|exact H1].
      eapply In_delete_other; eauto. apply indexOf_lookup; exact E.
    - apply in_app_iff. left. apply Inv, H.
    - apply Inv. eapply In_delete; eauto. }
  split; [|split].
  - intros c t state H. apply (Closed _ _ _ H).
  - exact One.
  - induction events as [|e events IH]; intros c Inv Hs; [exact Inv|].
    destruct Hs as [H1 H2]. rewrite deliver_cons. apply IH; [|exact H2].
    apply One; assumption.
Qed.

Lemma C10_modal_states_witness :
  ModalStatesOwned
    (deliver [DialogOpened 2 "alert" "hello"; PageClosed 2] Sessions.twoTabs).
Proof.
  apply (proj2 (proj2 C10_modal_states_owned_by_open_tabs)).
  - intros state H. destruct H.
  - simpl. split; [right; left; reflexivity|]. split; exact I.
Defined.

(** ** The claims about the tool runner *)

Lemma respond_snapshot tools env tr t items c :
  _snapshot (fst (respond tools env tr t items c)) = _snapshot c.
Proof.
  unfold respond. destruct (modalStates c); [|reflexivity].
  destruct (Nat.ltb 1 (length (_tabs c))); simpl;
    rewrite !snapshot_deliver; reflexivity.
Qed.

(** C6, amended: in a run that gets to its action (the handler gave no
    result override and a tab is current) with [captureSnapshot] set, no
    snapshot is captured before or during the action; the action, if there
    is one, has by then settled, fulfilled or thrown, or has lost the race
    to a dialog; and right after, a snapshot of the tab that was current is
    captured exactly when no dialog-type modal state is active at that
    point, whether the action threw or not.  The snapshot then replaces the
    tab's. *)
Theorem C6_capture_follows_action
    (tools : list Tool) (env : Surroundings) (tr : ToolResult) (c : Context)
    (t : Tab) :
  resultOverride tr = None ->
  _currentTab c = Some t ->
  captureSnapshot tr = true ->
  (forall t', ~ In (SnapshotCaptured t') (moments (runAction env tr c))) /\
  (forall a,
     action tr = Some a ->
     exists m,
       moments (runAction env tr c) = [ActionCalled; m] /\
       (m = DialogWon \/ m = ActionSettled (isOk (settles a)))) /\
  moments (run tools env tr c) =
    moments (runAction env tr c) ++
    (if _javaScriptBlocked (after (runAction env tr c)) then []
     else [SnapshotCaptured t]) /\
  (forall snapshot,
     _javaScriptBlocked (after (runAction env tr c)) = false ->
     created env = Ok snapshot ->
     _snapshot (after (run tools env tr c)) !! t = Some snapshot).
Proof.
  intros Ho Hc Hs.
  pose proof (racingAction_moments tr c) as Hm.
  rewrite <- (runAction_moments env tr c) in Hm.
  split; [|split; [|split]].
  - intros t' Hin. destruct (action tr) as [a|].
    + destruct Hm as (m & Hm1 & [Hm2|Hm2]); rewrite Hm1, Hm2 in Hin;
        simpl in Hin; destruct Hin as [H|[H|[]]]; discriminate.
    + rewrite Hm in Hin. destruct Hin.
  - intros a Ha. rewrite Ha in Hm. exact Hm.
  - unfold run. rewrite Ho, Hc.
    destruct (runAction env tr c) as [[c1 actionResult] before].
    unfold runFinally, moments, after. rewrite Hs. simpl.
    destruct (_javaScriptBlocked c1); simpl.
    + destruct actionResult as [items|message]; [|reflexivity].
      destruct (respond tools env tr t items c1); reflexivity.
    + destruct (Tab_captureSnapshot env t c1) as [c2 [[]|message]];
        [|reflexivity].
      destruct actionResult as [items|message]; [|reflexivity].
      destruct (respond tools env tr t items c2); reflexivity.
  - intros snapshot Hb Hk. unfold run. rewrite Ho, Hc.
    destruct (runAction env tr c) as [[c1 actionResult] before].
    unfold runFinally, after in *. simpl in Hb. rewrite Hs, Hb. simpl.
    unfold Tab_captureSnapshot. rewrite Hk.
    destruct actionResult as [items|message]; simpl.
    + pose proof (respond_snapshot tools env tr t items
        (withSnapshot (<[t:=snapshot]> (_snapshot (deliver (capturing env) c1)))
           (deliver (capturing env) c1))) as Hr.
      destruct (respond tools env tr t items _) as [c3 r]. simpl in *.
      rewrite Hr. apply lookup_insert_eq.
    + apply lookup_insert_eq.
Qed.

Lemma C6_capture_witness :
  moments (run Sessions.tools Sessions.quiet Sessions.clickThrows Sessions.oneTab) =
  [ActionCalled; ActionSettled false; SnapshotCaptured 1].
Proof.
  destruct (C6_capture_follows_action Sessions.tools Sessions.quiet
              Sessions.clickThrows Sessions.oneTab 1 eq_refl eq_refl eq_refl)
    as (_ & _ & H & _).
  rewrite H. reflexivity.
Defined.

(** C6 as stated fails: a handler that answers with a result override, or a
    run without current tab, captures nothing although [captureSnapshot] is
    set.  And where a dialog in another tab has cut the action short and
    that tab has closed during the wait for the network, the snapshot is
    captured although the action has not completed. *)
Lemma C6_capture_counterexample :
  captureSnapshot Sessions.overridden = true /\
  moments (run Sessions.tools Sessions.quiet Sessions.overridden Sessions.oneTab) = [] /\
  hasSnapshot
    (after (run Sessions.tools Sessions.quiet Sessions.overridden Sessions.oneTab))
    1 = false /\
  captureSnapshot Sessions.click = true /\
  moments
    (run Sessions.tools Sessions.quiet Sessions.click
       (_onPageClosed 1 Sessions.oneTab)) = [] /\
  moments
    (run Sessions.tools Sessions.closedWhileWaiting Sessions.clickOtherTabDialog
       Sessions.twoTabs) = [ActionCalled; DialogWon; SnapshotCaptured 1].
Proof. repeat split. Qed.

(** C7, amended: in a run with an action (no result override, a tab
    current), a dialog that opens before the action's own completion wins
    the race, and the response is the code transcript with a non-empty
    modal-state section and without the action's content, provided that no
    page closes and no modal state is cleared while the run waits for the
    network.  Whenever a modal state is active once the action and the
    snapshot capture are through, also one from a dialog that opened after
    the action had completed, the response is of that same form.  Dialogs
    that open later, while the tab list is put together and the title is
    awaited, do not change the response.  What the action itself has
    returned once it has settled is out of reach of any later dialog. *)
Theorem C7_dialogs_and_the_response :
  (forall tools env tr c t a,
     resultOverride tr = None ->
     _currentTab c = Some t ->
     action tr = Some a ->
     existsb isDialogOpened (during a) = true ->
     (waitForNetwork tr = true -> forallb keepsModalStates (network env) = true) ->
     exists c',
       run tools env tr c =
       (c',
        Ok {| content :=
                [TextContent
                   (Js.joinLines
                      ([transcript (code tr)] ++ modalStatesMarkdown tools c'))] |},
        [ActionCalled; DialogWon]) /\
       _modalStates c' <> []) /\
  (forall tools env tr c t c1 items before c2 done,
     resultOverride tr = None ->
     _currentTab c = Some t ->
     runAction env tr c = (c1, Ok items, before) ->
     runFinally env tr t c1 = (c2, Ok tt, done) ->
     _modalStates c2 <> [] ->
     response (run tools env tr c) =
     Ok {| content :=
             [TextContent
                (Js.joinLines
                   ([transcript (code tr)] ++ modalStatesMarkdown tools c2))] |}) /\
  (forall tools env tr c listing1 titling1 listing2 titling2,
     withoutDialogs listing1 = withoutDialogs listing2 ->
     withoutDialogs titling1 = withoutDialogs titling2 ->
     response (run tools (withLate listing1 titling1 env) tr c) =
     response (run tools (withLate listing2 titling2 env) tr c)) /\
  (forall tr c a,
     action tr = Some a ->
     existsb isDialogOpened (during a) = false ->
     response (racingAction tr c) = settles a /\
     moments (racingAction tr c) = [ActionCalled; ActionSettled (isOk (settles a))]).
Proof.
  split; [|split; [|split]].
  - intros tools env tr c t a Ho Hc Ha Hd Hn.
    destruct (race_dialog (during a) (settles a)
                (withPendingAction (Some false) c) Hd eq_refl)
      as (c1 & Hr & Hb).
    assert (Hact : exists c2,
      runAction env tr c = (c2, Ok None, [ActionCalled; DialogWon]) /\
      _javaScriptBlocked c2 = true).
    { unfold runAction, waitForCompletion, racingAction,
        _raceAgainstModalDialogs. rewrite Ha, Hr.
      destruct (waitForNetwork tr).
      - eexists. split; [reflexivity|].
        apply blocked_deliver; [apply Hn; reflexivity|exact Hb].
      - eexists. split; [reflexivity|exact Hb]. }
    destruct Hact as (c2 & Hact & Hb2).
    assert (Hne : _modalStates c2 <> []).
    { unfold _javaScriptBlocked in Hb2. destruct (_modalStates c2);
        [discriminate|congruence]. }
    exists c2. split; [|exact Hne].
    unfold run. rewrite Ho, Hc, Hact. unfold runFinally. rewrite Hb2.
    rewrite andb_false_r. unfold respond, modalStates.
    destruct (_modalStates c2) eqn:E; [congruence|]. reflexivity.
  - intros tools env tr c t c1 items before c2 done Ho Hc Hact Hfin Hne.
    unfold run, response. rewrite Ho, Hc, Hact, Hfin. unfold respond, modalStates.
    destruct (_modalStates c2) eqn:E; [congruence|]. reflexivity.
  - intros tools env tr c listing1 titling1 listing2 titling2 Hl Ht.
    unfold run, response.
    destruct (resultOverride tr); [reflexivity|].
    destruct (_currentTab c) as [t|]; [|reflexivity].
    change (runAction (withLate listing1 titling1 env) tr c)
      with (runAction env tr c).
    change (runAction (withLate listing2 titling2 env) tr c)
      with (runAction env tr c).
    destruct (runAction env tr c) as [[c1 actionResult] before].
    change (runFinally (withLate listing1 titling1 env) tr t c1)
      with (runFinally env tr t c1).
    change (runFinally (withLate listing2 titling2 env) tr t c1)
      with (runFinally env tr t c1).
    destruct (runFinally env tr t c1) as [[c2 [[]|message]] done];
      [|reflexivity].
    destruct actionResult as [items|message]; [|reflexivity].
    unfold respond. destruct (modalStates c2); [|reflexivity].
    simpl listing. simpl titling.
    change (listTabsMarkdown (withLate listing1 titling1 env) c2)
      with (listTabsMarkdown env c2).
    change (listTabsMarkdown (withLate listing2 titling2 env) c2)
      with (listTabsMarkdown env c2).
    change (title (withLate listing1 titling1 env)) with (title env).
    change (title (withLate listing2 titling2 env)) with (title env).
    change (url (withLate listing1 titling1 env)) with (url env).
    change (url (withLate listing2 titling2 env)) with (url env).
    change (snapshotText (withLate listing1 titling1 env))
      with (snapshotText env).
    change (snapshotText (withLate listing2 titling2 env))
      with (snapshotText env).
    destruct (Nat.ltb 1 (length (_tabs c2))); simpl.
    + destruct (sameTabs_late listing1 listing2 c2 Hl) as (T1 & _ & S1 & _).
      rewrite !snapshot_deliver. rewrite T1. reflexivity.
    + rewrite !snapshot_deliver. reflexivity.
  - intros tr c a Ha Hd. unfold racingAction, _raceAgainstModalDialogs.
    rewrite Ha.
    rewrite (race_settles (during a) (settles a)
               (withPendingAction (Some false) c) Hd eq_refl).
    split; reflexivity.
Qed.

Lemma C7_dialogs_witness :
  response
    (run Sessions.tools Sessions.quiet Sessions.clickOpensDialog Sessions.oneTab) =
  response
    (run Sessions.tools Sessions.dialogWhileWaiting Sessions.clickAndWait
       Sessions.oneTab) /\
  response
    (run Sessions.tools
       (withLate [DialogOpened 1 "alert" "hello"] [] Sessions.quiet)
       Sessions.click Sessions.oneTab) =
  response
    (run Sessions.tools (withLate [] [] Sessions.quiet)
       Sessions.click Sessions.oneTab) /\
  response (racingAction Sessions.click Sessions.oneTab) = Ok (Some Sessions.done).
Proof.
  destruct C7_dialogs_and_the_response as (During & Later & Late & Settled).
  split; [|split].
  - destruct (During Sessions.tools Sessions.quiet Sessions.clickOpensDialog
                Sessions.oneTab 1 _ eq_refl eq_refl eq_refl eq_refl)
      as (c' & Hrun & _); [discriminate|].
    rewrite (Later Sessions.tools Sessions.dialogWhileWaiting
               Sessions.clickAndWait Sessions.oneTab 1 _ _ _ _ _
               eq_refl eq_refl eq_refl eq_refl).
    + vm_compute. reflexivity.
    + vm_compute. discriminate.
  - apply Late; reflexivity.
  - apply (Settled Sessions.click Sessions.oneTab _ eq_refl eq_refl).
Defined.

(** C7 as stated fails.  A dialog that opens after the action has completed
    does change the call's result: one that another tab shows while the
    snapshot is being captured, or one that the page shows while the run
    waits for the network, makes the response the modal-state section and
    drops the action's content.  And a dialog that opens during the action
    in another tab, which then closes while the run waits for the network,
    leaves a response without modal-state section. *)
Lemma C7_dialogs_counterexample :
  (response (run Sessions.tools Sessions.quiet Sessions.click Sessions.twoTabs) <>
   response
     (run Sessions.tools Sessions.dialogWhileCapturing Sessions.click
        Sessions.twoTabs)) /\
  (exists r,
     response (run Sessions.tools Sessions.quiet Sessions.click Sessions.twoTabs) =
       Ok r /\
     In (TextContent "done") (content r)) /\
  (exists r,
     response
       (run Sessions.tools Sessions.dialogWhileCapturing Sessions.click
          Sessions.twoTabs) = Ok r /\
     ~ In (TextContent "done") (content r)) /\
  (exists r,
     response
       (run Sessions.tools Sessions.dialogWhileWaiting Sessions.clickAndWait
          Sessions.oneTab) = Ok r /\
     ~ In (TextContent "done") (content r)) /\
  (exists c' r,
     run Sessions.tools Sessions.closedWhileWaiting Sessions.clickOtherTabDialog
       Sessions.twoTabs =
       (c', Ok r, [ActionCalled; DialogWon; SnapshotCaptured 1]) /\
     _modalStates c' = []).
Proof.
  split; [|split; [|split; [|split]]].
  - vm_compute. discriminate.
  - eexists. split; [vm_compute; reflexivity|]. left. reflexivity.
  - eexists. split; [vm_compute; reflexivity|].
    intros [H|[]]. discriminate.
  - eexists. split; [vm_compute; reflexivity|].
    intros [H|[]]. discriminate.
  - eexists. eexists. split; [vm_compute; reflexivity|]. reflexivity.
Qed.

(** * Further properties of the snapshot builder *)

Lemma create_steps page order r :
  create page order = Some r ->
  exists c, steps order (enter [] page) = Some c /\
    match r with
    | Ok snapshot =>
        outcome c = Some (Ok (document snapshot)) /\
        frameLocators c = _frameLocators snapshot
    | Err message => outcome c = Some (Err message)
    end.
Proof.
  unfold create, _snapshotFrame. intros H.
  destruct (steps order (enter [] page)) as [c|]; [|discriminate].
  exists c. split; [reflexivity|].
  destruct (outcome c) as [[doc|m]|]; inversion H; subst; simpl; auto.
Qed.

Lemma steps_thrown order c c' message :
  call c = Thrown message -> steps order c = Some c' -> order = [].
Proof.
  destruct order as [|i order]; intros Hc H; [reflexivity|].
  simpl in H. unfold step in H. rewrite Hc in H. discriminate.
Qed.



Lemma prefixed_zero node : prefixed 0 node = node.
Proof.
  induction node as [[v|s]|k v IHk IHv|items IH|items IH|] using YNode_induction;
    simpl; try reflexivity.
  - rewrite IHk, IHv. reflexivity.
  - f_equal. induction IH as [|x l Hx _ IHl]; simpl; [reflexivity|].
    rewrite Hx, IHl. reflexivity.
  - f_equal. induction IH as [|x l Hx _ IHl]; simpl; [reflexivity|].
    rewrite Hx, IHl. reflexivity.
Qed.

Lemma concat_nil {A B : Type} (f : A -> list B) items :
  concat (map f items) = [] -> Forall (fun x => f x = []) items.
Proof.
  induction items as [|x items IH]; simpl; intros H; constructor.
  - destruct (f x); [reflexivity|discriminate].
  - apply IH. destruct (f x); [exact H|discriminate].
Qed.

Lemma visitItems_plain frame frameIndex items :
  Forall (fun item =>
            forall fl t fl',
              visit frame frameIndex item fl = (t, fl') ->
              fl' = fl /\ fulfilled t = Some (prefixed frameIndex item)) items ->
  forall fl ts fl',
    visitItems frame frameIndex items fl = (ts, fl') ->
    fl' = fl /\ fulfilledItems ts = Some (map (prefixed frameIndex) items).
Proof.
  induction 1 as [|x items Hx _ IH]; intros fl ts fl' E; simpl in E.
  - inversion E; subst. auto.
  - destruct (visit frame frameIndex x fl) as [t fl1] eqn:E1.
    destruct (visitItems frame frameIndex items fl1) as [ts' fl2] eqn:E2.
    inversion E; subst.
    destruct (Hx _ _ _ E1) as [-> F1]. destruct (IH _ _ _ E2) as [-> F2].
    split; [reflexivity|]. simpl. rewrite F1, F2. reflexivity.
Qed.

(** The visit of a document without iframe placeholders pushes no frame and
    is fulfilled at once, with the references rewritten. *)
Lemma visit_plain frame frameIndex node :
  iframeRefs node = [] ->
  forall fl t fl',
    visit frame frameIndex node fl = (t, fl') ->
    fl' = fl /\ fulfilled t = Some (prefixed frameIndex node).
Proof.
  induction node as [[v|s]|k v IHk IHv|items IH|items IH|] using YNode_induction;
    intros Hr fl t fl' E.
  - simpl in Hr, E. destruct (iframeRef v); [discriminate|].
    inversion E; subst. auto.
  - simpl in E. inversion E; subst. auto.
  - simpl in Hr. apply app_eq_nil in Hr. destruct Hr as [Hk Hv].
    simpl in E.
    destruct (visit frame frameIndex k fl) as [tk fl1] eqn:E1.
    destruct (visit frame frameIndex v fl1) as [tv fl2] eqn:E2.
    inversion E; subst.
    destruct (IHk Hk _ _ _ E1) as [-> Fk]. destruct (IHv Hv _ _ _ E2) as [-> Fv].
    split; [reflexivity|]. simpl. rewrite Fk, Fv. reflexivity.
  - simpl in Hr. apply concat_nil in Hr. rewrite visit_seq in E.
    destruct (visitItems frame frameIndex items fl) as [ts fl1] eqn:E1.
    inversion E; subst.
    assert (A : Forall (fun item =>
              forall fl t fl',
                visit frame frameIndex item fl = (t, fl') ->
                fl' = fl /\ fulfilled t = Some (prefixed frameIndex item)) items).
    { clear E E1. induction IH as [|x l Hx _ IHl]; constructor.
      - apply Hx. inversion Hr; assumption.
      - apply IHl. inversion Hr; assumption. }
    destruct (visitItems_plain _ _ _ A _ _ _ E1) as [-> F].
    split; [reflexivity|]. rewrite fulfilled_seq, F. reflexivity.
  - simpl in Hr. apply concat_nil in Hr. rewrite visit_map in E.
    destruct (visitItems frame frameIndex items fl) as [ts fl1] eqn:E1.
    inversion E; subst.
    assert (A : Forall (fun item =>
              forall fl t fl',
                visit frame frameIndex item fl = (t, fl') ->
                fl' = fl /\ fulfilled t = Some (prefixed frameIndex item)) items).
    { clear E E1. induction IH as [|x l Hx _ IHl]; constructor.
      - apply Hx. inversion Hr; assumption.
      - apply IHl. inversion Hr; assumption. }
    destruct (visitItems_plain _ _ _ A _ _ _ E1) as [-> F].
    split; [reflexivity|]. rewrite fulfilled_map, F. reflexivity.
  - simpl in E. inversion E; subst. auto.
Qed.

Lemma contentsOf_kept frameIndex node :
  contentsOf (keptContents frameIndex node) (prefixed frameIndex node) =
  prefixed frameIndex node.
Proof. destruct node as [[v|s]| | | |]; reflexivity. Qed.

Lemma settle_fulfilled index t fl node :
  fulfilled t = Some node -> settle index t fl = None.
Proof.
  intros F. destruct (settle index t fl) as [[t' fl']|] eqn:E; [|reflexivity].
  destruct (settle_spec _ _ _ _ _ E) as (before & frame & rest & W & _).
  assert (W0 : waiting t = []) by (apply fulfilled_waiting; eauto).
  rewrite W0 in W. destruct before; discriminate.
Qed.



Lemma children_indices frame base refs :
  map fst (children frame base refs) = seq base (length refs).
Proof.
  revert base. induction refs as [|ref refs IH]; intros base; simpl;
    [reflexivity|]. rewrite IH. reflexivity.
Qed.

Lemma Answered_enter frameLocators0 frame :
  Answered (length frameLocators0) [] (enter frameLocators0 frame).
Proof.
  unfold Answered, enter, pending. simpl. rewrite length_app. simpl.
  split; [lia|].
  replace (length frameLocators0 + 1 - length frameLocators0) with 1 by lia.
  reflexivity.
Qed.

Lemma Answered_step first answered index c c' :
  Answered first answered c ->
  step index c = Some c' ->
  Answered first (answered ++ [index]) c'.
Proof.
  intros [Hle Hp] H.
  destruct (step_spec _ _ _ H) as (before & frame & rest & P & P' & F).
  unfold Answered. rewrite F, P'. rewrite P in Hp.
  rewrite length_app, length_map. unfold discovered in *.
  rewrite children_length.
  split; [lia|].
  replace (length (frameLocators c) + length (refsOf frame) - first)
    with ((length (frameLocators c) - first) + length (refsOf frame)) by lia.
  rewrite seq_app, <- Hp.
  replace (first + (length (frameLocators c) - first))
    with (length (frameLocators c)) by lia.
  rewrite !map_app, children_indices. simpl. solve_Permutation.
Qed.

Lemma Answered_steps first order :
  forall answered c c',
    Answered first answered c ->
    steps order c = Some c' ->
    Answered first (answered ++ order) c'.
Proof.
  induction order as [|i order IH]; intros answered c c' A H; simpl in H.
  - inversion H; subst. rewrite app_nil_r. exact A.
  - destruct (step i c) as [c1|] eqn:E; [|discriminate].
    replace (answered ++ i :: order) with ((answered ++ [i]) ++ order)
      by (rewrite <- app_assoc; reflexivity).
    eapply IH; [|exact H]. eapply Answered_step; eauto.
Qed.

(** X3. In every run of a capture that returns a snapshot the driver has
    answered each registered frame exactly once: the answering order is a
    rearrangement of the indices of [_frameLocators], so no frame is left
    waiting and none is asked twice. *)
Theorem every_frame_is_answered_once (page : Frame) (order : list nat)
    (snapshot : PageSnapshot) :
  create page order = Some (Ok snapshot) ->
  Permutation order (seq 0 (length (_frameLocators snapshot))) /\
  NoDup order.
Proof.
  intros H. destruct (create_steps _ _ _ H) as (c & E & O & F).
  pose proof (Answered_steps 0 order [] _ _ (Answered_enter [] page) E)
    as [_ A].
  assert (P : pending c = []) by (apply outcome_pending; eauto).
  rewrite P in A. simpl in A. rewrite app_nil_r, Nat.sub_0_r, F in A.
  split; [exact A|].
  rewrite A. apply NoDup_seq.
Qed.

Lemma every_frame_is_answered_once_witness :
  Permutation [0; 2; 1; 3]
    (seq 0 (length [Pages.page; Pages.first; Pages.second; Pages.inner])) /\
  NoDup [0; 2; 1; 3].
Proof.
  apply (every_frame_is_answered_once Pages.page [0; 2; 1; 3]
           {| _frameLocators :=
                [Pages.page; Pages.first; Pages.second; Pages.inner];
              document :=
                YSeq [YPair (YScalar (VString "iframe [ref=e1]"))
                        (YSeq [YPair (YScalar (VString "iframe [ref=f1e1]"))
                                 (YSeq [YScalar (VString "heading [ref=f3e1]")])]);
                      YPair (YScalar (VString "iframe [ref=e2]"))
                        (YSeq [YScalar (VString "button [ref=f2e1]")])] |}).
  reflexivity.
Defined.

Lemma visit_extends frame frameIndex node fl t fl' :
  visit frame frameIndex node fl = (t, fl') -> exists extra, fl' = fl ++ extra.
Proof. intros E. destruct (visit_spec _ _ _ _ _ _ E) as [_ ->]. eauto. Qed.

Lemma visitItems_between frame frameIndex items :
  forall fl ts fl' n item,
    visitItems frame frameIndex items fl = (ts, fl') ->
    nth_error items n = Some item ->
    exists t fl1 fl2 before rest,
      nth_error ts n = Some t /\
      visit frame frameIndex item fl1 = (t, fl2) /\
      fl1 = fl ++ before /\ fl' = fl2 ++ rest.
Proof.
  induction items as [|x items IH]; intros fl ts fl' n item E Hn.
  - destruct n; discriminate.
  - simpl in E.
    destruct (visit frame frameIndex x fl) as [t fl1] eqn:E1.
    destruct (visitItems frame frameIndex items fl1) as [ts' fl2] eqn:E2.
    inversion E; subst. destruct n as [|n]; simpl in *.
    + inversion Hn; subst. exists t, fl, fl1, [].
      assert (X : exists rest, fl' = fl1 ++ rest).
      { clear - E2. revert fl1 ts' fl' E2.
        induction items as [|y items IH]; intros fl1 ts' fl' E2; simpl in E2.
        - inversion E2; subst. exists []. rewrite app_nil_r. reflexivity.
        - destruct (visit frame frameIndex y fl1) as [t fa] eqn:Ea.
          destruct (visitItems frame frameIndex items fa) as [tb fb] eqn:Eb.
          inversion E2; subst.
          destruct (visit_extends _ _ _ _ _ _ Ea) as [e1 ->].
          destruct (IH _ _ _ Eb) as [e2 ->].
          exists (e1 ++ e2). rewrite app_assoc. reflexivity. }
      destruct X as [rest ->]. exists rest. rewrite app_nil_r. auto.
    + destruct (IH _ _ _ _ _ E2 Hn) as (t' & fa & fb & e1 & e2 & A & B & C & D).
      destruct (visit_extends _ _ _ _ _ _ E1) as [e0 ->].
      exists t', fa, fb, (e0 ++ e1), e2. rewrite app_assoc. subst. auto.
Qed.

(** The request of an iframe placeholder carries the index its frame has
    been pushed at. *)
Lemma visit_at_index frame frameIndex node :
  forall path fl t fl' value ref,
    visit frame frameIndex node fl = (t, fl') ->
    nodeAt path node = Some (YScalar (VString value)) ->
    iframeRef value = Some ref ->
    exists index,
      taskAt path t =
      Some (Request (rewriteRef frameIndex value) index
              (frameLocator frame (ariaRef ref))) /\
      length fl <= index /\
      fl' !! index = Some (frameLocator frame (ariaRef ref)).
Proof.
  induction node as [v|k v IHk IHv|items IH|items IH|] using YNode_induction;
    intros path fl t fl' value ref E Hp Hr.
  - destruct path as [|turn rest]; [|destruct turn; discriminate].
    simpl in Hp. inversion Hp; subst. simpl in E. rewrite Hr in E.
    inversion E; subst. simpl. exists (length fl).
    split; [reflexivity|]. split; [lia|].
    rewrite lookup_app_r by lia. rewrite Nat.sub_diag. reflexivity.
  - simpl in E.
    destruct (visit frame frameIndex k fl) as [tk fl1] eqn:E1.
    destruct (visit frame frameIndex v fl1) as [tv fl2] eqn:E2.
    inversion E; subst.
    destruct path as [|[| |i] rest]; simpl in *; try discriminate.
    + destruct (IHk _ _ _ _ _ _ E1 Hp Hr) as (j & A & B & C).
      destruct (visit_extends _ _ _ _ _ _ E2) as [e ->].
      exists j. split; [exact A|]. split; [exact B|].
      apply lookup_app_l_Some. exact C.
    + destruct (IHv _ _ _ _ _ _ E2 Hp Hr) as (j & A & B & C).
      destruct (visit_extends _ _ _ _ _ _ E1) as [e ->].
      exists j. split; [exact A|]. split; [|exact C].
      rewrite length_app in B. lia.
  - rewrite visit_seq in E.
    destruct (visitItems frame frameIndex items fl) as [ts fl1] eqn:E1.
    inversion E; subst.
    destruct path as [|[| |i] rest]; simpl in *; try discriminate.
    destruct (nth_error items i) as [item|] eqn:Hi; [|discriminate].
    destruct (visitItems_between _ _ _ _ _ _ _ _ E1 Hi)
      as (t & fa & fb & e1 & e2 & Ht & Ev & -> & ->).
    rewrite Ht. rewrite Forall_forall in IH.
    assert (Hin : item ∈ items)
      by (apply list_elem_of_In; eapply nth_error_In; eauto).
    destruct (IH _ Hin _ _ _ _ _ _ Ev Hp Hr) as (j & A & B & C).
    exists j. split; [exact A|]. split.
    + rewrite length_app in B. lia.
    + apply lookup_app_l_Some. exact C.
  - rewrite visit_map in E.
    destruct (visitItems frame frameIndex items fl) as [ts fl1] eqn:E1.
    inversion E; subst.
    destruct path as [|[| |i] rest]; simpl in *; try discriminate.
    destruct (nth_error items i) as [item|] eqn:Hi; [|discriminate].
    destruct (visitItems_between _ _ _ _ _ _ _ _ E1 Hi)
      as (t & fa & fb & e1 & e2 & Ht & Ev & -> & ->).
    rewrite Ht. rewrite Forall_forall in IH.
    assert (Hin : item ∈ items)
      by (apply list_elem_of_In; eapply nth_error_In; eauto).
    destruct (IH _ Hin _ _ _ _ _ _ Ev Hp Hr) as (j & A & B & C).
    exists j. split; [exact A|]. split.
    + rewrite length_app in B. lia.
    + apply lookup_app_l_Some. exact C.
  - destruct path as [|turn rest]; [|destruct turn; discriminate].
    discriminate.
Qed.

(** What holds of the promise at a position and is kept by the answers of
    the driver still holds there after an answer. *)
Lemma settle_keeps (P : Task -> Prop) index :
  (forall x fl x' fl', P x -> settle index x fl = Some (x', fl') -> P x') ->
  forall t path x fl t' fl',
    settle index t fl = Some (t', fl') ->
    taskAt path t = Some x ->
    P x ->
    exists x', taskAt path t' = Some x' /\ P x'.
Proof.
  intros Keep.
  induction t as [n|k v IHk IHv|items IH|items IH|key' i frame|key' kept body IH]
    using Task_induction; intros path x fl t' fl' E Hp Hx.
  - discriminate.
  - destruct path as [|turn rest].
    { simpl in Hp. inversion Hp; subst. exists t'. split; [reflexivity|].
      eapply Keep; eauto. }
    simpl in E. destruct (settle index k fl) as [[k' fl1]|] eqn:E1.
    + inversion E; subst.
      destruct turn as [| |i]; simpl in *; try discriminate; eauto.
    + destruct (settle index v fl) as [[v' fl1]|] eqn:E2; [|discriminate].
      inversion E; subst.
      destruct turn as [| |i]; simpl in *; try discriminate; eauto.
  - destruct path as [|turn rest].
    { simpl in Hp. inversion Hp; subst. exists t'. split; [reflexivity|].
      eapply Keep; eauto. }
    rewrite settle_seq in E.
    destruct (settleItems index fl items) as [[items' fl1]|] eqn:E1;
      [|discriminate].
    inversion E; subst.
    destruct turn as [| |i]; simpl in *; try discriminate.
    destruct (nth_error items i) as [item|] eqn:Hi; [|discriminate].
    destruct (settleItems_nth _ _ _ _ _ _ _ E1 Hi) as (item' & Hi' & [->|Es]).
    + rewrite Hi'. eauto.
    + rewrite Hi'. rewrite Forall_forall in IH.
      eapply IH; eauto. apply list_elem_of_In. eapply nth_error_In; eauto.
  - destruct path as [|turn rest].
    { simpl in Hp. inversion Hp; subst. exists t'. split; [reflexivity|].
      eapply Keep; eauto. }
    rewrite settle_map in E.
    destruct (settleItems index fl items) as [[items' fl1]|] eqn:E1;
      [|discriminate].
    inversion E; subst.
    destruct turn as [| |i]; simpl in *; try discriminate.
    destruct (nth_error items i) as [item|] eqn:Hi; [|discriminate].
    destruct (settleItems_nth _ _ _ _ _ _ _ E1 Hi) as (item' & Hi' & [->|Es]).
    + rewrite Hi'. eauto.
    + rewrite Hi'. rewrite Forall_forall in IH.
      eapply IH; eauto. apply list_elem_of_In. eapply nth_error_In; eauto.
  - destruct path as [|turn rest]; [|destruct turn; discriminate].
    simpl in Hp. inversion Hp; subst. exists t'. split; [reflexivity|].
    eapply Keep; eauto.
  - destruct path as [|turn rest]; [|destruct turn; discriminate].
    simpl in Hp. inversion Hp; subst. exists t'. split; [reflexivity|].
    eapply Keep; eauto.
Qed.

Lemma steps_keep (P : Task -> Prop) :
  (forall index x fl x' fl', P x -> settle index x fl = Some (x', fl') -> P x') ->
  forall order c kept body c' path x,
    call c = Visiting kept body ->
    steps order c = Some c' ->
    taskAt path body = Some x ->
    P x ->
    exists body' x',
      call c' = Visiting kept body' /\ taskAt path body' = Some x' /\ P x'.
Proof.
  intros Keep.
  induction order as [|i order IH]; intros c kept body c' path x Hc H Hp Hx;
    simpl in H.
  - inversion H; subst. eauto.
  - unfold step in H. rewrite Hc in H.
    destruct (settle i body (frameLocators c)) as [[body1 fl1]|] eqn:E;
      [|discriminate].
    destruct (settle_keeps P i (Keep i) _ _ _ _ _ _ E Hp Hx) as (x1 & Hp1 & Hx1).
    eapply IH; [|exact H|exact Hp1|exact Hx1]. reflexivity.
Qed.

(** The node at a position of a fulfilled promise is what the promise at
    that position is fulfilled with. *)
Lemma fulfilled_path t :
  forall path x doc,
    fulfilled t = Some doc ->
    taskAt path t = Some x ->
    exists node, nodeAt path doc = Some node /\ fulfilled x = Some node.
Proof.
  induction t as [n|k v IHk IHv|items IH|items IH|key' i frame|key' kept body IH]
    using Task_induction; intros path x doc E Hp;
    (destruct path as [|turn rest];
     [simpl in Hp; inversion Hp; subst; exists doc; split; [reflexivity|exact E]|]).
  - destruct turn; discriminate.
  - simpl in E. destruct (fulfilled k) as [dk|] eqn:E1; [|discriminate].
    destruct (fulfilled v) as [dv|] eqn:E2; [|discriminate].
    inversion E; subst.
    destruct turn as [| |i]; simpl in *; try discriminate.
    + exact (IHk _ _ _ eq_refl Hp).
    + exact (IHv _ _ _ eq_refl Hp).
  - rewrite fulfilled_seq in E.
    destruct (fulfilledItems items) as [ds|] eqn:E1; [|discriminate].
    inversion E; subst.
    destruct turn as [| |i]; simpl in *; try discriminate.
    destruct (nth_error items i) as [item|] eqn:Hi; [|discriminate].
    destruct (fulfilledItems_nth _ _ _ _ E1 Hi) as (d & Hd & Ed).
    rewrite Hd. rewrite Forall_forall in IH.
    assert (Hin : item ∈ items)
      by (apply list_elem_of_In; eapply nth_error_In; eauto).
    exact (IH _ Hin _ _ _ Ed Hp).
  - rewrite fulfilled_map in E.
    destruct (fulfilledItems items) as [ds|] eqn:E1; [|discriminate].
    inversion E; subst.
    destruct turn as [| |i]; simpl in *; try discriminate.
    destruct (nth_error items i) as [item|] eqn:Hi; [|discriminate].
    destruct (fulfilledItems_nth _ _ _ _ E1 Hi) as (d & Hd & Ed).
    rewrite Hd. rewrite Forall_forall in IH.
    assert (Hin : item ∈ items)
      by (apply list_elem_of_In; eapply nth_error_In; eauto).
    exact (IH _ Hin _ _ _ Ed Hp).
  - destruct turn; discriminate.
  - destruct turn; discriminate.
Qed.

Lemma Spliced_kept key j child contents index :
  ariaSnapshot child = Ok contents ->
  iframeRefs contents = [] ->
  forall x fl x' fl',
    Spliced key j child (prefixed j contents) x ->
    settle index x fl = Some (x', fl') ->
    Spliced key j child (prefixed j contents) x'.
Proof.
  intros Ha Hr x fl x' fl' [->|(kept & body & node & -> & F & K)] E.
  - simpl in E. destruct (Nat.eqb j index); [|discriminate].
    rewrite Ha in E.
    destruct (visit child j contents fl) as [b fl1] eqn:Ev.
    inversion E; subst.
    destruct (visit_plain _ _ _ Hr _ _ _ Ev) as [_ F].
    right. exists (keptContents j contents), b, (prefixed j contents).
    split; [reflexivity|]. split; [exact F|]. apply contentsOf_kept.
  - simpl in E. rewrite (settle_fulfilled _ _ _ _ F) in E. discriminate.
Qed.

(** X4. An iframe whose own document holds no further iframe is spliced in
    where its placeholder stood, below the root of the parent's document:
    the placeholder becomes the key of a pair whose value is the iframe's
    document with every string scalar rewritten for the index at which the
    iframe's frame is registered, an index past the parent's. *)
Theorem captured_iframe_is_spliced_in
    (frameLocators0 : list Frame) (body : YNode) (sub : string -> Frame)
    (order : list nat) (doc : YNode) (fl : list Frame)
    (path : list Turn) (value ref : string)
    (contents : YNode) (nested : string -> Frame) :
  _snapshotFrame frameLocators0 (Reachable body sub) order = Some (Ok doc, fl) ->
  path <> [] ->
  nodeAt path body = Some (YScalar (VString value)) ->
  iframeRef value = Some ref ->
  sub (ariaRef ref) = Reachable contents nested ->
  iframeRefs contents = [] ->
  exists index,
    length frameLocators0 < index /\
    fl !! index = Some (Reachable contents nested) /\
    nodeAt path doc =
    Some (YPair (YScalar (VString (rewriteRef (length frameLocators0) value)))
            (createNode (prefixed index contents))).
Proof.
  unfold _snapshotFrame. intros H Hne Hp Hr Hs Hc.
  destruct (steps order (enter frameLocators0 (Reachable body sub)))
    as [c|] eqn:E; [|discriminate].
  destruct (outcome c) as [r'|] eqn:O; [|discriminate].
  inversion H; subst. clear H.
  destruct order as [|i order]; simpl in E.
  - inversion E; subst. unfold outcome in O; simpl in O. discriminate.
  - unfold step in E. simpl in E.
    destruct (Nat.eqb (length frameLocators0) i); [|discriminate].
    destruct (visit (Reachable body sub) (length frameLocators0) body
                (frameLocators0 ++ [Reachable body sub])) as [b fl1] eqn:Ev.
    destruct (visit_at_index _ _ _ _ _ _ _ _ _ Ev Hp Hr) as (j & Hj & Lj & Fj).
    simpl in Hj, Fj. rewrite Hs in Hj, Fj. rewrite length_app in Lj. simpl in Lj.
    set (key := rewriteRef (length frameLocators0) value) in *.
    set (child := Reachable contents nested) in *.
    assert (Hx : Spliced key j child (prefixed j contents) (Request key j child))
      by (left; reflexivity).
    destruct (steps_keep (Spliced key j child (prefixed j contents))
                (fun index => Spliced_kept key j child contents index eq_refl Hc)
                order
                {| frameLocators := fl1;
                   call := Visiting (keptContents (length frameLocators0) body) b |}
                _ _ _ path _ eq_refl E Hj Hx)
      as (body' & x' & Hc' & Hp' & Hx').
    destruct (steps_prefix _ _ _ E) as [extra Fe]. simpl in Fe.
    exists j. split; [lia|]. split.
    { rewrite Fe. apply lookup_app_l_Some. exact Fj. }
    unfold outcome in O. rewrite Hc' in O.
    destruct (fulfilled body') as [n|] eqn:Ef; [|discriminate].
    simpl in O. inversion O; subst.
    assert (K : keptContents (length frameLocators0) body = None).
    { destruct body as [[v|s]| | | |]; simpl; auto.
      destruct path as [|turn rest]; [congruence|].
      destruct turn; discriminate. }
    rewrite K. simpl.
    destruct (fulfilled_path _ _ _ _ Ef Hp') as (node & Hn & Fn).
    rewrite Hn. f_equal.
    destruct Hx' as [->|(kept & body0 & node0 & -> & F0 & K0)];
      [discriminate|].
    simpl in Fn. rewrite F0 in Fn. simpl in Fn. inversion Fn; subst.
    rewrite K0. reflexivity.
Qed.

Lemma captured_iframe_is_spliced_in_witness :
  exists index,
    0 < index /\
    [Pages.page; Pages.first; Pages.second; Pages.inner] !! index =
      Some Pages.second /\
    nodeAt [ToItem 1]
      (YSeq [YPair (YScalar (VString "iframe [ref=e1]"))
               (YSeq [YPair (YScalar (VString "iframe [ref=f1e1]"))
                        (YSeq [YScalar (VString "heading [ref=f3e1]")])]);
             YPair (YScalar (VString "iframe [ref=e2]"))
               (YSeq [YScalar (VString "button [ref=f2e1]")])]) =
    Some (YPair (YScalar (VString "iframe [ref=e2]"))
            (createNode (prefixed index (YSeq [YScalar (VString "button [ref=e1]")])))).
Proof.
  apply (captured_iframe_is_spliced_in [] _ _ [0; 2; 1; 3] _ _
           [ToItem 1] "iframe [ref=e2]" "e2"
           (YSeq [YScalar (VString "button [ref=e1]")]) Pages.noFrame
           (eq_refl : _snapshotFrame [] Pages.page [0; 2; 1; 3] = _)).
  - discriminate.
  - reflexivity.
  - reflexivity.
  - reflexivity.
  - reflexivity.
Defined.

(** * Further properties of the reference codec *)

Lemma includes_cons c l pat :
  includes (String c l) pat = false ->
  String.prefix pat (String c l) = false /\ includes l pat = false.
Proof.
  change (includes (String c l) pat)
    with (if String.prefix pat (String c l) then true else includes l pat).
  destruct (String.prefix pat (String c l)); intros H; [discriminate|auto].
Qed.

Lemma prefix_cons a p b s :
  String.prefix (String a p) (String b s) =
  if ascii_dec a b then String.prefix p s else false.
Proof. reflexivity. Qed.

Lemma prefix_empty s : String.prefix EmptyString s = true.
Proof. destruct s; reflexivity. Qed.

(** The marker overlaps no proper suffix of itself, so it cannot start
    inside a text without it and run into a marker that follows. *)
Lemma prefix_marker_cons c l tail :
  String.prefix "[ref=" (String c l) = false ->
  String.prefix "[ref=" (String c (l +:+ "[ref=" +:+ tail)) = false.
Proof.
  intros H. rewrite prefix_cons in H |- *.
  destruct (ascii_dec "[" c) as [_|]; [|reflexivity].
  destruct l as [|c1 l]; [reflexivity|].
  rewrite append_cons. rewrite prefix_cons in H |- *.
  destruct (ascii_dec "r" c1) as [_|]; [|reflexivity].
  destruct l as [|c2 l]; [reflexivity|].
  rewrite append_cons. rewrite prefix_cons in H |- *.
  destruct (ascii_dec "e" c2) as [_|]; [|reflexivity].
  destruct l as [|c3 l]; [reflexivity|].
  rewrite append_cons. rewrite prefix_cons in H |- *.
  destruct (ascii_dec "f" c3) as [_|]; [|reflexivity].
  destruct l as [|c4 l]; [reflexivity|].
  rewrite append_cons. rewrite prefix_cons in H |- *.
  destruct (ascii_dec "=" c4) as [_|]; [|reflexivity].
  rewrite prefix_empty in H. discriminate.
Qed.

Lemma prefix_append p s : String.prefix p (p +:+ s) = true.
Proof.
  induction p as [|a p IH]; [rewrite append_nil; apply prefix_empty|].
  rewrite append_cons, prefix_cons.
  destruct (ascii_dec a a); [exact IH|congruence].
Qed.

Lemma skip_append p s : Js.skip (String.length p) (p +:+ s) = s.
Proof.
  induction p as [|a p IH]; [rewrite append_nil; reflexivity|].
  rewrite append_cons. exact IH.
Qed.

Lemma replace_unfold s pat repl :
  Js.replace s pat repl =
  if String.prefix pat s then repl +:+ Js.skip (String.length pat) s
  else match s with
       | EmptyString => s
       | String c s' => String c (Js.replace s' pat repl)
       end.
Proof. destruct s; reflexivity. Qed.

Lemma replace_first_marker label repl tail :
  includes label "[ref=" = false ->
  Js.replace (label +:+ "[ref=" +:+ tail) "[ref=" repl = label +:+ repl +:+ tail.
Proof.
  induction label as [|c l IH]; intros H.
  - rewrite !append_nil, replace_unfold, prefix_append, skip_append.
    reflexivity.
  - apply includes_cons in H. destruct H as [Hp Hl].
    rewrite !(append_cons c l), replace_unfold.
    rewrite (prefix_marker_cons c l tail Hp), IH by exact Hl. reflexivity.
Qed.

Lemma rewriteRef_marked index label localId tail :
  includes label "[ref=" = false ->
  rewriteRef index (label +:+ "[ref=" +:+ localId +:+ tail) =
  label +:+ "[ref=" +:+ encodeRef index localId +:+ tail.
Proof.
  intros H. unfold rewriteRef, encodeRef. destruct index as [|n]; [reflexivity|].
  simpl Nat.ltb. simpl Nat.eqb. cbv iota.
  rewrite replace_first_marker by exact H.
  rewrite !append_assoc. reflexivity.
Qed.

(** X5. A reference as the snapshot shows it leads back to its element: in a
    scalar of the frame registered at [index] whose text before the marker
    holds no marker of its own, the rewriting puts the encoded reference in
    place of the frame-local id, and [refLocator] resolves that reference to
    the same frame with the frame-local id as its selector.  The conditions
    on the id are those under which the codec is exact. *)
Theorem shown_reference_resolves_to_its_frame
    (snapshot : PageSnapshot) (index : nat) (frame : Frame)
    (label localId tail : string) :
  includes label "[ref=" = false ->
  _frameLocators snapshot !! index = Some frame ->
  (index = 0 -> looksPrefixed localId = false) ->
  (0 < index -> startsWithDigit localId = false /\ Js.lineOf localId = localId) ->
  rewriteRef index (label +:+ "[ref=" +:+ localId +:+ tail) =
    label +:+ "[ref=" +:+ encodeRef index localId +:+ tail /\
  refLocator snapshot (encodeRef index localId) =
    Ok {| locatorFrame := frame; selector := ariaRef localId |}.
Proof.
  intros Hl Hf H0 Hn. split; [apply rewriteRef_marked; exact Hl|].
  unfold refLocator.
  assert (D : decodeRef (encodeRef index localId) = (index, localId)).
  { destruct index as [|n].
    - simpl. apply decodeRef_plain. auto.
    - destruct (Hn ltac:(lia)) as [Hd Hline].
      unfold encodeRef. simpl Nat.eqb. cbv iota.
      rewrite decodeRef_prefixed by exact Hd. rewrite Hline. reflexivity. }
  rewrite D, Hf. reflexivity.
Qed.

Lemma shown_reference_resolves_witness :
  rewriteRef 2 ("button " +:+ "[ref=" +:+ "e1" +:+ "]") =
    "button " +:+ "[ref=" +:+ encodeRef 2 "e1" +:+ "]" /\
  refLocator
    {| _frameLocators := [Pages.page; Pages.first; Pages.second; Pages.inner];
       document := YNone |}
    (encodeRef 2 "e1") =
    Ok {| locatorFrame := Pages.second; selector := ariaRef "e1" |}.
Proof.
  apply (shown_reference_resolves_to_its_frame
           {| _frameLocators := [Pages.page; Pages.first; Pages.second; Pages.inner];
              document := YNone |}
           2 Pages.second "button " "e1" "]").
  - reflexivity.
  - reflexivity.
  - lia.
  - intros _. split; reflexivity.
Defined.

(** * Further properties of the session *)

(** What every handler of the session keeps, the whole run of a tool
    keeps. *)
Section Preserved.

Variable P : Context -> Prop.
Hypothesis P_handle : forall e c, P c -> P (handle e c).
Hypothesis P_pending : forall p c, P c -> P (withPendingAction p c).
Hypothesis P_snapshot : forall s c, P c -> P (withSnapshot s c).

Lemma kept_deliver events : forall c, P c -> P (deliver events c).
Proof.
  induction events as [|e events IH]; intros c H; [exact H|].
  rewrite deliver_cons. apply IH, P_handle, H.
Qed.

Lemma kept_race events settled :
  forall c, P c -> P (after (race events settled c)).
Proof.
  induction events as [|e events IH]; intros c H; simpl; [exact H|].
  destruct (dialogSignalled (handle e c)).
  - apply P_handle, H.
  - apply IH, P_handle, H.
Qed.

Lemma kept_racingAction tr c : P c -> P (after (racingAction tr c)).
Proof.
  intros H. unfold racingAction. destruct (action tr) as [a|]; [|exact H].
  unfold _raceAgainstModalDialogs.
  pose proof (kept_race (during a) (settles a) _
                (P_pending (Some false) c H)) as R.
  destruct (race (during a) (settles a) (withPendingAction (Some false) c))
    as [[c1 r] m]. apply P_pending, R.
Qed.

Lemma kept_runAction env tr c : P c -> P (after (runAction env tr c)).
Proof.
  intros H. unfold runAction, waitForCompletion.
  pose proof (kept_racingAction tr c H) as R.
  destruct (waitForNetwork tr); [|exact R].
  destruct (racingAction tr c) as [[c1 [items|message]] ms]; [|exact R].
  apply kept_deliver, R.
Qed.

Lemma kept_runFinally env tr t c : P c -> P (after (runFinally env tr t c)).
Proof.
  intros H. unfold runFinally, Tab_captureSnapshot.
  destruct (captureSnapshot tr && negb (_javaScriptBlocked c)); [|exact H].
  destruct (created env) as [snapshot|message]; simpl.
  - apply P_snapshot, kept_deliver, H.
  - apply kept_deliver, H.
Qed.

Lemma kept_respond tools env tr t items c :
  P c -> P (fst (respond tools env tr t items c)).
Proof.
  intros H. unfold respond. destruct (modalStates c); [|exact H].
  destruct (Nat.ltb 1 (length (_tabs c))); simpl;
    repeat apply kept_deliver; exact H.
Qed.

Lemma kept_run tools env tr c : P c -> P (after (run tools env tr c)).
Proof.
  intros H. unfold run.
  destruct (resultOverride tr); [exact H|].
  destruct (_currentTab c) as [t|]; [|exact H].
  pose proof (kept_runAction env tr c H) as R1.
  destruct (runAction env tr c) as [[c1 actionResult] before].
  pose proof (kept_runFinally env tr t c1 R1) as R2.
  destruct (runFinally env tr t c1) as [[c2 [[]|message]] done]; [|exact R2].
  destruct actionResult as [items|message]; [|exact R2].
  pose proof (kept_respond tools env tr t items c2 R2) as R3.
  destruct (respond tools env tr t items c2) as [c3 r]. exact R3.
Qed.

End Preserved.

Lemma at_neighbour (l : list Tab) (index : nat) :
  match at_ l (Z.min (Z.of_nat index) (Z.of_nat (length l) - 1)) with
  | Some x => In x l
  | None => l = []
  end.
Proof.
  unfold at_.
  destruct (Z.ltb_spec (Z.min (Z.of_nat index) (Z.of_nat (length l) - 1)) 0)
    as [Hlt|Hge].
  - destruct l as [|y l]; [reflexivity|]. simpl length in Hlt. lia.
  - destruct (l !! Z.to_nat
                (Z.min (Z.of_nat index) (Z.of_nat (length l) - 1)))
      as [x|] eqn:E.
    + apply list_elem_of_In. eapply list_elem_of_lookup_2. exact E.
    + apply lookup_ge_None in E. lia.
Qed.

Lemma CurrentListed_handle e c : CurrentListed c -> CurrentListed (handle e c).
Proof.
  unfold CurrentListed. destruct e as [t k m|t|t|t|position]; simpl;
    try (intros H; exact H).
  - unfold _onPageClosed.
    destruct (indexOf t (_tabs c)) as [index|] eqn:I; simpl;
      [|intros H; exact H].
    destruct (_currentTab c) as [current|].
    + intros H. destruct (Nat.eqb current t) eqn:Q.
      * apply at_neighbour.
      * apply Nat.eqb_neq in Q.
        eapply In_delete_other; eauto using indexOf_lookup.
    + intros H. rewrite H in I. discriminate.
  - destruct (_currentTab c) as [current|].
    + intros H. apply in_or_app. left. exact H.
    + intros ->. simpl. auto.
Qed.

Lemma find_opened page tabs :
  List.find (Nat.eqb page) (tabs ++ [page]) = Some page.
Proof.
  induction tabs as [|x tabs IH]; simpl.
  - rewrite Nat.eqb_refl. reflexivity.
  - destruct (Nat.eqb page x) eqn:Q; [|exact IH].
    apply Nat.eqb_eq in Q. subst. reflexivity.
Qed.

Lemma CurrentListed_ensure launched c c' r :
  CurrentListed c ->
  _ensureBrowserContext launched c = (c', r) ->
  CurrentListed c'.
Proof.
  unfold _ensureBrowserContext. intros H E.
  destruct (_browserContext c); [inversion E; subst; exact H|].
  destruct launched as [pages|message]; inversion E; subst; [|exact H].
  apply (kept_deliver CurrentListed CurrentListed_handle). exact H.
Qed.

(** X6. The current tab is always one of the listed tabs, and some tab is
    current whenever one is listed: every page event, a whole run of a tool,
    [closeTab], [newTab], [ensureTab] and [selectTab] with the number of a
    listed tab keep it so. *)
Theorem current_tab_stays_listed (c : Context) :
  CurrentListed c ->
  (forall events, CurrentListed (deliver events c)) /\
  (forall tools env tr, CurrentListed (after (run tools env tr c))) /\
  (forall env index, CurrentListed (fst (closeTab env index c))) /\
  (forall launched opened, CurrentListed (fst (newTab launched opened c))) /\
  (forall launched opened, CurrentListed (fst (ensureTab launched opened c))) /\
  (forall broughtToFront index,
     (1 <= index <= Z.of_nat (length (_tabs c)))%Z ->
     CurrentListed (fst (selectTab broughtToFront index c))).
Proof.
  intros H. repeat split.
  - intros events. apply (kept_deliver CurrentListed CurrentListed_handle), H.
  - intros tools env tr.
    apply (kept_run CurrentListed CurrentListed_handle); auto.
  - intros env index. unfold closeTab. simpl.
    destruct (match index with
              | Some i => at_ (_tabs c) (i - 1)
              | None => _currentTab c
              end) as [t|];
      [apply (CurrentListed_handle (PageClosed t))|]; exact H.
  - intros launched opened. unfold newTab.
    destruct (_ensureBrowserContext launched c) as [c1 [[]|message]] eqn:E;
      pose proof (CurrentListed_ensure _ _ _ _ H E) as H1; [|exact H1].
    destruct opened as [page|message]; [|exact H1].
    unfold CurrentListed. simpl. destruct (_currentTab c1);
      rewrite find_opened; apply in_or_app; right; left; reflexivity.
  - intros launched opened. unfold ensureTab.
    destruct (_ensureBrowserContext launched c) as [c1 [[]|message]] eqn:E;
      pose proof (CurrentListed_ensure _ _ _ _ H E) as H1; [|exact H1].
    destruct (_currentTab c1) as [t|] eqn:Q; [exact H1|].
    destruct opened as [page|message]; [|exact H1].
    apply (CurrentListed_handle (PageCreated page)). exact H1.
  - intros broughtToFront index Hi. unfold selectTab, CurrentListed. simpl.
    unfold at_. destruct (Z.ltb_spec (index - 1) 0) as [Hlt|Hge]; [lia|].
    destruct (_tabs c !! Z.to_nat (index - 1)) as [t|] eqn:E; simpl.
    + apply list_elem_of_In. eapply list_elem_of_lookup_2. exact E.
    + apply lookup_ge_None in E. lia.
Qed.

Lemma current_tab_stays_listed_witness :
  CurrentListed (deliver [PageClosed 3; PageCreated 4] Sessions.threeTabs).
Proof.
  apply (proj1 (current_tab_stays_listed Sessions.threeTabs
                  (or_intror (or_intror (or_introl eq_refl))))).
Defined.

Lemma indexOf_None t tabs : indexOf t tabs = None -> ~ In t tabs.
Proof.
  intros I Hin. destruct (indexOf_In _ _ Hin) as [index E]. congruence.
Qed.

Lemma without_absent t tabs : ~ In t tabs -> without t tabs = tabs.
Proof.
  induction tabs as [|x tabs IH]; intros H; [reflexivity|].
  unfold without in *. simpl. destruct (Nat.eqb x t) eqn:Q; simpl.
  - apply Nat.eqb_eq in Q. subst. exfalso. apply H. left. reflexivity.
  - rewrite IH; [reflexivity|]. intros Hin. apply H. right. exact Hin.
Qed.

Lemma delete_indexOf t tabs :
  NoDup tabs ->
  forall index, indexOf t tabs = Some index -> delete index tabs = without t tabs.
Proof.
  induction 1 as [|x tabs Hx Hn IH]; intros index I; [discriminate|].
  simpl in I. unfold without. simpl. destruct (Nat.eqb x t) eqn:Q; simpl.
  - inversion I; subst. simpl. apply Nat.eqb_eq in Q. subst.
    symmetry. apply without_absent. rewrite <- list_elem_of_In. exact Hx.
  - destruct (indexOf t tabs) as [i|] eqn:I'; [|discriminate].
    inversion I; subst. simpl. f_equal. apply IH. reflexivity.
Qed.

(** X7. While no tab is listed twice, the closing of a page takes exactly
    that tab off the list: the tabs afterwards are the other tabs in their
    order, the closed one is not among them, and still none is listed
    twice. *)
Theorem closed_tab_is_delisted (c : Context) (t : Tab) :
  NoDup (_tabs c) ->
  _tabs (handle (PageClosed t) c) = without t (_tabs c) /\
  ~ In t (_tabs (handle (PageClosed t) c)) /\
  NoDup (_tabs (handle (PageClosed t) c)).
Proof.
  intros H.
  assert (E : _tabs (handle (PageClosed t) c) = without t (_tabs c)).
  { simpl. unfold _onPageClosed.
    destruct (indexOf t (_tabs c)) as [index|] eqn:I; simpl.
    - apply delete_indexOf; assumption.
    - symmetry. apply without_absent, indexOf_None, I. }
  rewrite E. split; [reflexivity|]. split.
  - unfold without. rewrite filter_In. intros [_ Q].
    rewrite Nat.eqb_refl in Q. discriminate.
  - unfold without. apply NoDup_ListNoDup, List.NoDup_filter, NoDup_ListNoDup, H.
Qed.

Lemma closed_tab_is_delisted_witness :
  _tabs (handle (PageClosed 2) Sessions.threeTabs) = without 2 [1; 2; 3] /\
  ~ In 2 (_tabs (handle (PageClosed 2) Sessions.threeTabs)) /\
  NoDup (_tabs (handle (PageClosed 2) Sessions.threeTabs)).
Proof.
  apply (closed_tab_is_delisted Sessions.threeTabs 2).
  change (NoDup [1; 2; 3]). apply (bool_decide_unpack _). vm_compute. exact I.
Defined.

Lemma length_delete_found t (tabs : list Tab) index :
  indexOf t tabs = Some index -> S (length (delete index tabs)) = length tabs.
Proof.
  intros I. apply indexOf_lookup in I.
  pose proof (length_delete tabs index (ex_intro _ t I)) as L.
  apply lookup_lt_Some in I. lia.
Qed.

(** X8. The session keeps its browser context through the closing of a
    listed tab exactly when it had one and another tab stays listed; with
    the last tab gone the list is empty and, where the current tab was
    listed, no tab is current.  [_ensureBrowserContext] then launches
    anew. *)
Theorem browser_is_kept_while_a_tab_is_open (c : Context) (t : Tab) :
  In t (_tabs c) ->
  _browserContext (handle (PageClosed t) c) =
    _browserContext c && Nat.ltb 1 (length (_tabs c)) /\
  (length (_tabs c) = 1 ->
   _tabs (handle (PageClosed t) c) = [] /\
   (CurrentListed c -> _currentTab (handle (PageClosed t) c) = None) /\
   forall pages,
     _ensureBrowserContext (Ok pages) (handle (PageClosed t) c) =
     (deliver (map PageCreated pages)
        (withBrowserContext true (handle (PageClosed t) c)), Ok tt)).
Proof.
  intros Hin. destruct (indexOf_In _ _ Hin) as [index I].
  pose proof (length_delete_found _ _ _ I) as L.
  assert (B : _browserContext (handle (PageClosed t) c) =
              _browserContext c && Nat.ltb 1 (length (_tabs c))).
  { simpl. unfold _onPageClosed. rewrite I. simpl.
    destruct (_browserContext c); simpl; [|reflexivity].
    destruct (Nat.eqb_spec (length (delete index (_tabs c))) 0) as [Q|Q];
      destruct (Nat.ltb_spec 1 (length (_tabs c))); try reflexivity; lia. }
  split; [exact B|].
  intros L1.
  assert (T : _tabs (handle (PageClosed t) c) = []).
  { simpl. unfold _onPageClosed. rewrite I. simpl.
    apply length_zero_iff_nil. lia. }
  split; [exact T|]. split.
  - intros Hc. pose proof (CurrentListed_handle (PageClosed t) c Hc) as H1.
    unfold CurrentListed in H1. rewrite T in H1.
    destruct (_currentTab (handle (PageClosed t) c)); [destruct H1|reflexivity].
  - intros pages. unfold _ensureBrowserContext. rewrite B, L1.
    rewrite andb_false_r. reflexivity.
Qed.

Lemma browser_is_kept_witness :
  _browserContext (handle (PageClosed 1) Sessions.oneTab) = false /\
  _tabs (handle (PageClosed 1) Sessions.oneTab) = [] /\
  _currentTab (handle (PageClosed 1) Sessions.oneTab) = None.
Proof.
  destruct (browser_is_kept_while_a_tab_is_open Sessions.oneTab 1
              (or_introl eq_refl)) as [B H].
  destruct (H eq_refl) as (T & C & _).
  split; [exact B|]. split; [exact T|]. apply C. left. reflexivity.
Defined.

Lemma at_out_of_range {A : Type} (l : list A) (index : Z) :
  ~ (1 <= index <= Z.of_nat (length l))%Z -> at_ l (index - 1) = None.
Proof.
  intros H. unfold at_.
  destruct (Z.ltb_spec (index - 1) 0) as [Hlt|Hge]; [reflexivity|].
  apply lookup_ge_None. lia.
Qed.

(** X9. A tab number that is not on the list: [closeTab] closes nothing and
    answers with the list as it is; [selectTab] throws, and it has by then
    put the current tab out, so that the next run of a tool that needs a tab
    answers that no page is open although the listed tabs are all still
    there. *)
Theorem tab_number_out_of_range (c : Context) (index : Z) :
  ~ (1 <= index <= Z.of_nat (length (_tabs c)))%Z ->
  (forall env, closeTab env (Some index) c = (c, listTabsMarkdown env c)) /\
  (forall broughtToFront,
     selectTab broughtToFront index c =
     (withCurrentTab None c, Err cannotReadPage)) /\
  (forall broughtToFront tools env tr,
     resultOverride tr = None ->
     run tools env tr (fst (selectTab broughtToFront index c)) =
     (withCurrentTab None c, Ok noOpenPages, []) /\
     _tabs (fst (selectTab broughtToFront index c)) = _tabs c).
Proof.
  intros H. pose proof (at_out_of_range (_tabs c) index H) as E.
  assert (S : forall broughtToFront,
            selectTab broughtToFront index c =
            (withCurrentTab None c, Err cannotReadPage)).
  { intros broughtToFront. unfold selectTab. rewrite E. reflexivity. }
  split; [|split].
  - intros env. unfold closeTab. rewrite E. reflexivity.
  - exact S.
  - intros broughtToFront tools env tr Ho. rewrite S. simpl.
    split; [|reflexivity]. unfold run. rewrite Ho. reflexivity.
Qed.

Lemma tab_number_out_of_range_witness :
  closeTab Sessions.quiet (Some 3%Z) Sessions.twoTabs =
    (Sessions.twoTabs, listTabsMarkdown Sessions.quiet Sessions.twoTabs) /\
  selectTab (fun _ => Ok tt) 3 Sessions.twoTabs =
    (withCurrentTab None Sessions.twoTabs, Err cannotReadPage).
Proof.
  assert (H : ~ (1 <= 3 <= Z.of_nat (length (_tabs Sessions.twoTabs)))%Z)
    by (simpl; lia).
  destruct (tab_number_out_of_range Sessions.twoTabs 3 H) as (A & B & _).
  split; [apply A|apply B].
Defined.

Lemma pending_none_handle e c :
  _pendingAction c = None -> _pendingAction (handle e c) = None.
Proof.
  destruct e as [t k m|t|t|t|position]; simpl; intros H; try exact H.
  - rewrite H. reflexivity.
  - unfold _onPageClosed. destruct (indexOf t (_tabs c)); exact H.
Qed.

Lemma pending_none_deliver events :
  forall c, _pendingAction c = None -> _pendingAction (deliver events c) = None.
Proof.
  induction events as [|e events IH]; intros c H; [exact H|].
  rewrite deliver_cons. apply IH, pending_none_handle, H.
Qed.

Lemma pending_none_racingAction tr c :
  _pendingAction c = None -> _pendingAction (after (racingAction tr c)) = None.
Proof.
  intros H. unfold racingAction. destruct (action tr) as [a|]; [|exact H].
  unfold _raceAgainstModalDialogs.
  destruct (race (during a) (settles a) (withPendingAction (Some false) c))
    as [[c1 r] m]. reflexivity.
Qed.

(** X10. The pending action is always let go of: whatever the action of a
    tool does, fulfil, throw or lose the race to a dialog, and whatever
    happens in the session meanwhile, no pending action is left once the run
    is over, so that a dialog that opens between two runs resolves
    nothing. *)
Theorem pending_action_is_released
    (tools : list Tool) (env : Surroundings) (tr : ToolResult) (c : Context) :
  _pendingAction c = None ->
  _pendingAction (after (run tools env tr c)) = None /\
  forall t kind message,
    _pendingAction
      (handle (DialogOpened t kind message) (after (run tools env tr c))) = None.
Proof.
  intros H.
  assert (R : _pendingAction (after (run tools env tr c)) = None).
  { unfold run. destruct (resultOverride tr); [exact H|].
    destruct (_currentTab c) as [t|]; [|exact H].
    assert (R1 : _pendingAction (after (runAction env tr c)) = None).
    { unfold runAction, waitForCompletion.
      pose proof (pending_none_racingAction tr c H) as R0.
      destruct (waitForNetwork tr); [|exact R0].
      destruct (racingAction tr c) as [[c1 [items|message]] ms]; [|exact R0].
      apply pending_none_deliver, R0. }
    destruct (runAction env tr c) as [[c1 actionResult] before].
    assert (R2 : _pendingAction (after (runFinally env tr t c1)) = None).
    { unfold runFinally, Tab_captureSnapshot.
      destruct (captureSnapshot tr && negb (_javaScriptBlocked c1)); [|exact R1].
      destruct (created env) as [snapshot|message]; simpl;
        apply pending_none_deliver, R1. }
    destruct (runFinally env tr t c1) as [[c2 [[]|message]] done]; [|exact R2].
    destruct actionResult as [items|message]; [|exact R2].
    assert (R3 : _pendingAction (fst (respond tools env tr t items c2)) = None).
    { unfold respond. destruct (modalStates c2); [|exact R2].
      destruct (Nat.ltb 1 (length (_tabs c2))); simpl;
        repeat apply pending_none_deliver; exact R2. }
    destruct (respond tools env tr t items c2) as [c3 r]. exact R3. }
  split; [exact R|].
  intros t kind message. apply pending_none_handle, R.
Qed.

Lemma pending_action_is_released_witness :
  _pendingAction
    (after (run Sessions.tools Sessions.quiet Sessions.clickOpensDialog
              Sessions.oneTab)) = None.
Proof.
  apply (pending_action_is_released Sessions.tools Sessions.quiet
           Sessions.clickOpensDialog Sessions.oneTab).
  reflexivity.
Defined.

Lemma race_result events settled :
  forall c c' r m,
    race events settled c = (c', r, m) -> r = Ok None \/ r = settled.
Proof.
  induction events as [|e events IH]; intros c c' r m E; simpl in E.
  - inversion E; subst. auto.
  - destruct (dialogSignalled (handle e c)).
    + inversion E; subst. auto.
    + eapply IH; eauto.
Qed.

Lemma racingAction_result tr c c' r ms :
  racingAction tr c = (c', r, ms) ->
  r = Ok None \/ exists a, action tr = Some a /\ r = settles a.
Proof.
  unfold racingAction. destruct (action tr) as [a|].
  - unfold _raceAgainstModalDialogs.
    destruct (race (during a) (settles a) (withPendingAction (Some false) c))
      as [[c1 r1] m] eqn:E.
    intros X. inversion X; subst.
    destruct (race_result _ _ _ _ _ _ E) as [->| ->]; eauto.
  - intros X. inversion X; subst. auto.
Qed.

Lemma runAction_result env tr c c' r ms :
  runAction env tr c = (c', r, ms) ->
  r = Ok None \/ exists a, action tr = Some a /\ r = settles a.
Proof.
  unfold runAction, waitForCompletion.
  destruct (racingAction tr c) as [[c1 r1] ms1] eqn:E.
  apply racingAction_result in E.
  destruct (waitForNetwork tr); [destruct r1|]; intros X; inversion X; subst;
    exact E.
Qed.

(** An action that throws has not been cut short by a dialog. *)
Lemma racingAction_throws tr c c' message ms :
  racingAction tr c = (c', Err message, ms) ->
  exists a,
    action tr = Some a /\ settles a = Err message /\
    existsb isDialogOpened (during a) = false.
Proof.
  unfold racingAction. destruct (action tr) as [a|]; [|discriminate].
  unfold _raceAgainstModalDialogs. intros X. exists a.
  destruct (existsb isDialogOpened (during a)) eqn:D.
  - destruct (race_dialog (during a) (settles a)
                (withPendingAction (Some false) c) D eq_refl) as (c1 & E & _).
    rewrite E in X. discriminate.
  - rewrite (race_settles (during a) (settles a)
               (withPendingAction (Some false) c) D eq_refl) in X.
    inversion X; subst. auto.
Qed.

Lemma runAction_throws env tr c c' message ms :
  runAction env tr c = (c', Err message, ms) ->
  exists a,
    action tr = Some a /\ settles a = Err message /\
    existsb isDialogOpened (during a) = false.
Proof.
  unfold runAction, waitForCompletion.
  destruct (racingAction tr c) as [[c1 r1] ms1] eqn:E.
  destruct (waitForNetwork tr); [destruct r1|]; intros X; inversion X; subst;
    eapply racingAction_throws; eauto.
Qed.

Lemma prefix_joinLines x rest :
  String.prefix x (Js.joinLines (x :: rest)) = true.
Proof.
  unfold Js.joinLines. simpl. destruct rest as [|y rest].
  - replace x with (x +:+ "") at 2; [apply prefix_append|].
    induction x as [|a x IH]; [reflexivity|].
    rewrite append_cons, IH. reflexivity.
  - apply prefix_append.
Qed.

Lemma respond_shape tools env tr t items c :
  exists text,
    String.prefix (transcript (code tr)) text = true /\
    content (snd (respond tools env tr t items c)) =
    match modalStates c, items with
    | [], Some items => items
    | _, _ => []
    end ++ [TextContent text].
Proof.
  unfold respond. destruct (modalStates c) as [|state states].
  - destruct (Nat.ltb 1 (length (_tabs c))); simpl;
      repeat (match goal with
              | |- context [if ?b then _ else _] => destruct b
              | |- context [match ?m !! ?k with _ => _ end] => destruct (m !! k)
              end; simpl);
      eexists; (split; [apply prefix_joinLines|]);
      destruct items; reflexivity.
  - simpl. eexists. split; [apply prefix_joinLines|]. reflexivity.
Qed.

(** X11. The shape of every response of a run that gets to its action (the
    handler gave no result override and a tab is current): the last item is
    a text that starts with the transcript of the tool's code, and what
    comes before it is either nothing or the very content the tool's action
    has settled with. *)
Theorem response_is_content_then_transcript
    (tools : list Tool) (env : Surroundings) (tr : ToolResult)
    (c c' : Context) (t : Tab) (r : Response) (ms : list Moment) :
  resultOverride tr = None ->
  _currentTab c = Some t ->
  run tools env tr c = (c', Ok r, ms) ->
  exists items text,
    content r = items ++ [TextContent text] /\
    String.prefix (transcript (code tr)) text = true /\
    (items = [] \/
     exists a, action tr = Some a /\ settles a = Ok (Some items)).
Proof.
  intros Ho Hc. unfold run. rewrite Ho, Hc.
  destruct (runAction env tr c) as [[c1 actionResult] before] eqn:E1.
  destruct (runFinally env tr t c1) as [[c2 [[]|message]] done];
    [|discriminate].
  destruct actionResult as [items|message]; [|discriminate].
  destruct (respond_shape tools env tr t items c2) as (text & Hp & Hr).
  destruct (respond tools env tr t items c2) as [c3 r3].
  intros X. inversion X; subst. simpl in Hr.
  eexists. exists text. split; [exact Hr|]. split; [exact Hp|].
  destruct (modalStates c2); [|left; reflexivity].
  destruct items as [items|]; [|left; reflexivity].
  right. destruct (runAction_result _ _ _ _ _ _ E1) as [X1|(a & Ha & X1)];
    [discriminate|].
  exists a. split; [exact Ha|]. congruence.
Qed.

Lemma response_is_content_then_transcript_witness :
  exists items text,
    content
      {| content :=
           Sessions.done ++
           [TextContent
              (Js.joinLines
                 [transcript ["await page.click()"];
                  "- Page URL: https://example.com/";
                  "- Page Title: Example"; "- Page Snapshot"])] |} =
      items ++ [TextContent text] /\
    String.prefix (transcript (code Sessions.click)) text = true /\
    (items = [] \/
     exists a,
       action Sessions.click = Some a /\ settles a = Ok (Some items)).
Proof.
  apply (response_is_content_then_transcript Sessions.tools Sessions.quiet
           Sessions.click Sessions.oneTab
           (after (run Sessions.tools Sessions.quiet Sessions.click
                     Sessions.oneTab))
           1 _ [ActionCalled; ActionSettled true; SnapshotCaptured 1]).
  - reflexivity.
  - reflexivity.
  - vm_compute. reflexivity.
Defined.

Lemma run_throws_origin
    (tools : list Tool) (env : Surroundings) (tr : ToolResult) (c : Context)
    (message : string) :
  response (run tools env tr c) = Err message ->
  resultOverride tr = None /\
  _currentTab c <> None /\
  ((captureSnapshot tr = true /\ created env = Err message) \/
   exists a,
     action tr = Some a /\ settles a = Err message /\
     existsb isDialogOpened (during a) = false).
Proof.
  unfold run, response.
  destruct (resultOverride tr); [discriminate|].
  destruct (_currentTab c) as [t|]; [|discriminate].
  destruct (runAction env tr c) as [[c1 actionResult] before] eqn:E1.
  destruct (runFinally env tr t c1) as [[c2 captured] done] eqn:E2.
  intros X. split; [reflexivity|]. split; [discriminate|].
  destruct captured as [[]|m2].
  - right. destruct actionResult as [items|m1].
    + destruct (respond tools env tr t items c2). discriminate.
    + simpl in X. inversion X; subst.
      eapply runAction_throws; eauto.
  - left. simpl in X. inversion X; subst. unfold runFinally in E2.
    destruct (captureSnapshot tr); simpl in E2; [|discriminate].
    split; [reflexivity|].
    destruct (negb (_javaScriptBlocked c1)); [|discriminate].
    unfold Tab_captureSnapshot in E2.
    destruct (created env); inversion E2; subst. reflexivity.
Qed.

(** X12. Where a run throws, the driver's answers about titles and
    addresses taken as given.  The error is either the one its action has
    thrown, and then no dialog had opened while the action was in flight, or
    the one the capture of the snapshot has thrown; a handler's result
    override, a missing tab and a dialog never make it throw.  So a run
    whose action is cut short by a dialog throws only with the capture, and
    an action that throws undisturbed has its error thrown by the run
    unless the capture throws in its place. *)
Theorem run_throws_with_the_action_or_the_capture
    (tools : list Tool) (env : Surroundings) (tr : ToolResult) (c : Context) :
  (forall message,
     response (run tools env tr c) = Err message ->
     resultOverride tr = None /\
     _currentTab c <> None /\
     ((captureSnapshot tr = true /\ created env = Err message) \/
      exists a,
        action tr = Some a /\ settles a = Err message /\
        existsb isDialogOpened (during a) = false)) /\
  (forall a message,
     action tr = Some a ->
     existsb isDialogOpened (during a) = true ->
     response (run tools env tr c) = Err message ->
     captureSnapshot tr = true /\ created env = Err message) /\
  (forall a t message,
     resultOverride tr = None ->
     _currentTab c = Some t ->
     action tr = Some a ->
     settles a = Err message ->
     existsb isDialogOpened (during a) = false ->
     captureSnapshot tr = false \/ isOk (created env) = true ->
     response (run tools env tr c) = Err message).
Proof.
  split; [|split].
  - intros message. apply run_throws_origin.
  - intros a message Ha D H. apply run_throws_origin in H.
    destruct H as (_ & _ & [H|(a' & Ha' & _ & D')]); [exact H|].
    congruence.
  - intros a t message Ho Hc Ha Hs D K. unfold run, response.
    rewrite Ho, Hc.
    assert (E1 : runAction env tr c =
                 (withPendingAction None
                    (deliver (during a) (withPendingAction (Some false) c)),
                  Err message, [ActionCalled; ActionSettled false])).
    { unfold runAction, waitForCompletion, racingAction. rewrite Ha.
      unfold _raceAgainstModalDialogs.
      rewrite (race_settles _ _ (withPendingAction (Some false) c) D eq_refl).
      rewrite Hs. simpl. destruct (waitForNetwork tr); reflexivity. }
    rewrite E1. unfold runFinally, Tab_captureSnapshot.
    destruct K as [K|K].
    + rewrite K. reflexivity.
    + destruct (captureSnapshot tr && negb _); [|reflexivity].
      destruct (created env); [reflexivity|discriminate].
Qed.

Lemma run_throws_witness :
  response
    (run Sessions.tools Sessions.quiet Sessions.clickThrows Sessions.oneTab) =
  Err "Timeout 5000ms exceeded.".
Proof.
  apply (proj2 (proj2 (run_throws_with_the_action_or_the_capture
                         Sessions.tools Sessions.quiet Sessions.clickThrows
                         Sessions.oneTab))
           {| during := []; settles := Err "Timeout 5000ms exceeded." |} 1).
  - reflexivity.
  - reflexivity.
  - reflexivity.
  - reflexivity.
  - reflexivity.
  - right. reflexivity.
Defined.

Lemma delete_last {A : Type} (l : list A) (x : A) :
  delete (length l) (l ++ [x]) = l.
Proof.
  induction l as [|y l IH]; [reflexivity|]. simpl. rewrite IH. reflexivity.
Qed.

(** X13. A dialog and the waits.  From the moment a dialog is shown, in
    whatever tab, [waitForTimeout] waits on a timer of the server for the
    time asked; once that dialog's modal state is cleared the modal states
    are what they were and [waitForTimeout] waits as it did before. *)
Theorem dialog_switches_waits_to_the_server
    (c : Context) (t : Tab) (kind message : string) (time : Z) :
  waitForTimeout (handle (DialogOpened t kind message) c) time = Timer time /\
  _modalStates
    (handle (ModalCleared (length (_modalStates c)))
       (handle (DialogOpened t kind message) c)) = _modalStates c /\
  waitForTimeout
    (handle (ModalCleared (length (_modalStates c)))
       (handle (DialogOpened t kind message) c)) time =
  waitForTimeout c time.
Proof.
  split; [|split].
  - unfold waitForTimeout. simpl. unfold _javaScriptBlocked. simpl.
    rewrite blocked_app by reflexivity. simpl.
    destruct (_currentTab c); reflexivity.
  - simpl. apply delete_last.
  - unfold waitForTimeout, _javaScriptBlocked. simpl.
    rewrite delete_last. reflexivity.
Qed.

(** X14. A file chooser holds the response back, not the snapshot.  When the
    action of a run is through and the only modal states are file choosers,
    the snapshot the tool asked for is captured and kept for the tab, yet
    the response is the transcript with the modal-state section alone:
    neither the snapshot nor the content of the action is in it. *)
Theorem file_chooser_holds_back_the_response_only
    (tools : list Tool) (env : Surroundings) (tr : ToolResult) (c c1 : Context)
    (t : Tab) (items : option (list Content)) (before : list Moment)
    (snapshot : PageSnapshot) :
  resultOverride tr = None ->
  _currentTab c = Some t ->
  captureSnapshot tr = true ->
  runAction env tr c = (c1, Ok items, before) ->
  _modalStates c1 <> [] ->
  Forall (fun state => type state = fileChooser) (_modalStates c1) ->
  capturing env = [] ->
  created env = Ok snapshot ->
  let c2 := withSnapshot (<[t := snapshot]> (_snapshot c1)) c1 in
  run tools env tr c =
  (c2,
   Ok {| content :=
           [TextContent
              (Js.joinLines
                 ([transcript (code tr)] ++ modalStatesMarkdown tools c2))] |},
   before ++ [SnapshotCaptured t]) /\
  snapshotOrDie c2 t = Ok snapshot.
Proof.
  intros Ho Hc Hs E1 Hne Hall Hq Hk c2.
  assert (B : _javaScriptBlocked c1 = false).
  { unfold _javaScriptBlocked. clear - Hall.
    induction Hall as [|state states Hx _ IH]; [reflexivity|].
    simpl. rewrite Hx, IH. reflexivity. }
  split.
  - unfold run. rewrite Ho, Hc, E1.
    unfold runFinally, Tab_captureSnapshot. rewrite Hs, B, Hq, Hk.
    change (deliver [] c1) with c1. simpl.
    subst c2. unfold respond, modalStates, modalStatesMarkdown. simpl.
    destruct (_modalStates c1) as [|state states]; [congruence|].
    reflexivity.
  - unfold snapshotOrDie. subst c2. simpl. rewrite lookup_insert_eq.
    reflexivity.
Qed.

Lemma file_chooser_holds_back_witness :
  let c := handle (FileChooserOpened 1) Sessions.oneTab in
  let c2 := withSnapshot (<[1 := Sessions.snapshot]> (_snapshot c)) c in
  run Sessions.tools Sessions.quiet Sessions.click c =
  (c2,
   Ok {| content :=
           [TextContent
              (Js.joinLines
                 ([transcript (code Sessions.click)] ++
                  modalStatesMarkdown Sessions.tools c2))] |},
   [ActionCalled; ActionSettled true] ++ [SnapshotCaptured 1]) /\
  snapshotOrDie c2 1 = Ok Sessions.snapshot.
Proof.
  apply (file_chooser_holds_back_the_response_only Sessions.tools
           Sessions.quiet Sessions.click
           (handle (FileChooserOpened 1) Sessions.oneTab)
           (handle (FileChooserOpened 1) Sessions.oneTab)
           1 (Some Sessions.done) [ActionCalled; ActionSettled true]
           Sessions.snapshot).
  - reflexivity.
  - reflexivity.
  - reflexivity.
  - reflexivity.
  - discriminate.
  - repeat constructor.
  - reflexivity.
  - reflexivity.
Defined.

(** X15. Tabs on demand.  When [ensureTab] returns, the tab it returns is
    the current tab and the session holds a browser context; it opened a
    page only if no tab was current.  When [newTab] returns, the page it
    has opened is the last tab of the list and the current one, and the tabs
    that the session had after making sure of its browser are all still
    listed before it. *)
Theorem tabs_on_demand (launched : Result (list Tab)) (opened : Result Tab)
    (c : Context) :
  (forall c' r,
     ensureTab launched opened c = (c', Ok r) ->
     exists t,
       r = Some t /\ _currentTab c' = Some t /\ _browserContext c' = true /\
       (forall current,
          _currentTab (fst (_ensureBrowserContext launched c)) = Some current ->
          t = current /\ c' = fst (_ensureBrowserContext launched c))) /\
  (forall c' r,
     newTab launched opened c = (c', Ok r) ->
     exists page,
       opened = Ok page /\ r = Some page /\ _currentTab c' = Some page /\
       _browserContext c' = true /\
       _tabs c' = _tabs (fst (_ensureBrowserContext launched c)) ++ [page]).
Proof.
  assert (B : forall c1,
            _ensureBrowserContext launched c = (c1, Ok tt) ->
            _browserContext c1 = true).
  { unfold _ensureBrowserContext. intros c1 E.
    destruct (_browserContext c) eqn:Q; [inversion E; subst; exact Q|].
    destruct launched as [pages|message]; inversion E; subst.
    clear. generalize (withBrowserContext true c) (eq_refl : _browserContext (withBrowserContext true c) = true).
    induction pages as [|p pages IH]; intros c0 H0; [exact H0|].
    simpl. rewrite deliver_cons. apply IH. exact H0. }
  split.
  - intros c' r. unfold ensureTab.
    destruct (_ensureBrowserContext launched c) as [c1 [[]|message]] eqn:E;
      [|discriminate].
    pose proof (B c1 eq_refl) as B1. simpl.
    destruct (_currentTab c1) as [t|] eqn:Q.
    + intros X. inversion X; subst. exists t. repeat split; auto; congruence.
    + destruct opened as [page|message]; [|discriminate].
      intros X. inversion X; subst. exists page. simpl. rewrite Q.
      repeat split; auto. discriminate. discriminate.
  - intros c' r. unfold newTab.
    destruct (_ensureBrowserContext launched c) as [c1 [[]|message]] eqn:E;
      [|discriminate].
    pose proof (B c1 eq_refl) as B1.
    destruct opened as [page|message]; [|discriminate].
    intros X. inversion X; subst. exists page. simpl.
    rewrite find_opened. repeat split; auto.
Qed.

Lemma tabs_on_demand_witness :
  exists t,
    Some 7 = Some t /\
    _currentTab (fst (ensureTab (Ok []) (Ok 7)
                        (handle (PageClosed 1) Sessions.oneTab))) = Some t /\
    _browserContext (fst (ensureTab (Ok []) (Ok 7)
                            (handle (PageClosed 1) Sessions.oneTab))) = true.
Proof.
  destruct (proj1 (tabs_on_demand (Ok []) (Ok 7)
                     (handle (PageClosed 1) Sessions.oneTab))
              _ _ eq_refl) as (t & A & B & C & _).
  exists t. split; [exact A|]. split; [exact B|exact C].
Defined.

Lemma at_listed {A : Type} (l : list A) (i : nat) :
  at_ l (Z.of_nat i + 1 - 1) = l !! i.
Proof.
  unfold at_. destruct (Z.ltb_spec (Z.of_nat i + 1 - 1) 0) as [Hlt|Hge]; [lia|].
  f_equal. lia.
Qed.

(** X16. The numbers of the tab list are the numbers [selectTab] takes.
    Selecting the number under which a tab is listed makes that tab the
    current one and leaves the list alone, and the list then shows one line
    per tab with that tab's line, at its number, marked as current. *)
Theorem listed_number_selects_the_tab
    (env : Surroundings) (broughtToFront : Tab -> Result unit) (c : Context)
    (i : nat) (t : Tab) :
  _tabs c !! i = Some t ->
  let c' := fst (selectTab broughtToFront (Z.of_nat i + 1) c) in
  selectTab broughtToFront (Z.of_nat i + 1) c =
    (withCurrentTab (Some t) c, broughtToFront t) /\
  _tabs c' = _tabs c /\
  exists lines,
    listTabsMarkdown env c' = Js.joinLines ("### Open tabs" :: lines) /\
    length lines = length (_tabs c) /\
    lines !! i =
      Some ("- " +:+ Js.numberToString (i + 1) +:+ ":" +:+ " (current)" +:+
            " [" +:+ title env t +:+ "] (" +:+ url env t +:+ ")").
Proof.
  intros H c'.
  assert (S : selectTab broughtToFront (Z.of_nat i + 1) c =
              (withCurrentTab (Some t) c, broughtToFront t)).
  { unfold selectTab. rewrite at_listed, H. reflexivity. }
  subst c'. rewrite S. simpl. split; [reflexivity|]. split; [reflexivity|].
  unfold listTabsMarkdown. simpl.
  destruct (_tabs c) as [|x tabs] eqn:T; [discriminate|].
  eexists. split; [reflexivity|]. split.
  - rewrite length_imap. reflexivity.
  - rewrite list_lookup_imap. unfold Tab in *. rewrite H. simpl.
    rewrite Nat.eqb_refl. reflexivity.
Qed.

Lemma listed_number_selects_witness :
  selectTab (fun _ => Ok tt) (Z.of_nat 1 + 1) Sessions.threeTabs =
  (withCurrentTab (Some 2) Sessions.threeTabs, Ok tt).
Proof.
  apply (listed_number_selects_the_tab Sessions.quiet (fun _ => Ok tt)
           Sessions.threeTabs 1 2).
  reflexivity.
Defined.

Lemma snapshot_race events settled :
  forall c, _snapshot (after (race events settled c)) = _snapshot c.
Proof.
  induction events as [|e events IH]; intros c; simpl; [reflexivity|].
  destruct (dialogSignalled (handle e c)).
  - apply snapshot_handle.
  - rewrite IH. apply snapshot_handle.
Qed.

Lemma snapshot_runAction env tr c :
  _snapshot (after (runAction env tr c)) = _snapshot c.
Proof.
  assert (R : _snapshot (after (racingAction tr c)) = _snapshot c).
  { unfold racingAction. destruct (action tr) as [a|]; [|reflexivity].
    unfold _raceAgainstModalDialogs.
    pose proof (snapshot_race (during a) (settles a)
                  (withPendingAction (Some false) c)) as R.
    destruct (race (during a) (settles a) (withPendingAction (Some false) c))
      as [[c1 r] m]. exact R. }
  unfold runAction, waitForCompletion.
  destruct (waitForNetwork tr); [|exact R].
  destruct (racingAction tr c) as [[c1 [items|message]] ms]; [|exact R].
  unfold after in *. simpl in *. rewrite snapshot_deliver. exact R.
Qed.

(** X17. What a run does to the snapshots.  A run replaces at most the
    snapshot of the tab that was current when it started, and none at all
    when its tool did not ask for a capture; the snapshots of all other tabs
    are what they were, whatever pages open, close or show dialogs
    meanwhile, so references taken from them still resolve as before. *)
Theorem run_keeps_the_other_snapshots
    (tools : list Tool) (env : Surroundings) (tr : ToolResult) (c : Context)
    (t : Tab) :
  captureSnapshot tr = false \/ _currentTab c <> Some t ->
  _snapshot (after (run tools env tr c)) !! t = _snapshot c !! t /\
  forall ref,
    resolve (after (run tools env tr c)) t ref = resolve c t ref.
Proof.
  intros H.
  assert (E : _snapshot (after (run tools env tr c)) !! t = _snapshot c !! t).
  { unfold run. destruct (resultOverride tr); [reflexivity|].
    destruct (_currentTab c) as [current|] eqn:Q; [|reflexivity].
    pose proof (snapshot_runAction env tr c) as R1.
    destruct (runAction env tr c) as [[c1 actionResult] before].
    unfold after in R1. simpl in R1.
    assert (R2 : _snapshot (after (runFinally env tr current c1)) !! t =
                 _snapshot c !! t).
    { unfold runFinally, Tab_captureSnapshot, after.
      destruct (captureSnapshot tr) eqn:K; simpl; [|rewrite R1; reflexivity].
      destruct H as [H|H]; [discriminate|].
      destruct (negb (_javaScriptBlocked c1)); simpl;
        [|rewrite R1; reflexivity].
      destruct (created env) as [snapshot|message]; simpl.
      - rewrite lookup_insert_ne by congruence.
        rewrite snapshot_deliver, R1. reflexivity.
      - rewrite snapshot_deliver, R1. reflexivity. }
    destruct (runFinally env tr current c1) as [[c2 [[]|message]] done];
      [|exact R2].
    destruct actionResult as [items|message]; [|exact R2].
    pose proof (respond_snapshot tools env tr current items c2) as R3.
    destruct (respond tools env tr current items c2) as [c3 r].
    unfold after in *. simpl in *. rewrite R3. exact R2. }
  split; [exact E|].
  intros ref. unfold resolve, snapshotOrDie. rewrite E. reflexivity.
Qed.

Lemma run_keeps_the_other_snapshots_witness :
  _snapshot
    (after (run Sessions.tools Sessions.quiet Sessions.click Sessions.twoTabs))
    !! 2 = _snapshot Sessions.twoTabs !! 2.
Proof.
  apply (run_keeps_the_other_snapshots Sessions.tools Sessions.quiet
           Sessions.click Sessions.twoTabs 2).
  right. discriminate.
Defined.

(** * Properties of the tools *)

Lemma orElse_again value fallback :
  orElse (Some (orElse value fallback)) fallback = orElse value fallback.
Proof.
  destruct value as [[|a s]|]; simpl; destruct fallback; reflexivity.
Qed.



(** What a handler hands to the runner, when it returns. *)
Lemma Context_run_returned tools env handler c options options' tr :
  handler c options = Ok (options', tr) ->
  Context_run tools env handler c options = (options', run tools env tr c).
Proof. intros H. unfold Context_run. rewrite H. reflexivity. Qed.



(** X20. A trace is saved where its start said.  After [browser_trace_start]
    with a directory and a name (each replaced by its default when missing or
    empty), [browser_trace_stop] without a path saves to the file of that
    name, with the suffix [.zip], in that directory, the directory a browser
    launched from then on is told to trace into; a non-empty path given to
    [browser_trace_stop] is taken as it is. *)
Theorem trace_is_saved_where_its_start_said
    (host : Host) (driver : Driver) (directory name : option string)
    (screenshots snapshots : option bool) (c : Context)
    (options options' : ContextOptions) (tr : ToolResult) :
  traceStart host driver directory name screenshots snapshots c options =
    Ok (options', tr) ->
  let traceDir := orElse directory (join host (cwd host) "mcp_traces") in
  tracePath host None options' =
    join host traceDir (orElse name "trace" +:+ ".zip") /\
  tracePath host (Some "") options' = tracePath host None options' /\
  (forall a path, tracePath host (Some (String a path)) options' = String a path) /\
  tracing (contextOptions host options') =
    Some {| screenshots := notFalse screenshots;
            snapshots := notFalse snapshots;
            dir := traceDir |}.
Proof.
  intros H traceDir. unfold traceStart in H. inversion H; subst. clear H.
  unfold tracePath, contextOptions. cbn -[orElse].
  rewrite !orElse_again. repeat split.
Qed.

Lemma trace_is_saved_witness :
  tracePath Hosts.posix None
    {| recordVideo := None; videoDir := None; traceEnabled := Some true;
       traceDir := Some "/tmp/traces"; traceName := Some "login";
       traceScreenshots := Some true; traceSnapshots := Some false |} =
  "/tmp/traces/login.zip".
Proof.
  apply (trace_is_saved_where_its_start_said Hosts.posix Hosts.willing
           (Some "/tmp/traces") (Some "login") None (Some false)
           Sessions.oneTab Hosts.plain _ _ eq_refl).
Defined.

(** X21. A video is saved where it is recorded.  After
    [browser_video_enable] with a directory (the default when missing or
    empty) a browser launched from then on is told to record into that
    directory, and [browser_video_save] saves a file of a given name into
    the same directory.  The tool answers by itself: its run needs no tab
    and touches nothing of the session. *)
Theorem video_is_saved_where_it_is_recorded
    (tools : list Tool) (env : Surroundings) (host : Host)
    (directory : option string) (c : Context)
    (options options' : ContextOptions) (tr : ToolResult) :
  videoEnable host directory c options = Ok (options', tr) ->
  let videoDir := orElse directory (join host (cwd host) "mcp_videos") in
  recordVideoDir (contextOptions host options') = Some videoDir /\
  (forall filename,
     videoFilePath host filename options' = join host videoDir filename) /\
  tracing (contextOptions host options') = tracing (contextOptions host options) /\
  run tools env tr c =
    (c,
     Ok {| content :=
             [TextContent
                ("비디오 녹화가 활성화되었습니다. 저장 위치: " +:+ videoDir +:+
                 Js.newline +:+ "다음 브라우저 시작 시 적용됩니다.")] |},
     []).
Proof.
  intros H videoDir. unfold videoEnable in H. inversion H; subst. clear H.
  unfold videoFilePath, contextOptions. cbn -[orElse].
  rewrite !orElse_again. repeat split.
Qed.

Lemma video_is_saved_witness :
  recordVideoDir
    (contextOptions Hosts.posix
       {| recordVideo := Some true; videoDir := Some "/srv/mcp/mcp_videos";
          traceEnabled := None; traceDir := None; traceName := None;
          traceScreenshots := None; traceSnapshots := None |}) =
  Some "/srv/mcp/mcp_videos".
Proof.
  apply (video_is_saved_where_it_is_recorded Sessions.tools Sessions.quiet
           Hosts.posix (Some "") Sessions.oneTab Hosts.plain _ _ eq_refl).
Defined.

(** X22. [browser_scroll_to_element] and a reference that does not
    resolve.  With a tab current the action never throws.  Without a
    snapshot of the tab, or with a reference whose frame index is past the
    frames of the snapshot, the driver is not asked to scroll and the action
    settles with the text of the error; otherwise the driver is asked to
    scroll the element of the frame-local id into view in the frame the
    reference names. *)
Theorem scroll_to_element_resolves_its_reference
    (driver : Driver) (element ref : string) (behavior : option Behavior)
    (c : Context) (options : ContextOptions) (t : Tab) :
  _currentTab c = Some t ->
  exists tr a,
    scrollToElement driver element ref behavior c options = Ok (options, tr) /\
    action tr = Some a /\
    isOk (settles a) = true /\
    (_snapshot c !! t = None ->
     settles a =
       Ok (text ("요소로 스크롤 중 오류 발생: " +:+ "Error: No snapshot available"))) /\
    (forall snapshot,
       _snapshot c !! t = Some snapshot ->
       length (_frameLocators snapshot) <= fst (decodeRef ref) ->
       settles a =
         Ok (text ("요소로 스크롤 중 오류 발생: " +:+ "Error: " +:+
                   frameDoesNotExist))) /\
    (forall snapshot frame,
       _snapshot c !! t = Some snapshot ->
       _frameLocators snapshot !! fst (decodeRef ref) = Some frame ->
       settles a =
         match scrollIntoViewIfNeeded driver
                 {| locatorFrame := frame;
                    selector := ariaRef (snd (decodeRef ref)) |} with
         | Ok _ =>
             Ok (text (Js.doubleQuote +:+ element +:+ Js.doubleQuote +:+
                       " 요소로 스크롤했습니다."))
         | Err error => Ok (text ("요소로 스크롤 중 오류 발생: " +:+ error))
         end).
Proof.
  intros H. eexists. eexists. split; [reflexivity|]. split; [reflexivity|].
  simpl. unfold currentTabOrDie, resolve, snapshotOrDie, refLocator.
  rewrite H. repeat split.
  - destruct (_snapshot c !! t) as [snapshot|]; [|reflexivity].
    destruct (decodeRef ref) as [frameIndex id].
    destruct (_frameLocators snapshot !! frameIndex); [|reflexivity].
    destruct (scrollIntoViewIfNeeded driver _); reflexivity.
  - intros ->. reflexivity.
  - intros snapshot -> L. destruct (decodeRef ref) as [frameIndex id].
    simpl in L. rewrite (proj2 (lookup_ge_None _ _) L). reflexivity.
  - intros snapshot frame -> F. destruct (decodeRef ref) as [frameIndex id].
    simpl in F. rewrite F. reflexivity.
Qed.

Lemma scroll_to_element_witness :
  exists tr a,
    scrollToElement Hosts.willing "Submit" "f2e1" None Sessions.oneTab
      Hosts.plain = Ok (Hosts.plain, tr) /\
    action tr = Some a /\
    settles a =
      Ok (text ("요소로 스크롤 중 오류 발생: " +:+ "Error: No snapshot available")).
Proof.
  destruct (scroll_to_element_resolves_its_reference Hosts.willing "Submit"
              "f2e1" None Sessions.oneTab Hosts.plain 1 eq_refl)
    as (tr & a & A & B & _ & C & _).
  exists tr, a. split; [exact A|]. split; [exact B|]. apply C. reflexivity.
Defined.



(** * Properties of the in-page scroll loop and of the collected artifacts *)

Lemma autoScrollLoop_stops distance scrollHeight bound :
  (0 < distance)%Z ->
  (forall tick, (scrollHeight tick <= bound)%Z) ->
  forall fuel tick totalHeight count,
    1 <= fuel ->
    (bound <= totalHeight + Z.of_nat fuel * distance)%Z ->
    exists n,
      autoScrollLoop distance scrollHeight fuel tick totalHeight count = Some n /\
      count < n <= count + fuel.
Proof.
  intros Hd Hb. induction fuel as [|fuel IH]; intros tick total count Hf H;
    [lia|].
  simpl. destruct (Z.leb_spec (scrollHeight tick) (total + distance)) as [L|L].
  - exists (S count). split; [reflexivity|lia].
  - pose proof (Hb tick) as B.
    destruct (IH (S tick) (total + distance)%Z (S count)) as (n & E & N).
    + destruct fuel; [|lia]. simpl in H. lia.
    + lia.
    + exists n. split; [exact E|lia].
Qed.

Lemma autoScrollLoop_more distance scrollHeight extra :
  forall fuel tick totalHeight count n,
    autoScrollLoop distance scrollHeight fuel tick totalHeight count = Some n ->
    autoScrollLoop distance scrollHeight (fuel + extra) tick totalHeight count =
    Some n.
Proof.
  induction fuel as [|fuel IH]; intros tick total count n H; [discriminate|].
  simpl in *. destruct (Z.leb (scrollHeight tick) (total + distance));
    [exact H|]. apply IH. exact H.
Qed.

Lemma autoScrollLoop_hangs distance scrollHeight :
  (distance < 0)%Z ->
  (forall tick, (0 <= scrollHeight tick)%Z) ->
  forall fuel tick totalHeight count,
    (totalHeight <= 0)%Z ->
    autoScrollLoop distance scrollHeight fuel tick totalHeight count = None.
Proof.
  intros Hd Hb. induction fuel as [|fuel IH]; intros tick total count H;
    [reflexivity|].
  simpl. pose proof (Hb tick) as B.
  destruct (Z.leb_spec (scrollHeight tick) (total + distance)) as [L|L]; [lia|].
  apply IH. lia.
Qed.

(** The ticks it takes to cover [height] at [distance] a tick, one at
    least. *)
Lemma ticks_cover distance height :
  (0 < distance)%Z ->
  (height <=
   Z.of_nat (Z.to_nat (Z.max 1 ((height + distance - 1) / distance))) * distance)%Z.
Proof.
  intros Hd.
  pose proof (Z.div_mod (height + distance - 1) distance ltac:(lia)) as D.
  pose proof (Z.mod_pos_bound (height + distance - 1) distance Hd) as M.
  rewrite Z2Nat.id by lia. nia.
Qed.

Lemma autoScrollLoop_constant distance height :
  (0 < distance)%Z ->
  forall fuel tick totalHeight count,
    Z.to_nat (Z.max 1 ((height - totalHeight + distance - 1) / distance)) <= fuel ->
    autoScrollLoop distance (fun _ => height) fuel tick totalHeight count =
    Some (count +
          Z.to_nat (Z.max 1 ((height - totalHeight + distance - 1) / distance))).
Proof.
  intros Hd. induction fuel as [|fuel IH]; intros tick total count Hf; [lia|].
  simpl. destruct (Z.leb_spec height (total + distance)) as [L|L].
  - assert (Q : ((height - total + distance - 1) / distance < 2)%Z)
      by (apply Z.div_lt_upper_bound; lia).
    f_equal. lia.
  - assert (Q : ((height - total + distance - 1) / distance =
                 (height - (total + distance) + distance - 1) / distance + 1)%Z).
    { replace (height - total + distance - 1)%Z
        with ((height - (total + distance) + distance - 1) + 1 * distance)%Z
        by lia.
      apply Z.div_add. lia. }
    assert (P : (1 <= (height - (total + distance) + distance - 1) / distance)%Z)
      by (apply Z.div_le_lower_bound; lia).
    rewrite IH by lia. f_equal. lia.
Qed.



Lemma sinceCleared_all events :
  existsb clears events = false -> sinceCleared events = events.
Proof.
  induction events as [|e rest IH]; [reflexivity|].
  simpl. intros H. apply orb_false_iff in H. destruct H as [He Hr].
  rewrite Hr, He. reflexivity.
Qed.

Lemma collect_cons e events a :
  collect (e :: events) a = collect events (onPageEvent e a).
Proof. reflexivity. Qed.

Lemma mapGet_mapSet key value entries :
  mapGet key (mapSet key value entries) = Some value.
Proof.
  induction entries as [|[k v] rest IH]; simpl.
  - rewrite Nat.eqb_refl. reflexivity.
  - destruct (Nat.eqb k key) eqn:Q; simpl; rewrite Q; [reflexivity|exact IH].
Qed.

(** X25. What a tab has collected.  After any run of page events the
    console messages a tab holds are those since the last navigation of the
    main frame or closing of the page, in their order (on top of what it
    held before, if there was no such event); a navigation of a child frame
    clears nothing.  A response always leaves its request on record with
    that response, also when the request was made before the navigation
    that emptied the record. *)
Theorem artifacts_are_those_since_the_last_navigation
    (events : list PageEvent) (a : Artifacts) :
  _console (collect events a) =
    (if existsb clears events then [] else _console a) ++
    messages (sinceCleared events) /\
  (forall request response,
     mapGet request
       (_requests (collect (events ++ [ResponseReceived request response]) a)) =
     Some (Some response)) /\
  (forall request response,
     _requests
       (collect [RequestMade request; FrameNavigated false;
                 ResponseReceived request response] a) =
     [(request, Some response)]).
Proof.
  split; [|split].
  - revert a. induction events as [|e rest IH]; intros a.
    + simpl. rewrite app_nil_r. reflexivity.
    + rewrite collect_cons, IH. simpl existsb. simpl sinceCleared.
      destruct (existsb clears rest) eqn:R.
      * rewrite orb_true_r. reflexivity.
      * rewrite orb_false_r.
        destruct e as [m|r|r p|[|]|]; simpl;
          rewrite ?(sinceCleared_all rest R), ?app_nil_r;
          try reflexivity.
        rewrite <- app_assoc. reflexivity.
  - intros request response. unfold collect. rewrite fold_left_app. simpl.
    apply mapGet_mapSet.
  - intros request response. reflexivity.
Qed.
